(** * Intraday pattern detection: a shallow embedding of [patternDetection.ts]

    The engine turns an ordered OHLCV sequence into smoothed series, a list
    of detected patterns, session statistics and a narrative.  JavaScript
    numbers are IEEE-754 binary64 values, so the embedding computes on
    Rocq's primitive floats: every arithmetic step below rounds exactly as
    the engine's does.  Array positions are natural numbers.

    The file has four parts: the engine, function by function; the
    vocabulary of the statements; the facts about lists, about binary64
    and about each detector; and the results, one per property of the
    specification. *)

From Stdlib Require Import Floats ZArith QArith Qminmax Lia Lqa Bool String.
From Stdlib Require Import DecimalString DecimalNat List Sorted Permutation.
Import ListNotations.

Set Implicit Arguments.
Set Warnings "-inexact-float".
Local Open Scope nat_scope.

(** ** Data model ([types.ts]) *)

Definition number := float.

Record IntradayPoint := mkPoint {
  timestamp : number;
  open : number;
  high : number;
  low : number;
  close : number;
  volume : number
}.

Inductive InsightConfidence := High | Medium | Low.

Inductive Direction := Bullish | Bearish.

(** A template literal keeps its holes unevaluated: [x.toFixed(2)] and
    date-fns' [format(ms, "HH:mm")] are rendering calls of the host, so a
    text is the sequence of its fixed parts and of the values handed to
    those two calls. *)
Inductive Piece :=
| Lit (s : string)
| ToFixed2 (x : number)
| FormatHHmm (ms : number).

Definition Text := list Piece.

Record PatternInsight := mkInsight {
  id : string;
  title : string;
  description : Text;
  confidence : InsightConfidence;
  startIndex : option nat;
  endIndex : option nat;
  changePct : option number;
  direction : option Direction
}.

Module SignalMarker.
Record t := mk {
  timestamp : number;
  price : number;
  label : string;
  confidence : InsightConfidence;
  direction : Direction
}.
End SignalMarker.

Record Stats := mkStats {
  rangePct : number;
  avgVolume : number;
  sessionChangePct : number;
  sessionHigh : number;
  sessionLow : number
}.

Record AnalysisSummary := mkSummary {
  narrative : Text;
  stats : Stats;
  insights : list PatternInsight;
  signals : list SignalMarker.t;
  ema9 : list number;
  ema21 : list number
}.

(** ** Host operations *)

(** [`${n}`] for an array position. *)
Definition showIndex (n : nat) : string :=
  NilEmpty.string_of_uint (Nat.to_uint n).

(** [points.length] as a number (exact below 2^53). *)
Definition ofLength (n : nat) : number :=
  PrimFloat.of_uint63 (Uint63.of_Z (Z.of_nat n)).

(** Reading a position the array does not have yields [undefined]; in
    arithmetic that is NaN.  Every read of [points] in the engine is
    guarded by [points.length]; the EMA arrays handed to
    [detectTrendShifts] are read at the positions of [points]. *)
Definition undefinedPoint : IntradayPoint :=
  mkPoint nan nan nan nan nan nan.

Definition at_ (points : list IntradayPoint) (i : nat) : IntradayPoint :=
  nth i points undefinedPoint.

Definition num_at (xs : list number) (i : nat) : number := nth i xs nan.

(** [xs.slice(a, b)] for [0 <= a]. *)
Definition slice {A} (a b : nat) (xs : list A) : list A :=
  firstn (b - a) (skipn a xs).

(** [xs.slice(-n)]: the last [n] elements. *)
Definition slice_last {A} (n : nat) (xs : list A) : list A :=
  skipn (length xs - n) xs.

(** [Math.max(...xs)] and [Math.min(...xs)] (ECMA-262, 21.3.2.24/25): a
    NaN argument makes the result NaN, [+0] is larger than [-0], and the
    empty call gives the neutral infinity. *)
Definition isPosZero (x : number) : bool :=
  match classify x with FloatClass.PZero => true | _ => false end.

Definition isNegZero (x : number) : bool :=
  match classify x with FloatClass.NZero => true | _ => false end.

Definition max_step (highest x : number) : number :=
  if isPosZero x && isNegZero highest then x
  else if (highest <? x)%float then x else highest.

Definition min_step (lowest x : number) : number :=
  if isNegZero x && isPosZero lowest then x
  else if (x <? lowest)%float then x else lowest.

Definition Math_max (xs : list number) : number :=
  if existsb is_nan xs then nan else fold_left max_step xs neg_infinity.

Definition Math_min (xs : list number) : number :=
  if existsb is_nan xs then nan else fold_left min_step xs infinity.

(** [xs.sort(cmp)]: ECMA-262 requires the sort to be stable and, for a
    consistent comparator, ordered by it: [b] goes before [a] exactly when
    [cmp a b > 0] (a NaN result counts as [+0]).  Stable insertion is the
    one arrangement meeting both. *)
Section Sort.
Context {A : Type} (cmp : A -> A -> number).

Fixpoint insert (x : A) (l : list A) : list A :=
  match l with
  | [] => [x]
  | y :: l' => if (0 <? cmp x y)%float then y :: insert x l'
               else x :: y :: l'
  end.

Definition sort (l : list A) : list A := fold_right insert [] l.
End Sort.

(** ** Smoother

    The recurrence only uses [+ - * /] and the literals [1] and [2].  It is
    written once over an arithmetic signature: at [binary64] it is the
    engine's [calculateEMA]; at [exactQ] it is the same recurrence over the
    rationals, without rounding. *)
Record Arith (num : Type) := mkArith {
  lit1 : num;
  lit2 : num;
  plus : num -> num -> num;
  minus : num -> num -> num;
  times : num -> num -> num;
  divide : num -> num -> num
}.

Definition binary64 : Arith number :=
  mkArith 1%float 2%float PrimFloat.add PrimFloat.sub PrimFloat.mul
          PrimFloat.div.

Definition exactQ : Arith Q :=
  mkArith 1%Q 2%Q Qplus Qminus Qmult Qdiv.

Section Smoother.
Context {num : Type} (A : Arith num).

(** [2 / (length + 1)] *)
Definition smoothing (length : num) : num :=
  divide A (lit2 A) (plus A length (lit1 A)).

(** [closeI * k + prev * (1 - k)] *)
Definition emaStep (k closeI prev : num) : num :=
  plus A (times A closeI k) (times A prev (minus A (lit1 A) k)).

(** The loop [for (i = 1; ...) ema[i] = ...], carrying [ema[i - 1]]. *)
Fixpoint emaLoop (k prev : num) (closes : list num) : list num :=
  match closes with
  | [] => []
  | c :: rest => let e := emaStep k c prev in e :: emaLoop k e rest
  end.

Definition emaSeries (closes : list num) (length : num) : list num :=
  match closes with
  | [] => []
  | c0 :: rest => c0 :: emaLoop (smoothing length) c0 rest
  end.
End Smoother.

Definition calculateEMA (points : list IntradayPoint) (length : number)
  : list number :=
  emaSeries binary64 (map close points) length.

(** ** Confidence rule *)

Definition toConfidence (change : number) : InsightConfidence :=
  let absChange := abs change in
  if (1.5 <=? absChange)%float then High
  else if (1.0 <=? absChange)%float then Medium
  else Low.

(** ** BigMoveDetector *)

Definition BIG_MOVE_LOOKBACK : nat := 3.
Definition BIG_MOVE_THRESHOLD : number := 0.6%float.

Module Move.
Record t := mk {
  index : nat;
  changePct : number;
  direction : Direction;
  spanStart : nat
}.
End Move.

Definition pctChange (baseClose latestClose : number) : number :=
  (((latestClose - baseClose) / baseClose) * 100)%float.

Definition directionOf (changePct : number) : Direction :=
  if (0 <=? changePct)%float then Bullish else Bearish.

(** Body of the scan at position [i]: the candidate pushed, if any. *)
Definition bigMoveAt (points : list IntradayPoint) (i : nat) : list Move.t :=
  let baseClose := close (at_ points (i - BIG_MOVE_LOOKBACK)) in
  let latestClose := close (at_ points i) in
  let changePct := pctChange baseClose latestClose in
  if (BIG_MOVE_THRESHOLD <=? abs changePct)%float
  then [Move.mk i changePct (directionOf changePct) (i - BIG_MOVE_LOOKBACK)]
  else [].

Definition candidateMoves (points : list IntradayPoint) : list Move.t :=
  flat_map (bigMoveAt points)
           (seq BIG_MOVE_LOOKBACK (length points - BIG_MOVE_LOOKBACK)).

Definition compareMoves (a b : Move.t) : number :=
  (abs (Move.changePct b) - abs (Move.changePct a))%float.

Definition topMoves (points : list IntradayPoint) : list Move.t :=
  slice 0 4 (sort compareMoves (candidateMoves points)).

Definition directionLabel (d : Direction) : string :=
  match d with Bullish => "Bullish" | Bearish => "Bearish" end.

Definition bigMoveInsight (points : list IntradayPoint) (idx : nat)
           (move : Move.t) : PatternInsight :=
  let point := at_ points (Move.index move) in
  let startPoint := at_ points (Move.spanStart move) in
  let dl := directionLabel (Move.direction move) in
  {| id := ("big-move-" ++ showIndex (Move.index move))%string;
     title := (dl ++ " impulse #" ++ showIndex (idx + 1))%string;
     description :=
       [Lit dl; Lit " burst of "; ToFixed2 (Move.changePct move);
        Lit "% between "; FormatHHmm (timestamp startPoint * 1000)%float;
        Lit " and "; FormatHHmm (timestamp point * 1000)%float;
        Lit " indicates aggressive ";
        Lit (match Move.direction move with
             | Bullish => "buying" | Bearish => "selling" end);
        Lit " pressure."];
     confidence := toConfidence (Move.changePct move);
     startIndex := Some (Move.spanStart move);
     endIndex := Some (Move.index move);
     changePct := Some (Move.changePct move);
     direction := Some (Move.direction move) |}.

Definition bigMoveSignal (points : list IntradayPoint) (move : Move.t)
  : SignalMarker.t :=
  {| SignalMarker.timestamp := timestamp (at_ points (Move.index move));
     SignalMarker.price := close (at_ points (Move.index move));
     SignalMarker.label :=
       match Move.direction move with
       | Bullish => "Momentum Upswing" | Bearish => "Momentum Flush" end;
     SignalMarker.confidence := toConfidence (Move.changePct move);
     SignalMarker.direction := Move.direction move |}.

(** [xs.map((x, idx) => f idx x)] *)
Fixpoint mapi_from {A B} (f : nat -> A -> B) (i : nat) (xs : list A) : list B :=
  match xs with
  | [] => []
  | x :: rest => f i x :: mapi_from f (S i) rest
  end.

Definition mapi {A B} (f : nat -> A -> B) (xs : list A) : list B :=
  mapi_from f 0 xs.

Definition detectBigMoves (points : list IntradayPoint)
  : list PatternInsight * list SignalMarker.t :=
  let top := topMoves points in
  (mapi (bigMoveInsight points) top, map (bigMoveSignal points) top).

(** ** TrendShiftDetector *)

Definition bullishCross (points : list IntradayPoint) (i : nat)
  : PatternInsight :=
  {| id := ("bullish-cross-" ++ showIndex i)%string;
     title := "Short-term bullish transition";
     description :=
       [Lit "Fast EMA crossed above the intermediate trend near ";
        FormatHHmm (timestamp (at_ points i) * 1000)%float;
        Lit ", suggesting renewed upside momentum."];
     confidence := Medium;
     startIndex := Some (i - 1);
     endIndex := Some i;
     changePct := None;
     direction := Some Bullish |}.

Definition bearishCross (points : list IntradayPoint) (i : nat)
  : PatternInsight :=
  {| id := ("bearish-cross-" ++ showIndex i)%string;
     title := "Short-term bearish transition";
     description :=
       [Lit "Fast EMA slipped beneath the intermediate trend near ";
        FormatHHmm (timestamp (at_ points i) * 1000)%float;
        Lit ", flagging a potential fade."];
     confidence := Medium;
     startIndex := Some (i - 1);
     endIndex := Some i;
     changePct := None;
     direction := Some Bearish |}.

(** Body of the scan at position [i]: the insight pushed, if any. *)
Definition trendShiftAt (points : list IntradayPoint)
           (ema9 ema21 : list number) (i : nat) : list PatternInsight :=
  let prevDiff := (num_at ema9 (i - 1) - num_at ema21 (i - 1))%float in
  let currDiff := (num_at ema9 i - num_at ema21 i)%float in
  if (prevDiff <=? 0)%float && (0 <? currDiff)%float
  then [bullishCross points i]
  else if (0 <=? prevDiff)%float && (currDiff <? 0)%float
  then [bearishCross points i]
  else [].

Definition trendTransitions (points : list IntradayPoint)
           (ema9 ema21 : list number) : list PatternInsight :=
  flat_map (trendShiftAt points ema9 ema21) (seq 1 (length points - 1)).

Definition detectTrendShifts (points : list IntradayPoint)
           (ema9 ema21 : list number) : list PatternInsight :=
  slice_last 3 (trendTransitions points ema9 ema21).

(** ** CompressionBreakoutDetector *)

(** The trailing window's range at position [i], relative to the close. *)
Definition windowRange (points : list IntradayPoint) (i : nat) : number :=
  let windowPoints := slice (i - 10) i points in
  let highs := map high windowPoints in
  let lows := map low windowPoints in
  ((Math_max highs - Math_min lows) / close (at_ points i))%float.

(** One turn of the scan over the state [(minRange, minIndex)]. *)
Definition compressionStep (points : list IntradayPoint)
           (st : number * nat) (i : nat) : number * nat :=
  let range := windowRange points i in
  if (range <? fst st)%float then (range, i) else st.

Definition tightestWindow (points : list IntradayPoint) : number * nat :=
  fold_left (compressionStep points) (seq 10 (length points - 10))
            (infinity, 0).

Definition detectCompressionBreakout (points : list IntradayPoint)
  : list PatternInsight :=
  if length points <? 20 then []
  else
    let '(minRange, minIndex) := tightestWindow points in
    let breakoutIndex := Nat.min (length points - 1) (minIndex + 3) in
    let changePct :=
      pctChange (close (at_ points minIndex))
                (close (at_ points breakoutIndex)) in
    if (abs changePct <? 0.8)%float then []
    else
      [ {| id := ("compression-" ++ showIndex breakoutIndex)%string;
           title := "Tight-range expansion";
           description :=
             [Lit "Price coiled within a tight ";
              ToFixed2 (minRange * 100)%float;
              Lit "% band before releasing "; ToFixed2 changePct;
              Lit "%, often a precursor to sustained follow-through."];
           confidence := toConfidence changePct;
           startIndex := Some minIndex;
           endIndex := Some breakoutIndex;
           changePct := Some changePct;
           direction := Some (directionOf changePct) |} ].

(** ** NarrativeBuilder *)

Inductive Bias := BiasBullish | BiasBearish | BiasBalanced.

Definition biasOf (changePct : number) : Bias :=
  if (0.6 <? changePct)%float then BiasBullish
  else if (changePct <? -0.6)%float then BiasBearish
  else BiasBalanced.

Definition biasText (bias : Bias) : string :=
  match bias with
  | BiasBullish =>
      "Flow shows a constructive bias with buyers pressing the tape."
  | BiasBearish =>
      "Supply dominated the session with persistent offer absorption."
  | BiasBalanced =>
      "Auction remained rotational with neither side in clear control."
  end.

Definition buildNarrative (points : list IntradayPoint) : Text :=
  if length points <? 2 then [Lit "Insufficient data to build a narrative."]
  else
    let first := close (at_ points 0) in
    let last := close (at_ points (length points - 1)) in
    let changePct := pctChange first last in
    let sessionHigh := Math_max (map high points) in
    let sessionLow := Math_min (map low points) in
    let rangePct := pctChange sessionLow sessionHigh in
    let bias := biasOf changePct in
    [Lit (biasText bias); Lit " Spot rallied "; ToFixed2 changePct;
     Lit "% across the session while rotating through a ";
     ToFixed2 rangePct;
     Lit "% range. Monitor how price behaves near ";
     ToFixed2 sessionHigh; Lit " (swing high) and ";
     ToFixed2 sessionLow;
     Lit " (swing low) for confirmation of continuation or rejection."].

(** ** AnalysisOrchestrator *)

Definition noDataSummary : AnalysisSummary :=
  {| narrative :=
       [Lit "No intraday prints were returned from the data source."];
     stats := mkStats 0%float 0%float 0%float 0%float 0%float;
     insights := [];
     signals := [];
     ema9 := [];
     ema21 := [] |}.

Definition analyzeIntradayData (points : list IntradayPoint)
  : AnalysisSummary :=
  match points with
  | [] => noDataSummary
  | _ :: _ =>
    let ema9 := calculateEMA points 9%float in
    let ema21 := calculateEMA points 21%float in
    let '(bigMoveInsights, signals) := detectBigMoves points in
    let trendInsights := detectTrendShifts points ema9 ema21 in
    let compressionInsights := detectCompressionBreakout points in
    let volumeSum :=
      fold_left (fun sum point => (sum + volume point)%float) points
                0%float in
    let sessionHigh := Math_max (map high points) in
    let sessionLow := Math_min (map low points) in
    let avgVolume := (volumeSum / ofLength (length points))%float in
    let sessionChangePct :=
      pctChange (close (at_ points 0))
                (close (at_ points (length points - 1))) in
    let rangePct := pctChange sessionLow sessionHigh in
    {| narrative := buildNarrative points;
       stats := mkStats rangePct avgVolume sessionChangePct sessionHigh
                        sessionLow;
       insights :=
         slice 0 6 (bigMoveInsights ++ trendInsights ++ compressionInsights);
       signals := signals;
       ema9 := ema9;
       ema21 := ema21 |}
  end.

(** ** Vocabulary of the statements *)

(** *** binary64 values through their specification *)

(** The order of two numbers; [None] when one of them is NaN. *)
Definition fcompare (a b : number) : option comparison :=
  SFcompare (Prim2SF a) (Prim2SF b).

(** Not NaN. *)
Definition defined (a : number) : Prop := Prim2SF a <> S754_nan.

(** A positive finite value or [+Infinity]. *)
Definition posResult (r : spec_float) : Prop :=
  r = S754_infinity false \/ exists m e, r = S754_finite false m e.

(** The order of [x] and [z] from those of [x], [y] and [y], [z]. *)
Definition cmp_seq (c1 c2 : comparison) : comparison :=
  match c1, c2 with Eq, Eq => Eq | _, _ => Lt end.

(** NaN or a zero: what [c - c], and then the percentage change from [c]
    to [c], evaluates to. *)
Definition zeroOrNaN (x : number) : Prop :=
  Prim2SF x = S754_nan \/ exists s, Prim2SF x = S754_zero s.

(** *** The value of a binary64 number and of a rounding *)

(** Every exponent met below is at least [scale]; a value [m * 2 ^ e] is
    held as the integer [m * 2 ^ (e - scale)]. *)
Definition scale : Z := (-2200)%Z.

(** Where infinity sits among the scaled values: at [2 ^ emax]. *)
Definition topValue : Z := (2 ^ (emax - scale))%Z.

(** The scaled value of the positive number with mantissa [m] and exponent
    [e]. *)
Definition pval (m : positive) (e : Z) : Z := (Zpos m * 2 ^ (e - scale))%Z.

(** The scaled value of a number; NaN has none and is given 0. *)
Definition sval (x : spec_float) : Z :=
  match x with
  | S754_zero _ => 0
  | S754_infinity s => cond_Zopp s topValue
  | S754_nan => 0
  | S754_finite s m e => cond_Zopp s (pval m e)
  end%Z.

Definition fval (a : number) : Z := sval (Prim2SF a).

(** Zero, subnormal or normal. *)
Definition sfinite (x : spec_float) : Prop :=
  match x with
  | S754_zero _ | S754_finite _ _ _ => True
  | _ => False
  end.

Definition finite (a : number) : Prop := sfinite (Prim2SF a).

(** [X / 2 ^ K] to the nearest integer, ties to even. *)
Definition rneZ (X K : Z) : Z :=
  let m := (X / 2 ^ K)%Z in
  match (2 * (X mod 2 ^ K) ?= 2 ^ K)%Z with
  | Lt => m
  | Eq => if Z.even m then m else (m + 1)%Z
  | Gt => (m + 1)%Z
  end.

(** The exponent of the binary64 numbers next to the scaled value [X]. *)
Definition gridOf (X : Z) : Z :=
  (Z.max (Z.log2 X + 1 + scale - prec) emin - scale)%Z.

(** Rounding of a positive scaled value to binary64, infinity included. *)
Definition roundPos (X : Z) : Z :=
  let K := gridOf X in Z.min topValue (rneZ X K * 2 ^ K)%Z.

(** Rounding of any scaled value: symmetric about zero. *)
Definition roundZ (V : Z) : Z :=
  match V with
  | Z0 => 0%Z
  | Zpos _ => roundPos V
  | Zneg p => (- roundPos (Zpos p))%Z
  end.

(** A bit as a number. *)
Definition b2z (b : bool) : Z := if b then 1%Z else 0%Z.

(** Where a value lies between two integers [q] and [q + 1], in quarters:
    at [q], below the middle, at the middle, above it. *)
Definition locCode (l : location) : Z :=
  match l with
  | loc_Exact => 0
  | loc_Inexact Lt => 1
  | loc_Inexact Eq => 2
  | loc_Inexact Gt => 3
  end%Z.

(** After [j] halvings of a mantissa whose value, counted in quarters and
    with its location, is [T]: the quotient, the bit below it and whether
    anything lies below that bit. *)
Definition shifted (T : Z) (j : nat) (mrs : shr_record) : Prop :=
  (0 <= shr_m mrs
   /\ exists u,
       0 <= u < 2 ^ (Z.of_nat j + 1)
       /\ T = shr_m mrs * 2 ^ (Z.of_nat j + 2)
              + b2z (shr_r mrs) * 2 ^ (Z.of_nat j + 1) + u
       /\ shr_s mrs = negb (u =? 0))%Z.

(** *** Bounds of the smoothed series *)

(** [0 <= x <= 1] *)
Definition unitInterval (x : number) : bool :=
  ((0 <=? x) && (x <=? 1))%float.

(** [lo <= x <= hi] *)
Definition within (lo hi x : number) : bool :=
  ((lo <=? x) && (x <=? hi))%float.

(** *** Moves *)

(** A move recorded by the scan over [points]: its end position is inside
    the array, at least [BIG_MOVE_LOOKBACK] in, its change is the
    percentage change over the lookback, and that change clears the
    threshold. *)
Definition recordedMove (points : list IntradayPoint) (m : Move.t) : Prop :=
  BIG_MOVE_LOOKBACK <= Move.index m < length points
  /\ Move.spanStart m = Move.index m - BIG_MOVE_LOOKBACK
  /\ Move.changePct m
     = pctChange (close (at_ points (Move.index m - BIG_MOVE_LOOKBACK)))
                 (close (at_ points (Move.index m)))
  /\ (BIG_MOVE_THRESHOLD <=? abs (Move.changePct m))%float = true
  /\ Move.direction m = directionOf (Move.changePct m).

Definition magnitude (m : Move.t) : number := abs (Move.changePct m).

(** [a] is ranked before [b]: a larger magnitude, or the same magnitude and
    found earlier by the scan. *)
Definition rankedBefore (a b : Move.t) : Prop :=
  (magnitude b <? magnitude a)%float = true
  \/ ((magnitude a =? magnitude b)%float = true
      /\ Move.index a < Move.index b).

Definition clearsThreshold (m : Move.t) : Prop :=
  (BIG_MOVE_THRESHOLD <=? magnitude m)%float = true.

(** *** Scans *)

(** The position an insight ends at. *)
Definition endOf (ins : PatternInsight) : nat :=
  match endIndex ins with Some i => i | None => 0 end.

(** After the positions [10 .. 10 + k - 1]: no window seen is tighter than
    [minRange]; and either nothing was accepted, or [minIndex] is a seen
    position holding [minRange] with every earlier window strictly wider
    (or not comparable). *)
Definition tightestSoFar (points : list IntradayPoint) (k : nat)
           (st : number * nat) : Prop :=
  (forall i, 10 <= i < 10 + k ->
             (windowRange points i <? fst st)%float = false)
  /\ ((snd st = 0 /\ fst st = infinity)
      \/ (10 <= snd st < 10 + k
          /\ fst st = windowRange points (snd st)
          /\ forall i, 10 <= i < snd st ->
                       (windowRange points i <=? fst st)%float = false)).

(** ** Reading the output *)

(** The insights of the BigMoveDetector carry the id [big-move-<index>]. *)
Definition isBigMoveInsight (ins : PatternInsight) : bool :=
  String.prefix "big-move-" (id ins).

Definition insightCore (ins : PatternInsight)
  : option Direction * InsightConfidence * option nat * option nat :=
  (direction ins, confidence ins, startIndex ins, endIndex ins).

(** A bar whose open, high and low equal its close. *)
Definition flatBar (ts c : number) : IntradayPoint :=
  mkPoint ts c c c c 1000%float.

(** The spec's scenario: six one-minute bars. *)
Definition scenarioCloses : list number :=
  [100; 100.2; 100.4; 100.7; 100.5; 101.9]%float.

Definition scenario : list IntradayPoint :=
  [flatBar 1700000040 100; flatBar 1700000100 100.2;
   flatBar 1700000160 100.4; flatBar 1700000220 100.7;
   flatBar 1700000280 100.5; flatBar 1700000340 101.9]%float.

(** Least and greatest element of a list of rationals. *)
Definition listMin (xs : list Q) : Q :=
  match xs with [] => 0%Q | x :: rest => fold_right Qmin x rest end.

Definition listMax (xs : list Q) : Q :=
  match xs with [] => 0%Q | x :: rest => fold_right Qmax x rest end.

(** ** Vocabulary of the further properties *)

(** Low below medium below high. *)
Definition confidenceRank (c : InsightConfidence) : nat :=
  match c with Low => 0 | Medium => 1 | High => 2 end.

(** ** Chart data ([IntradayChart])

    The component turns the points, the two EMA series and the markers
    into four data series for the line chart.  The options and colours of
    the chart library are configuration; the data is embedded here. *)

(** One datum of a series; [marker] is the property only entries of the
    signal series may carry. *)
Module Datum.
Record t := mk {
  x : number;
  y : number;
  marker : option SignalMarker.t
}.
End Datum.

(** The truth value of a number in a condition: false for [0] and NaN. *)
Definition truthy (v : number) : bool :=
  negb (is_nan v || (v =? 0)%float).

(** Key equality of [Map] (SameValueZero): numeric equality, and NaN
    equals NaN. *)
Definition sameValueZero (a b : number) : bool :=
  (a =? b)%float || (is_nan a && is_nan b).

(** A [Map] keyed by numbers, as its entries in insertion order. *)
Section JsMap.
Context {V : Type}.

Fixpoint mapSet (k : number) (v : V) (m : list (number * V))
  : list (number * V) :=
  match m with
  | [] => [(k, v)]
  | (k', v') :: rest =>
      if sameValueZero k' k then (k', v) :: rest
      else (k', v') :: mapSet k v rest
  end.

Definition mapGet (k : number) (m : list (number * V)) : option V :=
  option_map snd (find (fun kv => sameValueZero (fst kv) k) m).
End JsMap.

Definition closeSeries (points : list IntradayPoint) : list Datum.t :=
  map (fun point =>
         {| Datum.x := (timestamp point * 1000)%float; Datum.y := close point;
            Datum.marker := None |})
      points.

(** [ema.map((value, idx) => ...)]: the time of the point at [idx] when it
    has one that is truthy, else [idx] itself. *)
Definition emaChartSeries (points : list IntradayPoint) (ema : list number)
  : list Datum.t :=
  mapi (fun idx value =>
          {| Datum.x := match nth_error points idx with
                  | Some p => if truthy (timestamp p)
                              then (timestamp p * 1000)%float
                              else ofLength idx
                  | None => ofLength idx
                  end;
             Datum.y := value;
             Datum.marker := None |})
       ema.

Definition signalMapOf (signals : list SignalMarker.t)
  : list (number * SignalMarker.t) :=
  fold_left (fun m signal => mapSet (SignalMarker.timestamp signal) signal m)
            signals [].

Definition signalSeries (points : list IntradayPoint)
           (signals : list SignalMarker.t) : list Datum.t :=
  let signalMap := signalMapOf signals in
  map (fun point =>
         match mapGet (timestamp point) signalMap with
         | None =>
             {| Datum.x := (timestamp point * 1000)%float; Datum.y := nan;
                Datum.marker := None |}
         | Some mk =>
             {| Datum.x := (timestamp point * 1000)%float;
                Datum.y := SignalMarker.price mk; Datum.marker := Some mk |}
         end)
      points.

Definition signalColor (entry : Datum.t) : string :=
  match Datum.marker entry with
  | Some mk =>
      match SignalMarker.direction mk with
      | Bullish => "rgba(16, 185, 129, 0.9)"
      | Bearish => "rgba(248, 113, 113, 0.9)"
      end
  | None => "rgba(148, 163, 184, 0.6)"
  end.

(** What the component renders: the placeholder, or the line chart over
    its four data series and the colours of the signal points. *)
Inductive ChartView :=
| Awaiting
| LineChart (closes ema9s ema21s signalData : list Datum.t)
            (signalColors : list string).

Definition IntradayChart (points : list IntradayPoint)
           (ema9 ema21 : list number) (signals : list SignalMarker.t)
  : ChartView :=
  match points with
  | [] => Awaiting
  | _ :: _ =>
      let signalData := signalSeries points signals in
      LineChart (closeSeries points) (emaChartSeries points ema9)
                (emaChartSeries points ema21) signalData
                (map signalColor signalData)
  end.

(** No two bars carry the same time, as a [Map] key compares it. *)
Fixpoint distinctTimes (points : list IntradayPoint) : bool :=
  match points with
  | [] => true
  | p :: rest =>
      forallb (fun q => negb (sameValueZero (timestamp p) (timestamp q)))
              rest
      && distinctTimes rest
  end.

(** ** Price feed: from the quote arrays to points *)

(** What an element of a parsed array can be where a number is expected;
    reading past the end of an array yields [undefined]. *)
Module Feed.
Inductive value := Null | Undefined | Num (v : number).

Record Quote := mkQuote {
  open : list value;
  close : list value;
  high : list value;
  low : list value;
  volume : list value
}.

Record Point := mkPoint {
  p_timestamp : value;
  p_open : value;
  p_high : value;
  p_low : value;
  p_close : value;
  p_volume : value
}.

Definition read (xs : list value) (idx : nat) : value := nth idx xs Undefined.

(** [v === null] *)
Definition isNull (v : value) : bool :=
  match v with Null => true | _ => false end.

(** The callback of [series.timestamp.map]. *)
Definition sampleAt (quote : Quote) (idx : nat) (timestamp : value)
  : option Point :=
  let close := read (close quote) idx in
  let volume := read (volume quote) idx in
  if isNull close || isNull volume then None
  else Some {| p_timestamp := timestamp;
               p_open := read (open quote) idx;
               p_high := read (high quote) idx;
               p_low := read (low quote) idx;
               p_close := close;
               p_volume := volume |}.

(** [.filter(Boolean)] over objects and [null]. *)
Fixpoint filterBoolean {A} (xs : list (option A)) : list A :=
  match xs with
  | [] => []
  | Some x :: rest => x :: filterBoolean rest
  | None :: rest => filterBoolean rest
  end.

Definition extractPoints (timestamps : list value) (quote : Quote)
  : list Point :=
  filterBoolean (mapi (sampleAt quote) timestamps).
End Feed.

(** ** Lists: slices, indexed maps, stable insertion *)

Lemma slice_from_0 {A} (n : nat) (xs : list A) : slice 0 n xs = firstn n xs.
Proof. unfold slice. now rewrite Nat.sub_0_r. Qed.

Lemma slice_from_0_length {A} (n : nat) (xs : list A) :
  length (slice 0 n xs) <= n.
Proof. rewrite slice_from_0. apply firstn_le_length. Qed.

Lemma In_firstn {A} (n : nat) (xs : list A) (x : A) :
  In x (firstn n xs) -> In x xs.
Proof.
  intros H. rewrite <- (firstn_skipn n xs). apply in_or_app. now left.
Qed.

Lemma In_skipn {A} (n : nat) (xs : list A) (x : A) :
  In x (skipn n xs) -> In x xs.
Proof.
  intros H. rewrite <- (firstn_skipn n xs). apply in_or_app. now right.
Qed.

Lemma slice_incl {A} (a b : nat) (xs : list A) (x : A) :
  In x (slice a b xs) -> In x xs.
Proof.
  unfold slice. intros H.
  apply In_firstn in H. now apply In_skipn in H.
Qed.

Lemma slice_last_length {A} (n : nat) (xs : list A) :
  length (slice_last n xs) <= n.
Proof. unfold slice_last. rewrite length_skipn. lia. Qed.

Lemma mapi_from_length {A B} (f : nat -> A -> B) (xs : list A) :
  forall i, length (mapi_from f i xs) = length xs.
Proof.
  induction xs as [|x xs IH]; intros i; simpl; [|rewrite IH]; reflexivity.
Qed.

Lemma mapi_length {A B} (f : nat -> A -> B) (xs : list A) :
  length (mapi f xs) = length xs.
Proof. apply mapi_from_length. Qed.

Lemma mapi_from_Forall2 {A B} (f : nat -> A -> B) (P : A -> B -> Prop)
      (xs : list A) :
  (forall i x, P x (f i x)) -> forall i, Forall2 P xs (mapi_from f i xs).
Proof.
  intros HP. induction xs as [|x xs IH]; intros i; simpl; constructor; auto.
Qed.

Lemma StronglySorted_firstn {A} (R : A -> A -> Prop) (xs : list A) :
  forall n, StronglySorted R xs -> StronglySorted R (firstn n xs).
Proof.
  induction xs as [|x xs IH]; intros n H; destruct n; simpl;
    try constructor.
  - apply IH. now inversion H.
  - inversion H as [|? ? _ Hall]; subst. apply Forall_forall.
    intros y Hy. apply In_firstn in Hy. revert y Hy. now apply Forall_forall.
Qed.

Lemma StronglySorted_skipn {A} (R : A -> A -> Prop) (xs : list A) :
  forall n, StronglySorted R xs -> StronglySorted R (skipn n xs).
Proof.
  induction xs as [|x xs IH]; intros n H; destruct n; simpl; auto.
  apply IH. now inversion H.
Qed.

(** A scan that pushes at most one element per position, tagged with the
    position, leaves its results in increasing position order. *)
Lemma scan_sorted {B} (f : nat -> list B) (key : B -> nat) :
  (forall i x, In x (f i) -> key x = i) ->
  (forall i, length (f i) <= 1) ->
  forall n a,
    StronglySorted (fun x y => key x < key y) (flat_map f (seq a n)).
Proof.
  intros Hkey Hone. induction n as [|n IH]; intros a; simpl; [constructor|].
  specialize (Hone a). pose proof (Hkey a) as Ha.
  destruct (f a) as [|x [|? ?]]; simpl in *; [apply IH| |lia].
  constructor; [apply IH|]. apply Forall_forall. intros y Hy.
  apply in_flat_map in Hy. destruct Hy as [j [Hj Hy]].
  apply in_seq in Hj. rewrite (Ha x), (Hkey j y); auto. lia.
Qed.

Lemma StronglySorted_weaken {A} (R R' : A -> A -> Prop) (P : A -> Prop)
      (xs : list A) :
  (forall a b, P a -> P b -> R a b -> R' a b) ->
  Forall P xs -> StronglySorted R xs -> StronglySorted R' xs.
Proof.
  intros HR HP HS. induction HS as [|x xs HS IH Hx]; constructor.
  - apply IH. now inversion HP.
  - inversion HP as [|? ? Px Pxs]; subst.
    apply Forall_forall. intros y Hy. apply HR; auto.
    + now apply (proj1 (Forall_forall _ _) Pxs).
    + now apply (proj1 (Forall_forall _ _) Hx).
Qed.

Section SortFacts.
Context {A : Type} (cmp : A -> A -> number).

Lemma insert_perm (x : A) (l : list A) : Permutation (x :: l) (insert cmp x l).
Proof.
  induction l as [|y l IH]; simpl; [reflexivity|].
  destruct (0 <? cmp x y)%float; [|reflexivity].
  rewrite perm_swap. now constructor.
Qed.

Lemma sort_perm (l : list A) : Permutation l (sort cmp l).
Proof.
  induction l as [|x l IH]; simpl; [constructor|].
  rewrite <- insert_perm. now constructor.
Qed.

Lemma sort_In (l : list A) (x : A) : In x (sort cmp l) <-> In x l.
Proof.
  split; apply Permutation_in; [symmetry|]; apply sort_perm.
Qed.
End SortFacts.

(** ** Smoother: the recurrence, over any arithmetic *)

Section SmootherFacts.
Context {num : Type} (A : Arith num).

Lemma emaLoop_length (k : num) (closes : list num) :
  forall prev, length (emaLoop A k prev closes) = length closes.
Proof.
  induction closes as [|c rest IH]; intros prev; simpl; [|rewrite IH];
    reflexivity.
Qed.

Lemma emaSeries_length (closes : list num) (n : num) :
  length (emaSeries A closes n) = length closes.
Proof.
  destruct closes as [|c0 rest]; simpl; [|rewrite emaLoop_length];
    reflexivity.
Qed.

(** Reading the loop one position further applies one step. *)
Lemma emaLoop_step (k : num) (closes : list num) :
  forall prev i c e,
    nth_error (prev :: emaLoop A k prev closes) i = Some e ->
    nth_error closes i = Some c ->
    nth_error (emaLoop A k prev closes) i = Some (emaStep A k c e).
Proof.
  induction closes as [|c0 rest IH]; intros prev i c e He Hc.
  - destruct i; discriminate.
  - destruct i as [|i]; simpl in *.
    + now inversion He; inversion Hc; subst.
    + now apply IH.
Qed.

Lemma emaSeries_step (closes : list num) (n : num) (i : nat) (c e : num) :
  nth_error (emaSeries A closes n) i = Some e ->
  nth_error closes (S i) = Some c ->
  nth_error (emaSeries A closes n) (S i)
  = Some (emaStep A (smoothing A n) c e).
Proof.
  destruct closes as [|c0 rest]; [discriminate|]. simpl.
  intros He Hc. now apply emaLoop_step.
Qed.
End SmootherFacts.

Lemma close_at (points : list IntradayPoint) (i : nat) :
  close (at_ points i) = num_at (map close points) i.
Proof. unfold at_, num_at. now rewrite <- (map_nth close). Qed.

Lemma nth_error_num_at (xs : list number) (i : nat) (x : number) :
  nth_error xs i = Some x -> num_at xs i = x.
Proof. intros H. unfold num_at. now apply nth_error_nth. Qed.

Lemma num_at_nth_error (xs : list number) (i : nat) :
  i < length xs -> nth_error xs i = Some (num_at xs i).
Proof. intros H. unfold num_at. now apply nth_error_nth'. Qed.

Lemma calculateEMA_length (points : list IntradayPoint) (n : number) :
  length (calculateEMA points n) = length points.
Proof. unfold calculateEMA. now rewrite emaSeries_length, length_map. Qed.

(** ** binary64: order and subtraction

    The primitive operations are specified by [SpecFloat]'s functions on
    [spec_float] (sign, mantissa, exponent); the facts the detectors rest
    on are derived from those specifications. *)

Module Binary64.
Local Open Scope Z_scope.

(** *** Comparison is a total preorder away from NaN *)

Ltac split_compare :=
  repeat match goal with
         | H : context [(?a ?= ?b)%Z] |- _ =>
             destruct (Z.compare_spec a b); simpl in *; try congruence
         | |- context [(?a ?= ?b)%Z] =>
             destruct (Z.compare_spec a b); simpl in *; try congruence
         | H : context [(?a ?= ?b)%positive] |- _ =>
             destruct (Pos.compare_spec a b); simpl in *; try congruence
         | |- context [(?a ?= ?b)%positive] =>
             destruct (Pos.compare_spec a b); simpl in *; try congruence
         end.

Ltac sf_cases x y z :=
  destruct x as [[]|[]| |[] ? ?], y as [[]|[]| |[] ? ?],
           z as [[]|[]| |[] ? ?]; simpl in *; try congruence;
  change (Pos.compare_cont Eq) with Pos.compare in *.

Lemma SFcompare_trans (x y z : spec_float) (c1 c2 : comparison) :
  SFcompare x y = Some c1 -> SFcompare y z = Some c2 ->
  c1 <> Gt -> c2 <> Gt ->
  SFcompare x z = Some (cmp_seq c1 c2).
Proof.
  destruct c1, c2; try congruence; intros H1 H2 _ _; sf_cases x y z.
  all: split_compare; try lia.
Qed.

Lemma SFcompare_antisym (x y : spec_float) :
  SFcompare y x = option_map CompOpp (SFcompare x y).
Proof.
  destruct x as [[]|[]| |[] mx ex], y as [[]|[]| |[] my ey]; simpl;
    try reflexivity.
  all: change (Pos.compare_cont Eq) with Pos.compare;
    rewrite (Z.compare_antisym ex ey), (Pos.compare_antisym mx my);
    destruct (ex ?= ey); simpl; try reflexivity;
    destruct (mx ?= my)%positive; reflexivity.
Qed.

Lemma SFcompare_refl (x : spec_float) :
  x <> S754_nan -> SFcompare x x = Some Eq.
Proof.
  destruct x as [[]|[]| |[] m e]; simpl; try congruence; intros _.
  all: change (Pos.compare_cont Eq) with Pos.compare;
    now rewrite Z.compare_refl, Pos.compare_refl.
Qed.

Lemma SFcompare_None (x y : spec_float) :
  SFcompare x y = None <-> x = S754_nan \/ y = S754_nan.
Proof.
  destruct x as [[]|[]| |[] mx ex], y as [[]|[]| |[] my ey]; simpl;
    split; intros H; try discriminate; auto;
    destruct H; discriminate.
Qed.

(** *** The sign of a rounded difference *)

Lemma digits2_pos_size (m : positive) : digits2_pos m = Pos.size m.
Proof. induction m; simpl; congruence. Qed.

Lemma digits2_pos_bounds (m : positive) :
  2 ^ (Zpos (digits2_pos m) - 1) <= Zpos m < 2 ^ Zpos (digits2_pos m).
Proof.
  rewrite digits2_pos_size. split.
  - pose proof (Pos.size_le m) as H.
    assert (H2 : 2 ^ Zpos (Pos.size m) <= 2 * Zpos m).
    { change (2 * Zpos m) with (Zpos (m~0)).
      rewrite <- Pos2Z.inj_pow. now apply Pos2Z.pos_le_pos. }
    replace (Zpos (Pos.size m)) with (Z.succ (Zpos (Pos.size m) - 1)) in H2
      by lia.
    rewrite Z.pow_succ_r in H2 by lia. lia.
  - pose proof (Pos.size_gt m) as H.
    change 2 with (Zpos 2). rewrite <- Pos2Z.inj_pow.
    now apply Pos2Z.pos_lt_pos.
Qed.

Lemma shr_1_m (mrs : shr_record) :
  0 <= shr_m mrs -> shr_m (shr_1 mrs) = Z.div2 (shr_m mrs).
Proof.
  destruct mrs as [m r s]. destruct m as [|p|p]; simpl; [reflexivity| |lia].
  intros _. destruct p; reflexivity.
Qed.

Lemma iter_shr_m (n : positive) :
  forall mrs, 0 <= shr_m mrs ->
    shr_m (SpecFloat.iter_pos shr_1 n mrs) = Z.shiftr (shr_m mrs) (Zpos n).
Proof.
  induction n as [n IH|n IH|]; intros mrs Hm; simpl SpecFloat.iter_pos.
  - assert (H1 : 0 <= shr_m (shr_1 mrs)).
    { rewrite shr_1_m by assumption. now apply Z.div2_nonneg. }
    assert (H2 : 0 <= shr_m (SpecFloat.iter_pos shr_1 n (shr_1 mrs))).
    { rewrite IH by assumption. now apply Z.shiftr_nonneg. }
    rewrite IH, IH, shr_1_m by assumption.
    rewrite Z.div2_spec, !Z.shiftr_shiftr by lia. f_equal. lia.
  - assert (H2 : 0 <= shr_m (SpecFloat.iter_pos shr_1 n mrs)).
    { rewrite IH by assumption. now apply Z.shiftr_nonneg. }
    rewrite IH, IH by assumption.
    rewrite !Z.shiftr_shiftr by lia. f_equal. lia.
  - rewrite shr_1_m by assumption. apply Z.div2_spec.
Qed.

Lemma shr_record_of_loc_m m l : shr_m (shr_record_of_loc m l) = m.
Proof. destruct l as [|[]]; reflexivity. Qed.

Lemma shr_fexp_pos (p : positive) (e : Z) (l : location) :
  emin <= e ->
  0 < shr_m (fst (shr_fexp prec emax (Zpos p) e l))
  /\ emin <= snd (shr_fexp prec emax (Zpos p) e l).
Proof.
  intros He. unfold shr_fexp, shr.
  destruct (fexp prec emax (Zdigits2 (Zpos p) + e) - e) as [|q|q] eqn:Hn;
    simpl fst; simpl snd; rewrite ?shr_record_of_loc_m; try (split; lia).
  rewrite iter_shr_m by (rewrite shr_record_of_loc_m; lia).
  rewrite shr_record_of_loc_m. split; [|lia].
  rewrite Z.shiftr_div_pow2 by lia.
  pose proof (digits2_pos_bounds p) as [Hlo _].
  simpl Zdigits2 in Hn. unfold fexp, SpecFloat.emin, prec, emax in *.
  apply Z.div_str_pos. split; [apply Z.pow_pos_nonneg; lia|].
  eapply Z.le_trans; [|exact Hlo]. apply Z.pow_le_mono_r; lia.
Qed.

Lemma round_nearest_even_ge m l : m <= round_nearest_even m l.
Proof. destruct l as [|[]]; simpl; try destruct (Z.even m); lia. Qed.

Lemma binary_round_aux_pos (p : positive) (e : Z) (l : location) :
  emin <= e ->
  posResult (binary_round_aux prec emax false (Zpos p) e l).
Proof.
  intros He. unfold binary_round_aux.
  pose proof (shr_fexp_pos p l He) as [H1 H2].
  destruct (shr_fexp prec emax (Zpos p) e l) as [mrs' e']. simpl in H1, H2.
  pose proof (round_nearest_even_ge (shr_m mrs') (loc_of_shr_record mrs'))
    as Hr.
  destruct (round_nearest_even (shr_m mrs') (loc_of_shr_record mrs'))
    as [|p1|p1]; try lia.
  pose proof (shr_fexp_pos p1 loc_Exact H2) as [H3 _].
  destruct (shr_fexp prec emax (Zpos p1) e' loc_Exact) as [mrs'' e''].
  simpl in H3. destruct (shr_m mrs'') as [|m|m]; try lia.
  destruct (e'' <=? emax - prec); [right; eauto | now left].
Qed.

Lemma binary_round_pos (p : positive) (e : Z) :
  emin <= e -> posResult (binary_round prec emax false p e).
Proof.
  intros He. unfold binary_round, shl_align.
  set (e' := fexp prec emax (Zpos (digits2_pos p) + e)).
  assert (He' : emin <= e') by (unfold e', fexp, SpecFloat.emin; lia).
  destruct (e' - e); now apply binary_round_aux_pos.
Qed.

Lemma binary_round_neg (m : positive) (e : Z) :
  SFltb (S754_zero false) (binary_round prec emax true m e) = false.
Proof.
  unfold binary_round, binary_round_aux.
  destruct (shl_align _ _ _) as [mz ez].
  destruct (shr_fexp prec emax (Zpos mz) ez loc_Exact) as [mrs' e'].
  destruct (shr_fexp _ _ _ _ _) as [mrs'' e''].
  destruct (shr_m mrs''); try reflexivity.
  destruct (e'' <=? emax - prec); reflexivity.
Qed.

Lemma posResult_gt_zero r : posResult r -> SFltb (S754_zero false) r = true.
Proof. intros [->|[m [e ->]]]; reflexivity. Qed.

Lemma iter_xO_val (d : positive) :
  forall m, Zpos (Pos.iter xO m d) = Zpos m * 2 ^ Zpos d.
Proof.
  induction d using Pos.peano_ind; intros m.
  - simpl. lia.
  - rewrite Pos.iter_succ, Pos2Z.inj_succ, Z.pow_succ_r by lia.
    rewrite Pos2Z.inj_xO, IHd. lia.
Qed.

Lemma shl_align_val (m : positive) (e ez : Z) :
  ez <= e -> Zpos (fst (shl_align m e ez)) = Zpos m * 2 ^ (e - ez).
Proof.
  intros Hle. unfold shl_align.
  destruct (ez - e) as [|d|d] eqn:Hd; simpl fst.
  - replace (e - ez) with 0 by lia. simpl. lia.
  - lia.
  - replace (e - ez) with (Zpos d) by lia. apply iter_xO_val.
Qed.

Lemma bounded_digits (m : positive) (e : Z) :
  bounded prec emax m e = true ->
  emin <= e /\ Zpos (digits2_pos m) <= 53
  /\ (emin < e -> Zpos (digits2_pos m) = 53).
Proof.
  unfold bounded, canonical_mantissa. intros H.
  apply andb_true_iff in H. destruct H as [H _].
  apply Z.eqb_eq in H. unfold fexp, SpecFloat.emin, prec, emax in *. lia.
Qed.

(** The sign of a rounded difference of two positive floats is the sign of
    the exact difference. *)
Lemma binary_normalize_sign (M e : Z) :
  emin <= e ->
  SFltb (S754_zero false) (binary_normalize prec emax M e false)
  = (0 <? M).
Proof.
  intros He. destruct M as [|p|p]; simpl.
  - reflexivity.
  - now apply posResult_gt_zero, binary_round_pos.
  - apply binary_round_neg.
Qed.

Lemma SFsub_sign_finite (ma mb : positive) (ea eb : Z) :
  bounded prec emax ma ea = true -> bounded prec emax mb eb = true ->
  SFltb (S754_zero false)
        (SF64sub (S754_finite false mb eb) (S754_finite false ma ea))
  = SFltb (S754_finite false ma ea) (S754_finite false mb eb).
Proof.
  intros Ha Hb.
  apply bounded_digits in Ha. destruct Ha as [Ha1 [Ha2 Ha3]].
  apply bounded_digits in Hb. destruct Hb as [Hb1 [Hb2 Hb3]].
  pose proof (digits2_pos_bounds ma) as [Hma1 Hma2].
  pose proof (digits2_pos_bounds mb) as [Hmb1 Hmb2].
  unfold SF64sub, SFsub, cond_Zopp.
  set (ez := Z.min eb ea).
  rewrite (@shl_align_val mb eb ez), (@shl_align_val ma ea ez)
    by (unfold ez; lia).
  rewrite binary_normalize_sign by (unfold ez; lia).
  unfold SFltb, SFcompare.
  change (Pos.compare_cont Eq ma mb) with (Pos.compare ma mb).
  assert (H53 : forall m : positive,
             Zpos (digits2_pos m) <= 53 -> Zpos m < 2 ^ 53).
  { intros m Hm. pose proof (digits2_pos_bounds m) as [_ Hlt].
    eapply Z.lt_le_trans; [exact Hlt|]. apply Z.pow_le_mono_r; lia. }
  assert (H52 : forall m : positive,
             Zpos (digits2_pos m) = 53 -> 2 ^ 52 <= Zpos m).
  { intros m Hm. pose proof (digits2_pos_bounds m) as [Hlo _].
    now rewrite Hm in Hlo. }
  assert (Hpow : forall d, 0 < d -> 2 <= 2 ^ d).
  { intros d Hd. change 2 with (2 ^ 1) at 1. apply Z.pow_le_mono_r; lia. }
  destruct (Z.compare_spec ea eb) as [Heq|Hlt|Hgt].
  - subst eb. unfold ez. rewrite Z.min_id, Z.sub_diag. simpl (2 ^ 0).
    rewrite !Z.mul_1_r.
    destruct (Pos.compare_spec ma mb); [subst| |]; lia.
  - assert (Hez : ez = ea) by (unfold ez; lia). rewrite Hez, Z.sub_diag.
    simpl (2 ^ 0). rewrite Z.mul_1_r.
    specialize (H53 ma Ha2). specialize (H52 mb (Hb3 ltac:(lia))).
    specialize (Hpow (eb - ea) ltac:(lia)).
    apply Z.ltb_lt. nia.
  - assert (Hez : ez = eb) by (unfold ez; lia). rewrite Hez, Z.sub_diag.
    simpl (2 ^ 0). rewrite Z.mul_1_r.
    specialize (H53 mb Hb2). specialize (H52 ma (Ha3 ltac:(lia))).
    specialize (Hpow (ea - eb) ltac:(lia)).
    apply Z.ltb_ge. nia.
Qed.

(** *** The primitive comparisons *)

Lemma ltb_compare (a b : number) :
  (a <? b)%float = true <-> fcompare a b = Some Lt.
Proof.
  rewrite FloatAxioms.ltb_spec. unfold SFltb, fcompare.
  destruct (SFcompare _ _) as [[]|]; split; congruence.
Qed.

Lemma eqb_compare (a b : number) :
  (a =? b)%float = true <-> fcompare a b = Some Eq.
Proof.
  rewrite FloatAxioms.eqb_spec. unfold SFeqb, fcompare.
  destruct (SFcompare _ _) as [[]|]; split; congruence.
Qed.

Lemma leb_compare (a b : number) :
  (a <=? b)%float = true
  <-> exists c, fcompare a b = Some c /\ c <> Gt.
Proof.
  rewrite FloatAxioms.leb_spec. unfold SFleb, fcompare.
  destruct (SFcompare _ _) as [[]|]; split; try congruence;
    try (intros [c [H1 H2]]; congruence); intros _; eexists; split;
      try reflexivity; congruence.
Qed.

Lemma leb_cases (a b : number) :
  (a <=? b)%float = true
  <-> (a <? b)%float = true \/ (a =? b)%float = true.
Proof.
  rewrite leb_compare, ltb_compare, eqb_compare. split.
  - intros [[] [H1 H2]]; auto. congruence.
  - intros [H|H]; eexists; split; try exact H; congruence.
Qed.

Lemma ltb_leb (a b : number) :
  (a <? b)%float = true -> (a <=? b)%float = true.
Proof. intros H. apply leb_cases. now left. Qed.

Lemma leb_defined (a b : number) :
  (a <=? b)%float = true -> defined a /\ defined b.
Proof.
  rewrite leb_compare. intros [c [H _]]. unfold fcompare, defined in *.
  split; intros E; rewrite E in H; [|destruct (Prim2SF a)]; discriminate.
Qed.

Lemma leb_refl (a : number) : defined a -> (a <=? a)%float = true.
Proof.
  intros H. apply leb_compare. exists Eq. split; [|congruence].
  now apply SFcompare_refl.
Qed.

Lemma leb_trans (a b c : number) :
  (a <=? b)%float = true -> (b <=? c)%float = true ->
  (a <=? c)%float = true.
Proof.
  rewrite !leb_compare. intros [c1 [H1 N1]] [c2 [H2 N2]].
  exists (cmp_seq c1 c2). split.
  - now apply SFcompare_trans with (y := Prim2SF b).
  - destruct c1, c2; simpl; congruence.
Qed.

Lemma ltb_leb_trans (a b c : number) :
  (a <? b)%float = true -> (b <=? c)%float = true ->
  (a <? c)%float = true.
Proof.
  rewrite leb_compare, !ltb_compare. intros H1 [c2 [H2 N2]].
  unfold fcompare.
  rewrite (SFcompare_trans (Prim2SF a) (Prim2SF b) (Prim2SF c) H1 H2)
    by congruence.
  reflexivity.
Qed.

Lemma leb_ltb_trans (a b c : number) :
  (a <=? b)%float = true -> (b <? c)%float = true ->
  (a <? c)%float = true.
Proof.
  rewrite leb_compare, !ltb_compare. intros [c1 [H1 N1]] H2.
  unfold fcompare.
  rewrite (SFcompare_trans (Prim2SF a) (Prim2SF b) (Prim2SF c) H1 H2)
    by congruence.
  now destruct c1.
Qed.

Lemma ltb_trans (a b c : number) :
  (a <? b)%float = true -> (b <? c)%float = true -> (a <? c)%float = true.
Proof. intros H1 H2. eapply ltb_leb_trans; eauto using ltb_leb. Qed.

(** [a < b] excludes [b <= a]. *)
Lemma ltb_not_leb (a b : number) :
  (a <? b)%float = true -> (b <=? a)%float = false.
Proof.
  rewrite ltb_compare. intros H. apply not_true_is_false.
  rewrite leb_compare. intros [c [Hc Nc]]. unfold fcompare in *.
  rewrite SFcompare_antisym, H in Hc. simpl in Hc. congruence.
Qed.

Lemma ltb_not_ltb (a b : number) :
  (a <? b)%float = true -> (b <? a)%float = false.
Proof.
  intros H. apply not_true_is_false. intros H'.
  apply ltb_leb in H'. now rewrite (ltb_not_leb H) in H'.
Qed.

(** Away from NaN, failing [a < b] means [b <= a]. *)
Lemma not_ltb_leb (a b : number) :
  defined a -> defined b -> (a <? b)%float = false ->
  (b <=? a)%float = true.
Proof.
  intros Da Db H. apply leb_compare. unfold fcompare.
  rewrite SFcompare_antisym.
  destruct (SFcompare (Prim2SF a) (Prim2SF b)) as [c|] eqn:Hc.
  - exists (CompOpp c). split; [reflexivity|].
    destruct c; simpl; try congruence.
    apply ltb_compare in Hc. congruence.
  - apply SFcompare_None in Hc. unfold defined in *. tauto.
Qed.

Lemma eqb_sym (a b : number) :
  (a =? b)%float = true -> (b =? a)%float = true.
Proof.
  rewrite !eqb_compare. unfold fcompare. intros H.
  now rewrite SFcompare_antisym, H.
Qed.

Lemma eqb_leb (a b : number) :
  (a =? b)%float = true -> (a <=? b)%float = true.
Proof. intros H. apply leb_cases. now right. Qed.

(** *** Subtraction of positive numbers is sign-exact *)

Lemma Prim2SF_zero : Prim2SF 0%float = S754_zero false.
Proof. reflexivity. Qed.

(** A number above [+0] is a positive finite one or [+Infinity]. *)
Lemma positive_cases (a : number) :
  (0 <? a)%float = true ->
  Prim2SF a = S754_infinity false
  \/ exists m e, Prim2SF a = S754_finite false m e
                 /\ bounded prec emax m e = true.
Proof.
  rewrite FloatAxioms.ltb_spec, Prim2SF_zero.
  pose proof (Prim2SF_valid a) as Hv.
  destruct (Prim2SF a) as [[]|[]| |[] m e]; simpl; try discriminate; eauto.
Qed.

(** For positive [a] and [b] the difference [b - a], as rounded, is above
    zero exactly when [a < b]: the comparator [|b| - |a|] of the sort
    orders by magnitude. *)
Lemma sub_sign (a b : number) :
  (0 <? a)%float = true -> (0 <? b)%float = true ->
  (0 <? b - a)%float = (a <? b)%float.
Proof.
  intros Ha Hb.
  rewrite !FloatAxioms.ltb_spec, FloatAxioms.sub_spec, Prim2SF_zero.
  destruct (positive_cases Ha) as [->|[ma [ea [-> Va]]]];
    destruct (positive_cases Hb) as [->|[mb [eb [-> Vb]]]];
    try reflexivity.
  now apply SFsub_sign_finite.
Qed.

(** *** A number minus itself *)

Lemma sub_self (c : number) :
  Prim2SF (c - c)%float = S754_zero false
  \/ Prim2SF (c - c)%float = S754_nan.
Proof.
  rewrite FloatAxioms.sub_spec. unfold SF64sub, SFsub.
  destruct (Prim2SF c) as [[]|[]| |s m e]; auto.
  left. now rewrite Z.sub_diag.
Qed.
End Binary64.

(** ** binary64: rounding keeps the order

    [SpecFloat] rounds a product, a sum, a difference or a quotient to the
    nearest binary64 number, ties to even; on scaled integer values that
    is [roundZ], which never reverses the order of two values. *)

Module Rounding.
Local Open Scope Z_scope.

Lemma rneZ_bounds (X K : Z) :
  X / 2 ^ K <= rneZ X K <= X / 2 ^ K + 1.
Proof.
  unfold rneZ. destruct (2 * (X mod 2 ^ K) ?= 2 ^ K);
    try destruct (Z.even _); lia.
Qed.

Lemma rneZ_mono (X1 X2 K : Z) :
  0 <= K -> X1 <= X2 -> rneZ X1 K <= rneZ X2 K.
Proof.
  intros HK Hle.
  assert (HP : 0 < 2 ^ K) by (apply Z.pow_pos_nonneg; lia).
  pose proof (Z.div_mod X1 (2 ^ K) ltac:(lia)) as E1.
  pose proof (Z.div_mod X2 (2 ^ K) ltac:(lia)) as E2.
  pose proof (Z.mod_pos_bound X1 (2 ^ K) HP) as B1.
  pose proof (Z.mod_pos_bound X2 (2 ^ K) HP) as B2.
  unfold rneZ.
  set (m1 := X1 / 2 ^ K) in *. set (m2 := X2 / 2 ^ K) in *.
  set (r1 := X1 mod 2 ^ K) in *. set (r2 := X2 mod 2 ^ K) in *.
  set (P := 2 ^ K) in *.
  assert (Hm : m1 < m2 \/ (m1 = m2 /\ r1 <= r2)) by nia.
  destruct (Z.compare_spec (2 * r1) P), (Z.compare_spec (2 * r2) P);
    destruct Hm as [Hm|[Hm Hr]];
    try (rewrite Hm);
    try destruct (Z.even m1) eqn:Ev1; try destruct (Z.even m2) eqn:Ev2;
    try lia.
  all: try (subst m1; rewrite Ev1 in Ev2; discriminate).
Qed.

Lemma gridOf_pos (X : Z) : 0 < gridOf X.
Proof. unfold gridOf, scale, emin, prec, emax. lia. Qed.

Lemma roundPos_nonneg (X : Z) : 0 <= X -> 0 <= roundPos X.
Proof.
  intros HX. unfold roundPos.
  pose proof (gridOf_pos X) as HK.
  apply Z.min_glb.
  - unfold topValue. apply Z.pow_nonneg. lia.
  - apply Z.mul_nonneg_nonneg; [|apply Z.pow_nonneg; lia].
    pose proof (rneZ_bounds X (gridOf X)) as [H _].
    etransitivity; [|exact H]. apply Z.div_pos; [lia|].
    apply Z.pow_pos_nonneg; lia.
Qed.

Lemma roundPos_mono (X1 X2 : Z) :
  0 < X1 -> X1 <= X2 -> roundPos X1 <= roundPos X2.
Proof.
  intros H1 Hle. unfold roundPos.
  apply Z.min_le_compat_l.
  pose proof (Z.log2_le_mono X1 X2 Hle) as HL.
  pose proof (Z.log2_spec X1 H1) as [L1a L1b].
  pose proof (Z.log2_spec X2 ltac:(lia)) as [L2a L2b].
  pose proof (Z.log2_nonneg X1) as N1.
  pose proof (gridOf_pos X1) as G1. pose proof (gridOf_pos X2) as G2.
  assert (HK : gridOf X1 <= gridOf X2) by (unfold gridOf; lia).
  apply Zle_lt_or_eq in HK. destruct HK as [HK|HK].
  - (* a coarser grid: a power of two lies between the two values *)
    assert (EK2 : gridOf X2 = Z.log2 X2 - 52)
      by (unfold gridOf, scale, emin, prec, emax in *; lia).
    assert (HL' : Z.log2 X1 + 1 <= Z.log2 X2)
      by (unfold gridOf, scale, emin, prec, emax in *; lia).
    set (K1 := gridOf X1) in *. set (K2 := gridOf X2) in *.
    set (L1 := Z.log2 X1) in *. set (L2 := Z.log2 X2) in *.
    apply Z.le_trans with (2 ^ L2).
    + pose proof (rneZ_bounds X1 K1) as [_ Hup].
      assert (HP1 : 0 < 2 ^ K1) by (apply Z.pow_pos_nonneg; lia).
      destruct (Z_lt_le_dec K1 (L1 + 1)) as [Hc|Hc].
      * assert (Hm : X1 / 2 ^ K1 < 2 ^ (L1 + 1 - K1)).
        { apply Z.div_lt_upper_bound; [lia|].
          rewrite <- Z.pow_add_r by lia.
          now replace (K1 + (L1 + 1 - K1)) with (Z.succ L1) by lia. }
        apply Z.le_trans with (2 ^ (L1 + 1 - K1) * 2 ^ K1).
        -- apply Z.mul_le_mono_nonneg_r; lia.
        -- rewrite <- Z.pow_add_r by lia. apply Z.pow_le_mono_r; lia.
      * assert (Hm : X1 / 2 ^ K1 = 0).
        { apply Z.div_small. split; [lia|].
          eapply Z.lt_le_trans; [exact L1b|].
          apply Z.pow_le_mono_r; lia. }
        apply Z.le_trans with (1 * 2 ^ K1).
        -- apply Z.mul_le_mono_nonneg_r; lia.
        -- rewrite Z.mul_1_l. apply Z.pow_le_mono_r; lia.
    + pose proof (rneZ_bounds X2 K2) as [Hlo _].
      assert (HP2 : 0 < 2 ^ K2) by (apply Z.pow_pos_nonneg; lia).
      assert (Hm : 2 ^ 52 <= X2 / 2 ^ K2).
      { apply Z.div_le_lower_bound; [lia|].
        rewrite <- Z.pow_add_r by lia.
        now replace (K2 + 52) with L2 by lia. }
      apply Z.le_trans with (2 ^ 52 * 2 ^ K2).
      * rewrite <- Z.pow_add_r by lia. apply Z.pow_le_mono_r; lia.
      * apply Z.mul_le_mono_nonneg_r; lia.
  - rewrite HK. apply Z.mul_le_mono_nonneg_r.
    + apply Z.pow_nonneg; lia.
    + apply rneZ_mono; lia.
Qed.

Lemma roundZ_mono (V1 V2 : Z) : V1 <= V2 -> roundZ V1 <= roundZ V2.
Proof.
  intros Hle.
  destruct V1 as [|p1|p1], V2 as [|p2|p2]; simpl; try lia.
  - apply roundPos_nonneg. lia.
  - apply roundPos_mono; lia.
  - pose proof (@roundPos_nonneg (Zpos p1)). lia.
  - pose proof (@roundPos_nonneg (Zpos p1)).
    pose proof (@roundPos_nonneg (Zpos p2)). lia.
  - pose proof (@roundPos_mono (Zpos p2) (Zpos p1)). lia.
Qed.


(** *** What [shr] leaves of a mantissa *)

Lemma iter_pos_nat {A} (f : A -> A) (n : positive) :
  forall x, SpecFloat.iter_pos f n x = Nat.iter (Pos.to_nat n) f x.
Proof.
  induction n as [n IH|n IH|]; intros x; simpl SpecFloat.iter_pos.
  - rewrite !IH, Pos2Nat.inj_xI.
    rewrite <- Nat.iter_succ_r, <- Nat.iter_add.
    replace (Pos.to_nat n + S (Pos.to_nat n))%nat
      with (S (2 * Pos.to_nat n)) by lia.
    reflexivity.
  - rewrite !IH, Pos2Nat.inj_xO. rewrite <- Nat.iter_add.
    replace (Pos.to_nat n + Pos.to_nat n)%nat
      with (2 * Pos.to_nat n)%nat by lia.
    reflexivity.
  - reflexivity.
Qed.

Lemma shifted_0 (q : Z) (l : location) :
  0 <= q -> shifted (4 * q + locCode l) 0 (shr_record_of_loc q l).
Proof.
  intros Hq. change (Z.of_nat 0) with 0.
  destruct l as [|[]]; (split; [exact Hq|]); cbn [shr_record_of_loc locCode].
  - exists 0. cbn [shr_m shr_r shr_s b2z].
    change (2 ^ (0 + 1)) with 2. change (2 ^ (0 + 2)) with 4.
    repeat split; lia.
  - exists 0. cbn [shr_m shr_r shr_s b2z].
    change (2 ^ (0 + 1)) with 2. change (2 ^ (0 + 2)) with 4.
    repeat split; lia.
  - exists 1. cbn [shr_m shr_r shr_s b2z].
    change (2 ^ (0 + 1)) with 2. change (2 ^ (0 + 2)) with 4.
    repeat split; lia.
  - exists 1. cbn [shr_m shr_r shr_s b2z].
    change (2 ^ (0 + 1)) with 2. change (2 ^ (0 + 2)) with 4.
    repeat split; lia.
Qed.

Lemma shifted_S (T : Z) (j : nat) (mrs : shr_record) :
  shifted T j mrs -> shifted T (S j) (shr_1 mrs).
Proof.
  intros [Hm [u [Hu [Hp Hs]]]].
  destruct mrs as [m r s]. cbn [shr_m shr_r shr_s] in *.
  set (Q := 2 ^ (Z.of_nat j + 1)) in *.
  assert (HP : 0 < Q) by (apply Z.pow_pos_nonneg; lia).
  assert (E1 : 2 ^ (Z.of_nat j + 2) = 2 * Q).
  { unfold Q. replace (Z.of_nat j + 2) with (Z.succ (Z.of_nat j + 1))
      by lia. apply Z.pow_succ_r. lia. }
  assert (E2 : 2 ^ (Z.of_nat (S j) + 1) = 2 * Q).
  { unfold Q. rewrite Nat2Z.inj_succ.
    replace (Z.succ (Z.of_nat j) + 1) with (Z.succ (Z.of_nat j + 1))
      by lia. apply Z.pow_succ_r. lia. }
  assert (E3 : 2 ^ (Z.of_nat (S j) + 2) = 4 * Q).
  { replace (Z.of_nat (S j) + 2) with (Z.succ (Z.of_nat (S j) + 1))
      by lia. rewrite Z.pow_succ_r, E2 by lia. lia. }
  assert (Hb : 0 <= b2z r <= 1) by (destruct r; simpl; lia).
  assert (Hor : (r || s)%bool = negb (b2z r * Q + u =? 0)).
  { rewrite Hs. destruct r; cbn [b2z orb].
    - symmetry. apply negb_true_iff, Z.eqb_neq. lia.
    - now rewrite Z.mul_0_l, Z.add_0_l. }
  rewrite E1 in Hp.
  destruct m as [|q|q]; [| |lia].
  - unfold shr_1. split; cbn [shr_m shr_r shr_s b2z]; [lia|].
    exists (b2z r * Q + u). rewrite E2, E3.
    repeat split; try nia. exact Hor.
  - destruct q as [q|q|]; unfold shr_1;
      (split; cbn [shr_m shr_r shr_s b2z]; [lia|]);
      exists (b2z r * Q + u); rewrite E2, E3;
      repeat split; try nia; try exact Hor.
Qed.

Lemma shifted_iter (q : Z) (l : location) (j : nat) :
  0 <= q ->
  shifted (4 * q + locCode l) j (Nat.iter j shr_1 (shr_record_of_loc q l)).
Proof.
  intros Hq. induction j as [|j IH]; [now apply shifted_0|].
  simpl Nat.iter. now apply shifted_S.
Qed.

Lemma shifted_round (T : Z) (j : nat) (mrs : shr_record) :
  shifted T j mrs ->
  round_nearest_even (shr_m mrs) (loc_of_shr_record mrs)
  = rneZ T (Z.of_nat j + 2).
Proof.
  intros [Hm [u [Hu [Hp Hs]]]].
  destruct mrs as [m r s]. cbn [shr_m shr_r shr_s] in *.
  set (Q := 2 ^ (Z.of_nat j + 1)) in *.
  assert (HP : 0 < Q) by (apply Z.pow_pos_nonneg; lia).
  assert (E1 : 2 ^ (Z.of_nat j + 2) = 2 * Q).
  { unfold Q. replace (Z.of_nat j + 2) with (Z.succ (Z.of_nat j + 1))
      by lia. apply Z.pow_succ_r. lia. }
  rewrite E1 in Hp.
  set (rem := b2z r * Q + u).
  assert (Hb : 0 <= b2z r <= 1) by (destruct r; simpl; lia).
  assert (Hrange : 0 <= rem < 2 * Q) by (unfold rem; nia).
  assert (Hdiv : T / (2 * Q) = m /\ T mod (2 * Q) = rem).
  { apply Z.div_mod_unique with (2 * Q); try lia.
    - left. apply Z.mod_pos_bound. lia.
    - rewrite <- Z.div_mod by lia. unfold rem. lia. }
  destruct Hdiv as [Hq Hr]. unfold rneZ. rewrite E1, Hq, Hr.
  assert (Hu0 : s = false -> u = 0).
  { intros ->. symmetry in Hs. now apply negb_false_iff, Z.eqb_eq in Hs. }
  assert (Hu1 : s = true -> u <> 0).
  { intros ->. symmetry in Hs. now apply negb_true_iff, Z.eqb_neq in Hs. }
  unfold rem.
  destruct r, s; cbn [b2z loc_of_shr_record round_nearest_even];
    try specialize (Hu0 eq_refl); try specialize (Hu1 eq_refl);
    match goal with
    | |- context [?a ?= ?b] => destruct (Z.compare_spec a b)
    end; try lia; reflexivity.
Qed.

(** Scaling the value and the grid together leaves the rounding alone. *)
Lemma rneZ_scaled (p j c : Z) :
  0 <= j -> 0 <= c -> rneZ (p * 2 ^ c) (j + c) = rneZ p j.
Proof.
  intros Hj Hc. unfold rneZ.
  assert (HP : 0 < 2 ^ j) by (apply Z.pow_pos_nonneg; lia).
  assert (HC : 0 < 2 ^ c) by (apply Z.pow_pos_nonneg; lia).
  rewrite Z.pow_add_r by lia.
  rewrite Z.div_mul_cancel_r by lia.
  rewrite Z.mul_mod_distr_r by lia.
  replace (2 * (p mod 2 ^ j * 2 ^ c)) with ((2 * (p mod 2 ^ j)) * 2 ^ c)
    by lia.
  now rewrite <- Zmult_compare_compat_r by lia.
Qed.


(** *** The rounding of [SpecFloat] computes [roundPos] *)

Lemma log2_scaled (p : positive) (c : Z) :
  0 <= c -> Z.log2 (Zpos p * 2 ^ c) = Zpos (digits2_pos p) - 1 + c.
Proof.
  intros Hc. rewrite Z.log2_mul_pow2 by lia.
  pose proof (Binary64.digits2_pos_bounds p) as [Hlo Hhi].
  assert (H : Z.log2 (Zpos p) = Zpos (digits2_pos p) - 1).
  { apply Z.log2_unique; [lia|]. split; [exact Hlo|].
    now replace (Z.succ (Zpos (digits2_pos p) - 1))
      with (Zpos (digits2_pos p)) by lia. }
  lia.
Qed.

Lemma log2_quarters (p : positive) (c : Z) :
  0 <= c < 4 -> Z.log2 (4 * Zpos p + c) = Zpos (digits2_pos p) + 1.
Proof.
  intros Hc. pose proof (Binary64.digits2_pos_bounds p) as [Hlo Hhi].
  set (d := Zpos (digits2_pos p)) in *.
  assert (Hd : 1 <= d) by (unfold d; lia).
  apply Z.log2_unique; [lia|].
  replace (Z.succ (d + 1)) with (2 + d) by lia.
  replace (d + 1) with (2 + (d - 1)) by lia.
  rewrite !Z.pow_add_r by lia. change (2 ^ 2) with 4. lia.
Qed.

Lemma gridOf_loc (p : positive) (e c : Z) :
  scale + 2 <= e -> 0 <= c < 4 ->
  gridOf ((4 * Zpos p + c) * 2 ^ (e - scale - 2))
  = fexp prec emax (Zpos (digits2_pos p) + e) - scale.
Proof.
  intros He Hc. unfold gridOf.
  rewrite Z.log2_mul_pow2, log2_quarters by lia.
  unfold fexp, SpecFloat.emin. lia.
Qed.

Lemma gridOf_fexp (p : positive) (e : Z) :
  scale <= e ->
  gridOf (Zpos p * 2 ^ (e - scale))
  = fexp prec emax (Zpos (digits2_pos p) + e) - scale.
Proof.
  intros He. unfold gridOf. rewrite log2_scaled by lia.
  unfold fexp, SpecFloat.emin. lia.
Qed.

Lemma locCode_range (l : location) : 0 <= locCode l < 4.
Proof. destruct l as [|[]]; simpl; lia. Qed.

Lemma shr_fexp_loc (p : positive) (e : Z) (l : location) :
  e <= fexp prec emax (Zpos (digits2_pos p) + e) ->
  exists mrs,
    shr_fexp prec emax (Zpos p) e l
    = (mrs, fexp prec emax (Zpos (digits2_pos p) + e))
    /\ round_nearest_even (shr_m mrs) (loc_of_shr_record mrs)
       = rneZ (4 * Zpos p + locCode l)
              (fexp prec emax (Zpos (digits2_pos p) + e) - e + 2).
Proof.
  intros Hle. unfold shr_fexp, shr. simpl Zdigits2.
  set (E := fexp prec emax (Zpos (digits2_pos p) + e)) in *.
  destruct (E - e) as [|q|q] eqn:Hn; [| |lia].
  - exists (shr_record_of_loc (Zpos p) l). split.
    + f_equal. lia.
    + apply (@shifted_round (4 * Zpos p + locCode l) 0).
      apply shifted_0. lia.
  - exists (SpecFloat.iter_pos shr_1 q (shr_record_of_loc (Zpos p) l)).
    split.
    + f_equal. lia.
    + rewrite iter_pos_nat. rewrite <- (positive_nat_Z q).
      apply shifted_round, shifted_iter. lia.
Qed.

(** The second normalization: the rounded mantissa fits, or is [2 ^ 53]. *)
Lemma shr_fexp_again (N E : Z) :
  emin <= E -> 0 <= N <= 2 ^ 53 ->
  exists mrs e'',
    shr_fexp prec emax N E loc_Exact = (mrs, e'')
    /\ shr_m mrs * 2 ^ (e'' - scale) = N * 2 ^ (E - scale)
    /\ 0 <= shr_m mrs < 2 ^ 53
    /\ (e'' = E \/ (e'' = E + 1 /\ N = 2 ^ 53))
    /\ (2 ^ 52 <= N -> 2 ^ 52 <= shr_m mrs).
Proof.
  intros HE [HN0 HN].
  apply Zle_lt_or_eq in HN. destruct HN as [HN|HN].
  - exists (Build_shr_record N false false), E.
    split; [|repeat split; simpl; try lia; now left].
    unfold shr_fexp, shr.
    destruct N as [|q|q]; [| |lia].
    + simpl Zdigits2. simpl shr_record_of_loc.
      destruct (fexp prec emax (0 + E) - E) eqn:Hn; try reflexivity.
      unfold fexp, SpecFloat.emin, prec, emax in *. lia.
    + simpl Zdigits2. simpl shr_record_of_loc.
      pose proof (Binary64.digits2_pos_bounds q) as [Hlo _].
      assert (Hd : Zpos (digits2_pos q) <= 53).
      { assert (2 ^ (Zpos (digits2_pos q) - 1) < 2 ^ 53) by lia.
        apply Z.pow_lt_mono_r_iff in H; lia. }
      destruct (fexp prec emax (Zpos (digits2_pos q) + E) - E) eqn:Hn;
        try reflexivity.
      unfold fexp, SpecFloat.emin, prec, emax in *. lia.
  - subst N.
    exists (Build_shr_record (2 ^ 52) false false), (E + 1).
    split; [|split; [|split; [simpl shr_m; lia|split;
                                [now right|simpl shr_m; lia]]]].
    + unfold shr_fexp, shr.
      change (2 ^ 53) with (Zpos 9007199254740992).
      simpl Zdigits2. simpl shr_record_of_loc.
      change (Zpos (digits2_pos 9007199254740992)) with 54.
      assert (Hn : fexp prec emax (54 + E) - E = 1)
        by (unfold fexp, SpecFloat.emin, prec, emax in *; lia).
      rewrite Hn. reflexivity.
    + cbn [shr_m].
      replace (E + 1 - scale) with (Z.succ (E - scale)) by lia.
      rewrite Z.pow_succ_r
        by (unfold scale, SpecFloat.emin, prec, emax in *; lia).
      change (2 ^ 53) with (2 * 2 ^ 52). ring.
Qed.

Lemma binary_round_aux_loc (s : bool) (p : positive) (e : Z)
      (l : location) :
  scale + 2 <= e -> e <= fexp prec emax (Zpos (digits2_pos p) + e) ->
  binary_round_aux prec emax s (Zpos p) e l <> S754_nan
  /\ sval (binary_round_aux prec emax s (Zpos p) e l)
     = cond_Zopp s (roundPos ((4 * Zpos p + locCode l)
                              * 2 ^ (e - scale - 2))).
Proof.
  intros Hs Hle.
  destruct (shr_fexp_loc p l Hle) as [mrs' [E1 Hround]].
  pose proof (locCode_range l) as Hc.
  set (T := 4 * Zpos p + locCode l) in *.
  set (d := Zpos (digits2_pos p)) in *.
  set (E := fexp prec emax (d + e)) in *.
  assert (HE : emin <= E) by (unfold E, fexp; lia).
  pose proof (Binary64.digits2_pos_bounds p) as [Hplo Hphi].
  fold d in Hplo, Hphi.
  assert (Hn : 0 <= E - e) by lia.
  assert (HPn : 0 < 2 ^ (E - e)) by (apply Z.pow_pos_nonneg; lia).
  set (N := rneZ T (E - e + 2)) in *.
  pose proof (rneZ_bounds T (E - e + 2)) as [HNlo HNhi].
  fold N in HNlo, HNhi.
  assert (HT : T / 2 ^ (E - e + 2) = Zpos p / 2 ^ (E - e)).
  { replace (E - e + 2) with (2 + (E - e)) by lia.
    rewrite Z.pow_add_r by lia. change (2 ^ 2) with 4.
    rewrite <- Z.div_div by lia. f_equal.
    unfold T. rewrite Z.mul_comm, Z.div_add_l by lia.
    rewrite Z.div_small by lia. lia. }
  rewrite HT in HNlo, HNhi.
  assert (Hq0 : 0 <= Zpos p / 2 ^ (E - e)) by (apply Z.div_pos; lia).
  assert (Hq1 : Zpos p / 2 ^ (E - e) < 2 ^ 53).
  { apply Z.div_lt_upper_bound; [lia|].
    rewrite <- Z.pow_add_r by lia.
    eapply Z.lt_le_trans; [exact Hphi|].
    apply Z.pow_le_mono_r; [lia|]. unfold E, fexp, prec. lia. }
  assert (Hq2 : emin < E -> 2 ^ 52 <= Zpos p / 2 ^ (E - e)).
  { intros Hgt. apply Z.div_le_lower_bound; [lia|].
    rewrite <- Z.pow_add_r by lia.
    eapply Z.le_trans; [|exact Hplo].
    apply Z.pow_le_mono_r; [lia|].
    unfold E, fexp, SpecFloat.emin, prec, emax in *. lia. }
  destruct (@shr_fexp_again N E HE ltac:(lia))
    as [mrs'' [e'' [E2 [Hval [Hm [HeE Hbig]]]]]].
  assert (HK : gridOf (T * 2 ^ (e - scale - 2)) = E - scale)
    by (unfold E, d, T; now apply gridOf_loc).
  assert (HN : rneZ (T * 2 ^ (e - scale - 2)) (E - scale) = N).
  { unfold N.
    replace (E - scale) with ((E - e + 2) + (e - scale - 2)) by lia.
    apply rneZ_scaled; lia. }
  unfold roundPos. rewrite HK, HN.
  unfold binary_round_aux. rewrite E1, Hround. fold N. rewrite E2.
  assert (Htop : topValue = 2 ^ 53 * 2 ^ (971 - scale)) by reflexivity.
  assert (Hsc : 0 <= E - scale)
    by (unfold scale, SpecFloat.emin, prec, emax in *; lia).
  clearbody N.
  assert (Hsc'' : 0 <= e'' - scale) by lia.
  assert (HP'' : 0 < 2 ^ (e'' - scale)) by (apply Z.pow_pos_nonneg; lia).
  clear E1 E2 Hround HK HN HNhi Hq0 Hq1 Hplo Hphi.
  destruct (shr_m mrs'') as [|m|m] eqn:Hm''; [| |lia].
  - split; [discriminate|]. cbn [sval]; unfold pval.
    rewrite <- Hval, Z.mul_0_l.
    rewrite Z.min_r by (unfold topValue; apply Z.pow_nonneg; lia).
    now destruct s.
  - destruct (e'' <=? emax - prec) eqn:Hov.
    + split; [discriminate|]. cbn [sval]; unfold pval. f_equal.
      rewrite <- Hval. symmetry. apply Z.min_r.
      apply Z.leb_le in Hov. unfold emax, prec in Hov.
      change topValue with (2 ^ 53 * 2 ^ (971 - scale)).
      apply Z.mul_le_mono_nonneg;
        [lia | lia | lia | apply Z.pow_le_mono_r; lia].
    + split; [discriminate|]. cbn [sval]; unfold pval. f_equal.
      symmetry. apply Z.min_l.
      apply Z.leb_gt in Hov. unfold emax, prec in Hov.
      assert (Hgt : emin < E)
        by (unfold SpecFloat.emin, prec, emax in *; lia).
      specialize (Hq2 Hgt). specialize (Hbig ltac:(lia)).
      rewrite <- Hval.
      change topValue with (2 ^ 52 * 2 ^ (972 - scale)).
      apply Z.mul_le_mono_nonneg;
        [lia | lia | apply Z.pow_nonneg; lia
         | apply Z.pow_le_mono_r; lia].
Qed.

Lemma binary_round_aux_val (s : bool) (p : positive) (e : Z) :
  scale + 2 <= e -> e <= fexp prec emax (Zpos (digits2_pos p) + e) ->
  binary_round_aux prec emax s (Zpos p) e loc_Exact <> S754_nan
  /\ sval (binary_round_aux prec emax s (Zpos p) e loc_Exact)
     = cond_Zopp s (roundPos (Zpos p * 2 ^ (e - scale))).
Proof.
  intros Hs Hle.
  replace (Zpos p * 2 ^ (e - scale))
    with ((4 * Zpos p + locCode loc_Exact) * 2 ^ (e - scale - 2)).
  - now apply binary_round_aux_loc.
  - cbn [locCode].
    assert (Hpow : 2 ^ (e - scale) = 4 * 2 ^ (e - scale - 2)).
    { change 4 with (2 ^ 2). rewrite <- Z.pow_add_r by lia.
      f_equal. lia. }
    rewrite Hpow. ring.
Qed.


(** *** Canonical numbers *)

Lemma bounded_spec (m : positive) (e : Z) :
  bounded prec emax m e = true ->
  fexp prec emax (Zpos (digits2_pos m) + e) = e
  /\ emin <= e <= 971
  /\ Zpos m < 2 ^ 53
  /\ (emin < e -> 2 ^ 52 <= Zpos m).
Proof.
  unfold bounded, canonical_mantissa. intros H.
  apply andb_true_iff in H. destruct H as [H1 H2].
  apply Z.eqb_eq in H1. apply Z.leb_le in H2.
  pose proof (Binary64.digits2_pos_bounds m) as [Hlo Hhi].
  split; [exact H1|].
  unfold fexp, SpecFloat.emin, prec, emax in *.
  split; [lia|]. split.
  - eapply Z.lt_le_trans; [exact Hhi|]. apply Z.pow_le_mono_r; lia.
  - intros Hgt. eapply Z.le_trans; [|exact Hlo].
    apply Z.pow_le_mono_r; lia.
Qed.

Lemma pval_bounds (m : positive) (e : Z) :
  bounded prec emax m e = true -> 0 < pval m e < topValue.
Proof.
  intros H. apply bounded_spec in H. destruct H as [_ [He [Hm _]]].
  unfold pval.
  assert (Hs : 0 <= e - scale)
    by (unfold scale, SpecFloat.emin, prec, emax in *; lia).
  assert (HP : 0 < 2 ^ (e - scale)) by (apply Z.pow_pos_nonneg; lia).
  split; [apply Z.mul_pos_pos; lia|].
  change topValue with (2 ^ 53 * 2 ^ (971 - scale)).
  apply Z.lt_le_trans with (2 ^ 53 * 2 ^ (e - scale)).
  - apply Z.mul_lt_mono_pos_r; lia.
  - apply Z.mul_le_mono_nonneg_l; [lia|]. apply Z.pow_le_mono_r; lia.
Qed.

(** Canonical numbers are ordered by exponent, then by mantissa. *)
Lemma pval_compare (m1 m2 : positive) (e1 e2 : Z) :
  bounded prec emax m1 e1 = true -> bounded prec emax m2 e2 = true ->
  match e1 ?= e2 with
  | Lt => Lt
  | Gt => Gt
  | Eq => Pos.compare_cont Eq m1 m2
  end = (pval m1 e1 ?= pval m2 e2).
Proof.
  intros H1 H2.
  apply bounded_spec in H1. destruct H1 as [_ [He1 [Hm1 Hn1]]].
  apply bounded_spec in H2. destruct H2 as [_ [He2 [Hm2 Hn2]]].
  unfold pval.
  assert (Hs1 : 0 <= e1 - scale)
    by (unfold scale, SpecFloat.emin, prec, emax in *; lia).
  assert (Hs2 : 0 <= e2 - scale)
    by (unfold scale, SpecFloat.emin, prec, emax in *; lia).
  assert (HP1 : 0 < 2 ^ (e1 - scale)) by (apply Z.pow_pos_nonneg; lia).
  assert (HP2 : 0 < 2 ^ (e2 - scale)) by (apply Z.pow_pos_nonneg; lia).
  assert (Hstep : forall a b, 0 <= a -> a < b -> 2 * 2 ^ a <= 2 ^ b).
  { intros a b Ha Hab. rewrite <- Z.pow_succ_r by lia.
    apply Z.pow_le_mono_r; lia. }
  destruct (Z.compare_spec e1 e2) as [Heq|Hlt|Hgt].
  - subst e2. change (Pos.compare_cont Eq m1 m2) with (Zpos m1 ?= Zpos m2).
    apply Zmult_compare_compat_r. lia.
  - symmetry. apply Z.compare_lt_iff.
    specialize (Hn2 ltac:(lia)).
    specialize (Hstep (e1 - scale) (e2 - scale) Hs1 ltac:(lia)).
    apply Z.lt_le_trans with (2 ^ 53 * 2 ^ (e1 - scale)).
    + apply Z.mul_lt_mono_pos_r; lia.
    + apply Z.le_trans with (2 ^ 52 * 2 ^ (e2 - scale)).
      * change (2 ^ 53) with (2 ^ 52 * 2).
        rewrite <- Z.mul_assoc. apply Z.mul_le_mono_nonneg_l; lia.
      * apply Z.mul_le_mono_nonneg_r; lia.
  - symmetry. apply Z.compare_gt_iff.
    specialize (Hn1 ltac:(lia)).
    specialize (Hstep (e2 - scale) (e1 - scale) Hs2 ltac:(lia)).
    apply Z.lt_le_trans with (2 ^ 53 * 2 ^ (e2 - scale)).
    + apply Z.mul_lt_mono_pos_r; lia.
    + apply Z.le_trans with (2 ^ 52 * 2 ^ (e1 - scale)).
      * change (2 ^ 53) with (2 ^ 52 * 2).
        rewrite <- Z.mul_assoc. apply Z.mul_le_mono_nonneg_l; lia.
      * apply Z.mul_le_mono_nonneg_r; lia.
Qed.

Lemma SFcompare_val (x y : spec_float) :
  valid_binary x = true -> valid_binary y = true ->
  x <> S754_nan -> y <> S754_nan ->
  SFcompare x y = Some (sval x ?= sval y).
Proof.
  intros Vx Vy Nx Ny.
  assert (Htop : 0 < topValue) by reflexivity.
  destruct x as [sx|sx| |sx mx ex], y as [sy|sy| |sy my ey];
    try congruence; unfold SFcompare; cbn [sval valid_binary] in *;
    try (pose proof (pval_bounds _ _ Vx) as [Bx1 Bx2]);
    try (pose proof (pval_bounds _ _ Vy) as [By1 By2]).
  all: try (destruct sx); try (destruct sy); cbn [cond_Zopp]; f_equal;
    try reflexivity.
  all: try (symmetry;
            first [apply Z.compare_eq_iff | apply Z.compare_lt_iff
                  | apply Z.compare_gt_iff]; lia).
  - rewrite Z.compare_opp, <- (pval_compare _ _ _ _ Vy Vx).
    rewrite (Z.compare_antisym ey ex).
    change (Pos.compare_cont Eq mx my) with (Pos.compare mx my).
    change (Pos.compare_cont Eq my mx) with (Pos.compare my mx).
    rewrite (Pos.compare_antisym my mx).
    destruct (ey ?= ex); cbn [CompOpp]; rewrite ?CompOpp_involutive;
      reflexivity.
  - exact (pval_compare _ _ _ _ Vx Vy).
Qed.

Lemma roundZ_pos (V : Z) : 0 < V -> roundZ V = roundPos V.
Proof. destruct V; simpl; lia. Qed.

Lemma roundZ_neg (V : Z) : 0 < V -> roundZ (- V) = - roundPos V.
Proof. destruct V; simpl; lia. Qed.

Lemma roundZ_cond (s : bool) (V : Z) :
  0 < V -> roundZ (cond_Zopp s V) = cond_Zopp s (roundPos V).
Proof.
  intros HV. destruct s; cbn [cond_Zopp];
    [now apply roundZ_neg | now apply roundZ_pos].
Qed.

(** A canonical number is its own rounding. *)
Lemma roundPos_bounded (m : positive) (e : Z) :
  bounded prec emax m e = true -> roundPos (pval m e) = pval m e.
Proof.
  intros H. pose proof (pval_bounds _ _ H) as [B1 B2].
  apply bounded_spec in H. destruct H as [Hc [He _]].
  assert (Hs : scale <= e)
    by (unfold scale, SpecFloat.emin, prec, emax in *; lia).
  unfold roundPos, pval in *. rewrite gridOf_fexp by exact Hs. rewrite Hc.
  assert (HP : 0 < 2 ^ (e - scale)) by (apply Z.pow_pos_nonneg; lia).
  unfold rneZ. rewrite Z.div_mul, Z.mod_mul by lia.
  destruct (Z.compare_spec (2 * 0) (2 ^ (e - scale))); try lia.
Qed.

Lemma roundZ_sval (x : spec_float) :
  valid_binary x = true -> sfinite x -> roundZ (sval x) = sval x.
Proof.
  intros V F. destruct x as [s|s| |s m e]; try contradiction.
  - reflexivity.
  - cbn [sval valid_binary] in *.
    pose proof (pval_bounds _ _ V) as [B _].
    rewrite roundZ_cond by exact B. now rewrite roundPos_bounded.
Qed.


(** *** Products and sums *)

Lemma digits_log2 (p : positive) :
  Zpos (digits2_pos p) = Z.log2 (Zpos p) + 1.
Proof.
  pose proof (log2_scaled p (Z.le_refl 0)) as H.
  change (2 ^ 0) with 1 in H. rewrite Z.mul_1_r in H. lia.
Qed.

Lemma binary_round_val (s : bool) (q : positive) (e : Z) :
  emin <= e ->
  binary_round prec emax s q e <> S754_nan
  /\ sval (binary_round prec emax s q e)
     = cond_Zopp s (roundPos (pval q e)).
Proof.
  intros He.
  assert (Hs : scale + 2 <= e)
    by (unfold scale, SpecFloat.emin, prec, emax in *; lia).
  unfold binary_round, shl_align.
  set (F := fexp prec emax (Zpos (digits2_pos q) + e)).
  assert (HF : emin <= F) by (unfold F, fexp; lia).
  destruct (F - e) as [|k|k] eqn:Hk.
  - apply binary_round_aux_val; [exact Hs | fold F; lia].
  - apply binary_round_aux_val; [exact Hs | fold F; lia].
  - assert (Hv : Zpos (Pos.iter xO q k) = Zpos q * 2 ^ Zpos k)
      by apply Binary64.iter_xO_val.
    assert (Hd : Zpos (digits2_pos (Pos.iter xO q k))
                 = Zpos (digits2_pos q) + Zpos k).
    { rewrite (digits_log2 (Pos.iter xO q k)), Hv.
      rewrite Z.log2_mul_pow2 by lia. rewrite (digits_log2 q). lia. }
    assert (Hp : pval (Pos.iter xO q k) F = pval q e).
    { unfold pval. rewrite Hv, <- Z.mul_assoc, <- Z.pow_add_r
        by (unfold scale, SpecFloat.emin, prec, emax in *; lia).
      do 2 f_equal. lia. }
    rewrite <- Hp. apply binary_round_aux_val.
    + unfold scale, SpecFloat.emin, prec, emax in *. lia.
    + rewrite Hd.
      replace (Zpos (digits2_pos q) + Zpos k + F)
        with (Zpos (digits2_pos q) + e) by lia.
      fold F. lia.
Qed.

Lemma cond_Zopp_mul (sx sy : bool) (a b : Z) :
  cond_Zopp sx a * cond_Zopp sy b = cond_Zopp (xorb sx sy) (a * b).
Proof. destruct sx, sy; simpl; lia. Qed.

Lemma cond_Zopp_scaled (s : bool) (V P : Z) :
  P <> 0 -> cond_Zopp s (V * P) / P = cond_Zopp s V.
Proof.
  intros HP. destruct s; cbn [cond_Zopp].
  - rewrite <- Z.mul_opp_l. now apply Z.div_mul.
  - now apply Z.div_mul.
Qed.

Lemma SFmul_val (x y : spec_float) :
  valid_binary x = true -> valid_binary y = true ->
  sfinite x -> sfinite y ->
  SFmul prec emax x y <> S754_nan
  /\ sval (SFmul prec emax x y)
     = roundZ (sval x * sval y / 2 ^ (- scale)).
Proof.
  intros Vx Vy Fx Fy.
  destruct x as [sx|sx| |sx mx ex]; try contradiction;
    destruct y as [sy|sy| |sy my ey]; try contradiction;
    cbn [SFmul sval valid_binary] in *.
  - split; [discriminate|]. reflexivity.
  - split; [discriminate|]. reflexivity.
  - split; [discriminate|]. now rewrite Z.mul_0_r.
  - pose proof (pval_bounds _ _ Vx) as [Bx _].
    pose proof (pval_bounds _ _ Vy) as [By _].
    pose proof (bounded_spec _ _ Vx) as [Cx [Ex [Mx Nx]]].
    pose proof (bounded_spec _ _ Vy) as [Cy [Ey [My Ny]]].
    assert (Hprod : pval mx ex * pval my ey
                    = pval (mx * my) (ex + ey) * 2 ^ (- scale)).
    { unfold pval. rewrite Pos2Z.inj_mul.
      replace (Zpos mx * Zpos my * 2 ^ (ex + ey - scale) * 2 ^ (- scale))
        with (Zpos mx * Zpos my
              * (2 ^ (ex + ey - scale) * 2 ^ (- scale))) by ring.
      rewrite <- Z.pow_add_r
        by (unfold scale, SpecFloat.emin, prec, emax in *; lia).
      replace (ex + ey - scale + - scale)
        with ((ex - scale) + (ey - scale)) by lia.
      rewrite Z.pow_add_r
        by (unfold scale, SpecFloat.emin, prec, emax in *; lia).
      ring. }
    assert (Hpos : 0 < pval (mx * my) (ex + ey)).
    { unfold pval. apply Z.mul_pos_pos; [lia|].
      apply Z.pow_pos_nonneg; [lia|].
      unfold scale, SpecFloat.emin, prec, emax in *. lia. }
    rewrite cond_Zopp_mul, Hprod, cond_Zopp_scaled
      by (apply Z.pow_nonzero; unfold scale; lia).
    rewrite roundZ_cond by exact Hpos.
    apply binary_round_aux_val.
    + unfold scale, SpecFloat.emin, prec, emax in *. lia.
    + (* the product of two canonical mantissas is not too coarse *)
      pose proof (Binary64.digits2_pos_bounds mx) as [Lx _].
      pose proof (Binary64.digits2_pos_bounds my) as [Ly _].
      pose proof (Binary64.digits2_pos_bounds (mx * my)) as [_ Hxy].
      rewrite Pos2Z.inj_mul in Hxy.
      set (dx := Zpos (digits2_pos mx)) in *.
      set (dy := Zpos (digits2_pos my)) in *.
      set (D := Zpos (digits2_pos (mx * my))) in *.
      assert (Hdx : 1 <= dx) by (unfold dx; lia).
      assert (Hdy : 1 <= dy) by (unfold dy; lia).
      assert (HD : dx + dy - 1 <= D).
      { assert (H2 : 2 ^ (dx - 1 + (dy - 1)) < 2 ^ D).
        { rewrite Z.pow_add_r by lia.
          eapply Z.le_lt_trans; [|exact Hxy].
          apply Z.mul_le_mono_nonneg; try lia;
            apply Z.pow_nonneg; lia. }
        apply Z.pow_lt_mono_r_iff in H2; lia. }
      unfold fexp, SpecFloat.emin, prec, emax in *. lia.
Qed.

Lemma SFadd_val (x y : spec_float) :
  valid_binary x = true -> valid_binary y = true ->
  sfinite x -> sfinite y ->
  SFadd prec emax x y <> S754_nan
  /\ sval (SFadd prec emax x y) = roundZ (sval x + sval y).
Proof.
  intros Vx Vy Fx Fy.
  destruct x as [sx|sx| |sx mx ex]; try contradiction;
    destruct y as [sy|sy| |sy my ey]; try contradiction.
  - split; [destruct sx, sy; discriminate|].
    destruct sx, sy; reflexivity.
  - split; [discriminate|]. cbn [SFadd].
    change (sval (S754_zero sx)) with 0. rewrite Z.add_0_l.
    now rewrite roundZ_sval.
  - split; [discriminate|]. cbn [SFadd].
    change (sval (S754_zero sy)) with 0. rewrite Z.add_0_r.
    now rewrite roundZ_sval.
  - cbn [valid_binary] in *.
    pose proof (bounded_spec _ _ Vx) as [_ [Ex _]].
    pose proof (bounded_spec _ _ Vy) as [_ [Ey _]].
    cbn [SFadd]. set (ez := Z.min ex ey).
    rewrite (@Binary64.shl_align_val mx ex ez),
      (@Binary64.shl_align_val my ey ez)
      by (unfold ez; lia).
    set (M := cond_Zopp sx (Zpos mx * 2 ^ (ex - ez))
              + cond_Zopp sy (Zpos my * 2 ^ (ey - ez))).
    assert (Hsum : sval (S754_finite sx mx ex) + sval (S754_finite sy my ey)
                   = M * 2 ^ (ez - scale)).
    { cbn [sval]. unfold M, pval.
      assert (Hx : 2 ^ (ex - scale) = 2 ^ (ex - ez) * 2 ^ (ez - scale)).
      { rewrite <- Z.pow_add_r
          by (unfold ez, scale, SpecFloat.emin, prec, emax in *; lia).
        f_equal. lia. }
      assert (Hy : 2 ^ (ey - scale) = 2 ^ (ey - ez) * 2 ^ (ez - scale)).
      { rewrite <- Z.pow_add_r
          by (unfold ez, scale, SpecFloat.emin, prec, emax in *; lia).
        f_equal. lia. }
      rewrite Hx, Hy. destruct sx, sy; cbn [cond_Zopp]; ring. }
    rewrite Hsum.
    assert (Hez : emin <= ez) by (unfold ez; lia).
    destruct M as [|q|q]; cbn [binary_normalize].
    + split; [discriminate|]. reflexivity.
    + fold (pval q ez).
      assert (Hpos : 0 < pval q ez).
      { unfold pval. apply Z.mul_pos_pos; [lia|].
        apply Z.pow_pos_nonneg; [lia|].
        unfold scale, SpecFloat.emin, prec, emax in *. lia. }
      rewrite roundZ_pos by exact Hpos.
      apply (binary_round_val false q Hez).
    + replace (Zneg q * 2 ^ (ez - scale)) with (- pval q ez)
        by (unfold pval; lia).
      assert (Hpos : 0 < pval q ez).
      { unfold pval. apply Z.mul_pos_pos; [lia|].
        apply Z.pow_pos_nonneg; [lia|].
        unfold scale, SpecFloat.emin, prec, emax in *. lia. }
      rewrite roundZ_neg by exact Hpos.
      apply (binary_round_val true q Hez).
Qed.


Lemma SFsub_val (x y : spec_float) :
  valid_binary x = true -> valid_binary y = true ->
  sfinite x -> sfinite y ->
  SFsub prec emax x y <> S754_nan
  /\ sval (SFsub prec emax x y) = roundZ (sval x - sval y).
Proof.
  intros Vx Vy Fx Fy.
  destruct x as [sx|sx| |sx mx ex]; try contradiction;
    destruct y as [sy|sy| |sy my ey]; try contradiction.
  - split; [destruct sx, sy; discriminate|].
    destruct sx, sy; reflexivity.
  - split; [discriminate|]. cbn [SFsub].
    change (sval (S754_zero sx)) with 0. rewrite Z.sub_0_l.
    assert (E : - sval (S754_finite sy my ey)
                = sval (S754_finite (negb sy) my ey))
      by (cbn [sval]; destruct sy; cbn [negb cond_Zopp]; lia).
    rewrite E. now rewrite roundZ_sval.
  - split; [discriminate|]. cbn [SFsub].
    change (sval (S754_zero sy)) with 0. rewrite Z.sub_0_r.
    now rewrite roundZ_sval.
  - cbn [valid_binary] in *.
    pose proof (bounded_spec _ _ Vx) as [_ [Ex _]].
    pose proof (bounded_spec _ _ Vy) as [_ [Ey _]].
    cbn [SFsub]. set (ez := Z.min ex ey).
    rewrite (@Binary64.shl_align_val mx ex ez),
      (@Binary64.shl_align_val my ey ez)
      by (unfold ez; lia).
    set (M := cond_Zopp sx (Zpos mx * 2 ^ (ex - ez))
              - cond_Zopp sy (Zpos my * 2 ^ (ey - ez))).
    assert (Hsum : sval (S754_finite sx mx ex) - sval (S754_finite sy my ey)
                   = M * 2 ^ (ez - scale)).
    { cbn [sval]. unfold M, pval.
      assert (Hx : 2 ^ (ex - scale) = 2 ^ (ex - ez) * 2 ^ (ez - scale)).
      { rewrite <- Z.pow_add_r
          by (unfold ez, scale, SpecFloat.emin, prec, emax in *; lia).
        f_equal. lia. }
      assert (Hy : 2 ^ (ey - scale) = 2 ^ (ey - ez) * 2 ^ (ez - scale)).
      { rewrite <- Z.pow_add_r
          by (unfold ez, scale, SpecFloat.emin, prec, emax in *; lia).
        f_equal. lia. }
      rewrite Hx, Hy. destruct sx, sy; cbn [cond_Zopp]; ring. }
    rewrite Hsum.
    assert (Hez : emin <= ez) by (unfold ez; lia).
    destruct M as [|q|q]; cbn [binary_normalize].
    + split; [discriminate|]. reflexivity.
    + fold (pval q ez).
      assert (Hpos : 0 < pval q ez).
      { unfold pval. apply Z.mul_pos_pos; [lia|].
        apply Z.pow_pos_nonneg; [lia|].
        unfold scale, SpecFloat.emin, prec, emax in *. lia. }
      rewrite roundZ_pos by exact Hpos.
      apply (binary_round_val false q Hez).
    + replace (Zneg q * 2 ^ (ez - scale)) with (- pval q ez)
        by (unfold pval; lia).
      assert (Hpos : 0 < pval q ez).
      { unfold pval. apply Z.mul_pos_pos; [lia|].
        apply Z.pow_pos_nonneg; [lia|].
        unfold scale, SpecFloat.emin, prec, emax in *. lia. }
      rewrite roundZ_neg by exact Hpos.
      apply (binary_round_val true q Hez).
Qed.

(** *** Two divided by a number from two on *)

Lemma new_location_0 (nb : Z) : new_location nb 0 = loc_Exact.
Proof.
  unfold new_location, new_location_even, new_location_odd.
  now destruct (Z.even nb).
Qed.

Lemma SFdiv_two (my : positive) (ey : Z) :
  bounded prec emax my ey = true ->
  2 * 2 ^ (- scale) <= pval my ey ->
  SFdiv prec emax (S754_finite false 4503599627370496 (-51))
        (S754_finite false my ey) <> S754_nan
  /\ 0 <= sval (SFdiv prec emax (S754_finite false 4503599627370496 (-51))
                      (S754_finite false my ey))
     <= 2 ^ (- scale).
Proof.
  intros Vy Hy.
  pose proof (bounded_spec _ _ Vy) as [Cy [Ey [My Ny]]].
  assert (Hey : -51 <= ey).
  { destruct (Z_le_gt_dec (-51) ey) as [H|H]; [exact H|]. exfalso.
    unfold pval in Hy.
    assert (Hs : 0 <= ey - scale)
      by (unfold scale, SpecFloat.emin, prec, emax in *; lia).
    assert (Hp : 2 ^ (ey - scale) <= 2 ^ (-52 - scale))
      by (apply Z.pow_le_mono_r; unfold scale; lia).
    assert (Hq : 2 ^ 53 * 2 ^ (-52 - scale) = 2 * 2 ^ (- scale))
      by reflexivity.
    assert (0 < 2 ^ (ey - scale)) by (apply Z.pow_pos_nonneg; lia).
    nia. }
  specialize (Ny ltac:(unfold SpecFloat.emin, prec, emax; lia)).
  pose proof (Binary64.digits2_pos_bounds my) as [Dlo Dhi].
  assert (Hd : Zpos (digits2_pos my) = 53).
  { assert (H1 : 2 ^ (Zpos (digits2_pos my) - 1) < 2 ^ 53) by lia.
    assert (H2 : 2 ^ 52 < 2 ^ Zpos (digits2_pos my)) by lia.
    apply Z.pow_lt_mono_r_iff in H1; try lia.
    apply Z.pow_lt_mono_r_iff in H2; lia. }
  unfold SFdiv, SFdiv_core_binary. cbn [xorb].
  simpl Zdigits2. rewrite Hd.
  change (Zpos (digits2_pos 4503599627370496)) with 53.
  set (e' := Z.min (fexp prec emax (53 + -51 - (53 + ey))) (-51 - ey)).
  assert (He' : e' = Z.max (-104 - ey) (-1074))
    by (unfold e', fexp, SpecFloat.emin, prec, emax; lia).
  set (sh := -51 - ey - e').
  assert (Hsh : 52 <= sh <= 53) by (unfold sh; lia).
  destruct sh as [|shp|shp] eqn:Esh; try lia.
  rewrite Z.shiftl_mul_pow2 by lia. rewrite <- Esh.
  set (m' := Zpos 4503599627370496 * 2 ^ sh).
  assert (Hm' : m' = 2 ^ (52 + sh)).
  { unfold m'. change (Zpos 4503599627370496) with (2 ^ 52).
    rewrite <- Z.pow_add_r by lia. reflexivity. }
  pose proof (Z.div_mod m' (Zpos my) ltac:(lia)) as Hdm.
  pose proof (Z.mod_pos_bound m' (Zpos my) ltac:(lia)) as Hr.
  unfold Z.div, Z.modulo in Hdm, Hr.
  destruct (Z.div_eucl m' (Zpos my)) as [q r]. cbn [fst snd] in Hdm, Hr.
  set (U := 2 ^ (- e')).
  assert (HU : 0 < U) by (apply Z.pow_pos_nonneg; lia).
  assert (Hpow : 0 < 2 ^ (ey + 51)) by (apply Z.pow_pos_nonneg; lia).
  assert (Hbig : m' <= Zpos my * U).
  { (* from [2 <= y] *)
    assert (H1 : 2 ^ 52 <= Zpos my * 2 ^ (ey + 51)).
    { unfold pval in Hy.
      assert (Es : 2 ^ (ey - scale)
                   = 2 ^ (ey + 51) * 2 ^ (- 51 - scale)).
      { rewrite <- Z.pow_add_r by (unfold scale; lia). f_equal. lia. }
      assert (Et : 2 * 2 ^ (- scale) = 2 ^ 52 * 2 ^ (- 51 - scale))
        by reflexivity.
      rewrite Es, Et in Hy.
      assert (0 < 2 ^ (- 51 - scale)) by reflexivity.
      nia. }
    assert (H2 : m' * 2 ^ (ey + 51) = 2 ^ 52 * U).
    { rewrite Hm'. unfold U. rewrite <- !Z.pow_add_r by lia.
      f_equal. unfold sh. lia. }
    nia. }
  assert (Hq : 2 ^ (sh - 1) <= q <= U).
  { split.
    - assert (H1 : 2 ^ (sh - 1) * 2 ^ 53 = m').
      { rewrite Hm', <- Z.pow_add_r by lia. f_equal. lia. }
      assert (0 < 2 ^ (sh - 1)) by (apply Z.pow_pos_nonneg; lia).
      nia.
    - nia. }
  assert (Hq0 : 0 < q).
  { assert (0 < 2 ^ (sh - 1)) by (apply Z.pow_pos_nonneg; lia). lia. }
  destruct q as [|qp|qp]; try lia.
  assert (Hfit : e' <= fexp prec emax (Zpos (digits2_pos qp) + e')).
  { unfold fexp, SpecFloat.emin, prec, emax.
    destruct (Z.eq_dec sh 53) as [E53|E53].
    - assert (H52 : 2 ^ 52 <= Zpos qp) by (rewrite E53 in Hq; apply Hq).
      pose proof (Binary64.digits2_pos_bounds qp) as [_ Qhi].
      assert (H3 : 2 ^ 52 < 2 ^ Zpos (digits2_pos qp)) by lia.
      apply Z.pow_lt_mono_r_iff in H3; lia.
    - unfold sh in *. lia. }
  destruct (@binary_round_aux_loc false qp e' (new_location (Zpos my) r)
              ltac:(unfold scale; lia) Hfit) as [Hnan Hval].
  split; [exact Hnan|]. rewrite Hval. cbn [cond_Zopp].
  pose proof (locCode_range (new_location (Zpos my) r)) as Hc.
  set (T := 4 * Zpos qp + locCode (new_location (Zpos my) r)) in *.
  split.
  - apply roundPos_nonneg. apply Z.mul_nonneg_nonneg; [lia|].
    apply Z.pow_nonneg. lia.
  - assert (HT : T <= 4 * U).
    { destruct (Z.eq_dec (Zpos qp) U) as [Eq|Ne]; [|lia].
      assert (r = 0) by nia. subst r.
      unfold T. rewrite new_location_0. cbn [locCode]. lia. }
    assert (Hone : roundPos (2 ^ (- scale)) = 2 ^ (- scale)).
    { change (2 ^ (- scale)) with (pval 4503599627370496 (-52)).
      now apply roundPos_bounded. }
    apply Z.le_trans with (roundPos (2 ^ (- scale)));
      [|rewrite Hone; lia].
    apply roundPos_mono.
    + apply Z.mul_pos_pos; [lia|]. apply Z.pow_pos_nonneg; [lia|].
      unfold scale. lia.
    + apply Z.le_trans with (4 * U * 2 ^ (e' - scale - 2)).
      * apply Z.mul_le_mono_nonneg_r; [|exact HT].
        apply Z.pow_nonneg. lia.
      * unfold U. change 4 with (2 ^ 2).
        rewrite <- !Z.pow_add_r by (unfold scale; lia).
        apply Z.pow_le_mono_r; lia.
Qed.

(** *** Numbers *)

Lemma fval_mul (a c : number) :
  finite a -> finite c ->
  defined (a * c)%float
  /\ fval (a * c)%float = roundZ (fval a * fval c / 2 ^ (- scale)).
Proof.
  intros Fa Fc. unfold defined, fval. rewrite FloatAxioms.mul_spec.
  apply SFmul_val; auto using Prim2SF_valid.
Qed.

Lemma fval_add (a b : number) :
  finite a -> finite b ->
  defined (a + b)%float
  /\ fval (a + b)%float = roundZ (fval a + fval b).
Proof.
  intros Fa Fb. unfold defined, fval. rewrite FloatAxioms.add_spec.
  apply SFadd_val; auto using Prim2SF_valid.
Qed.

Lemma leb_fval (a b : number) :
  defined a -> defined b -> (a <=? b)%float = (fval a <=? fval b).
Proof.
  intros Da Db. rewrite FloatAxioms.leb_spec. unfold SFleb, fval.
  rewrite SFcompare_val by auto using Prim2SF_valid.
  unfold Z.leb. now destruct (sval (Prim2SF a) ?= sval (Prim2SF b)).
Qed.

Lemma leb_true_fval (a b : number) :
  (a <=? b)%float = true -> defined a /\ defined b /\ fval a <= fval b.
Proof.
  intros H.
  assert (Da : defined a).
  { intros E. rewrite FloatAxioms.leb_spec, E in H. discriminate. }
  assert (Db : defined b).
  { intros E. rewrite FloatAxioms.leb_spec, E in H.
    destruct (Prim2SF a); discriminate. }
  rewrite (leb_fval Da Db) in H. apply Z.leb_le in H. auto.
Qed.

Lemma finite_iff (a : number) :
  finite a <-> defined a /\ - topValue < fval a < topValue.
Proof.
  unfold finite, defined, fval. pose proof (Prim2SF_valid a) as V.
  assert (Htop : 0 < topValue) by reflexivity.
  destruct (Prim2SF a) as [s|s| |s m e]; cbn [sfinite sval valid_binary] in *.
  - split; [intros _; split; [discriminate|lia] | auto].
  - split; [contradiction|]. intros [_ H].
    destruct s; cbn [cond_Zopp] in H; lia.
  - split; [contradiction|]. intros [H _]. congruence.
  - pose proof (pval_bounds _ _ V) as [B1 B2].
    split; [intros _; split; [discriminate|] | auto].
    destruct s; cbn [cond_Zopp]; lia.
Qed.

Lemma is_finite_spec (a : number) : is_finite a = true -> finite a.
Proof.
  unfold is_finite, is_nan, is_infinity, finite.
  rewrite !FloatAxioms.eqb_spec, FloatAxioms.abs_spec.
  change (Prim2SF infinity) with (S754_infinity false).
  destruct (Prim2SF a) as [s|[]| |s m e]; simpl; try discriminate; auto.
Qed.

Lemma fval_one : fval 1%float = 2 ^ (- scale).
Proof. reflexivity. Qed.

Lemma fval_zero : fval 0%float = 0.
Proof. reflexivity. Qed.

Lemma unitInterval_spec (k : number) :
  unitInterval k = true -> finite k /\ 0 <= fval k <= 2 ^ (- scale).
Proof.
  unfold unitInterval. intros H. apply andb_true_iff in H.
  destruct H as [H0 H1].
  apply leb_true_fval in H0. destruct H0 as [_ [Dk H0]].
  apply leb_true_fval in H1. destruct H1 as [_ [_ H1]].
  rewrite fval_zero in H0. rewrite fval_one in H1.
  split; [|lia]. apply finite_iff. split; [exact Dk|].
  assert (2 ^ (- scale) < topValue) by reflexivity. lia.
Qed.


Lemma fval_sub (a b : number) :
  finite a -> finite b ->
  defined (a - b)%float
  /\ fval (a - b)%float = roundZ (fval a - fval b).
Proof.
  intros Fa Fb. unfold defined, fval. rewrite FloatAxioms.sub_spec.
  apply SFsub_val; auto using Prim2SF_valid.
Qed.

Lemma fval_two : fval 2%float = 2 * 2 ^ (- scale).
Proof. reflexivity. Qed.

Lemma unitInterval_intro (k : number) :
  defined k -> 0 <= fval k <= 2 ^ (- scale) -> unitInterval k = true.
Proof.
  intros Dk [K0 K1]. unfold unitInterval.
  assert (D0 : defined 0%float) by discriminate.
  assert (D1 : defined 1%float) by discriminate.
  rewrite (@leb_fval _ _ D0 Dk), (@leb_fval _ _ Dk D1).
  rewrite fval_zero, fval_one. apply andb_true_iff.
  split; now apply Z.leb_le.
Qed.

Lemma fval_top (a : number) :
  defined a -> topValue <= fval a -> Prim2SF a = S754_infinity false.
Proof.
  unfold defined, fval. pose proof (Prim2SF_valid a) as V.
  assert (Htop : 0 < topValue) by reflexivity.
  destruct (Prim2SF a) as [s|[]| |s m e]; cbn [sval valid_binary] in *;
    intros D H; try congruence; cbn [cond_Zopp] in H; try lia.
  pose proof (pval_bounds _ _ V) as [B1 B2].
  destruct s; cbn [cond_Zopp] in H; lia.
Qed.

(** *** The smoothing factor of a span from one on *)

Lemma add_one_from_one (n : number) :
  (1 <=? n)%float = true ->
  defined (n + 1)%float /\ fval 2%float <= fval (n + 1)%float.
Proof.
  intros H. apply leb_true_fval in H. destruct H as [_ [Dn Hn]].
  rewrite fval_one in Hn.
  assert (HP : 0 < 2 ^ (- scale)) by reflexivity.
  assert (Htop : 2 * 2 ^ (- scale) < topValue) by reflexivity.
  destruct (Z_lt_le_dec (fval n) topValue) as [Hlt|Hge].
  - assert (Fn : finite n) by (apply finite_iff; split; [exact Dn|lia]).
    assert (F1 : finite 1%float) by exact I.
    destruct (@fval_add _ _ Fn F1) as [D E]. split; [exact D|].
    rewrite E, fval_one.
    assert (F2 : roundZ (fval 2%float) = fval 2%float)
      by (apply roundZ_sval; [apply Prim2SF_valid | exact I]).
    rewrite <- F2. apply roundZ_mono. rewrite fval_two. lia.
  - pose proof (@fval_top _ Dn Hge) as En.
    unfold defined, fval. rewrite FloatAxioms.add_spec, En.
    change (Prim2SF 1%float)
      with (S754_finite false 4503599627370496 (-52)).
    cbn [SF64add SFadd sval cond_Zopp]. split; [discriminate|].
    fold (fval 2%float). rewrite fval_two. lia.
Qed.

Lemma div_two_unit (d : number) :
  defined d -> fval 2%float <= fval d -> unitInterval (2 / d)%float = true.
Proof.
  intros Dd Hd. rewrite fval_two in Hd.
  assert (HP : 0 < 2 ^ (- scale)) by reflexivity.
  assert (Htop : 0 < topValue) by reflexivity.
  assert (Hres : defined (2 / d)%float
                 /\ 0 <= fval (2 / d)%float <= 2 ^ (- scale)).
  { unfold defined, fval in *. rewrite FloatAxioms.div_spec.
    pose proof (Prim2SF_valid d) as V.
    change (Prim2SF 2%float)
      with (S754_finite false 4503599627370496 (-51)).
    destruct (Prim2SF d) as [s|[]| |[] m e];
      cbn [sval valid_binary cond_Zopp] in *; try congruence; try lia.
    - cbn [SF64div SFdiv xorb sval]. split; [discriminate|lia].
    - pose proof (pval_bounds _ _ V) as [B1 B2]. lia.
    - now apply SFdiv_two. }
  destruct Hres as [D B]. now apply unitInterval_intro.
Qed.

Lemma smoothing_unit (n : number) :
  (1 <=? n)%float = true ->
  unitInterval (smoothing binary64 n) = true
  /\ unitInterval (1 - smoothing binary64 n)%float = true.
Proof.
  intros Hn. unfold smoothing. cbn [divide lit2 plus lit1 binary64].
  destruct (@add_one_from_one _ Hn) as [D H].
  pose proof (@div_two_unit _ D H) as Hk. split; [exact Hk|].
  destruct (@unitInterval_spec _ Hk) as [Fk [K0 K1]].
  assert (F1 : finite 1%float) by exact I.
  destruct (@fval_sub _ _ F1 Fk) as [Ds Es].
  apply unitInterval_intro; [exact Ds|]. rewrite Es, fval_one.
  assert (HP : 0 < 2 ^ (- scale)) by reflexivity.
  assert (R1 : roundZ (2 ^ (- scale)) = 2 ^ (- scale)).
  { rewrite <- fval_one. apply roundZ_sval; [apply Prim2SF_valid|exact I]. }
  assert (A : 0 <= 2 ^ (- scale) - fval (2 / (n + 1))%float) by lia.
  assert (B : 2 ^ (- scale) - fval (2 / (n + 1))%float <= 2 ^ (- scale))
    by lia.
  apply roundZ_mono in A. apply roundZ_mono in B.
  rewrite R1 in B. change (roundZ 0) with 0 in A. lia.
Qed.

(** *** One step of the smoother between two bounds *)

Lemma mul_unit_finite (c k : number) :
  finite c -> unitInterval k = true -> finite (c * k)%float.
Proof.
  intros Fc Hk. destruct (@unitInterval_spec _ Hk) as [Fk [K0 K1]].
  destruct (@fval_mul _ _ Fc Fk) as [D E].
  apply finite_iff. split; [exact D|]. rewrite E.
  pose proof (proj1 (finite_iff c) Fc) as [_ [C0 C1]].
  pose proof (@roundZ_sval _ (Prim2SF_valid c) Fc) as Hid. fold (fval c) in Hid.
  assert (HP : 0 < 2 ^ (- scale)) by reflexivity.
  set (P := 2 ^ (- scale)) in *.
  destruct (Z_le_gt_dec 0 (fval c)) as [Hc|Hc].
  - assert (Q0 : 0 <= fval c * fval k / P)
      by (apply Z.div_pos; [nia|lia]).
    assert (Q1 : fval c * fval k / P <= fval c)
      by (apply Z.div_le_upper_bound; [lia|nia]).
    pose proof (@roundZ_mono _ _ Q0) as R0.
    pose proof (@roundZ_mono _ _ Q1) as R1.
    rewrite Hid in R1. change (roundZ 0) with 0 in R0. lia.
  - assert (Q0 : fval c * fval k / P <= 0)
      by (apply Z.div_le_upper_bound; [lia|nia]).
    assert (Q1 : fval c <= fval c * fval k / P)
      by (apply Z.div_le_lower_bound; [lia|nia]).
    pose proof (@roundZ_mono _ _ Q0) as R0.
    pose proof (@roundZ_mono _ _ Q1) as R1.
    rewrite Hid in R1. change (roundZ 0) with 0 in R0. lia.
Qed.

Lemma mul_unit_mono (c c' k : number) :
  finite c -> finite c' -> unitInterval k = true ->
  fval c <= fval c' -> fval (c * k)%float <= fval (c' * k)%float.
Proof.
  intros Fc Fc' Hk Hle. destruct (@unitInterval_spec _ Hk) as [Fk [K0 K1]].
  destruct (@fval_mul _ _ Fc Fk) as [_ ->].
  destruct (@fval_mul _ _ Fc' Fk) as [_ ->].
  apply roundZ_mono, Z.div_le_mono; [reflexivity|nia].
Qed.

Lemma emaStep_mono (k c prev c' prev' : number) :
  unitInterval k = true -> unitInterval (1 - k)%float = true ->
  finite c -> finite prev -> finite c' -> finite prev' ->
  fval c <= fval c' -> fval prev <= fval prev' ->
  defined (emaStep binary64 k c prev)
  /\ fval (emaStep binary64 k c prev)
     <= fval (emaStep binary64 k c' prev').
Proof.
  intros Hk Hk' Fc Fp Fc' Fp' Hc Hp.
  unfold emaStep. cbn [plus times minus lit1 binary64].
  pose proof (@mul_unit_finite _ _ Fc Hk) as F1.
  pose proof (@mul_unit_finite _ _ Fp Hk') as F2.
  pose proof (@mul_unit_finite _ _ Fc' Hk) as F1'.
  pose proof (@mul_unit_finite _ _ Fp' Hk') as F2'.
  destruct (@fval_add _ _ F1 F2) as [D ->].
  destruct (@fval_add _ _ F1' F2') as [_ ->].
  split; [exact D|].
  apply roundZ_mono.
  pose proof (@mul_unit_mono _ _ _ Fc Fc' Hk Hc).
  pose proof (@mul_unit_mono _ _ _ Fp Fp' Hk' Hp). lia.
Qed.

Lemma within_fval (lo hi x : number) :
  finite lo -> finite hi ->
  within lo hi x = true <-> finite x /\ fval lo <= fval x <= fval hi.
Proof.
  intros Flo Fhi.
  pose proof (proj1 (finite_iff lo) Flo) as [Dlo [L0 L1]].
  pose proof (proj1 (finite_iff hi) Fhi) as [Dhi [H0 H1]].
  unfold within. rewrite andb_true_iff. split.
  - intros [A B]. apply leb_true_fval in A. apply leb_true_fval in B.
    destruct A as [_ [Dx A]]. destruct B as [_ [_ B]].
    split; [|lia]. apply finite_iff. split; [exact Dx|lia].
  - intros [Fx [A B]].
    pose proof (proj1 (finite_iff x) Fx) as [Dx _].
    rewrite (@leb_fval _ _ Dlo Dx), (@leb_fval _ _ Dx Dhi).
    split; now apply Z.leb_le.
Qed.

Section StableBounds.
Variables k lo hi : number.
Hypothesis Hk : unitInterval k = true.
Hypothesis Hk' : unitInterval (1 - k)%float = true.
Hypothesis Flo : finite lo.
Hypothesis Fhi : finite hi.
Hypothesis Hlo : (lo <=? emaStep binary64 k lo lo)%float = true.
Hypothesis Hhi : (emaStep binary64 k hi hi <=? hi)%float = true.

Lemma emaStep_within (c prev : number) :
  within lo hi c = true -> within lo hi prev = true ->
  within lo hi (emaStep binary64 k c prev) = true.
Proof.
  intros Hc Hp.
  apply (@within_fval lo hi c Flo Fhi) in Hc. destruct Hc as [Fc [C0 C1]].
  apply (@within_fval lo hi prev Flo Fhi) in Hp. destruct Hp as [Fp [P0 P1]].
  apply leb_true_fval in Hlo. destruct Hlo as [_ [_ L]].
  apply leb_true_fval in Hhi. destruct Hhi as [_ [_ H]].
  destruct (@emaStep_mono _ _ _ _ _ Hk Hk' Flo Flo Fc Fp C0 P0) as [_ M0].
  destruct (@emaStep_mono _ _ _ _ _ Hk Hk' Fc Fp Fhi Fhi C1 P1) as [D M1].
  pose proof (proj1 (finite_iff lo) Flo) as [_ [L0 L1]].
  pose proof (proj1 (finite_iff hi) Fhi) as [_ [H0 H1]].
  apply (@within_fval lo hi _ Flo Fhi). split; [|lia].
  apply finite_iff. split; [exact D|lia].
Qed.

Lemma emaLoop_within (closes : list number) :
  forall (prev : number) (i : nat),
    within lo hi prev = true ->
    (i < length closes)%nat ->
    Forall (fun c => within lo hi c = true) (firstn (S i) closes) ->
    within lo hi (nth i (emaLoop binary64 k prev closes) nan) = true.
Proof.
  induction closes as [|c rest IH]; intros prev i Hp Hi Hall;
    [simpl in Hi; lia|].
  cbn [firstn] in Hall. inversion Hall as [|? ? Hc Hrest]; subst.
  pose proof (@emaStep_within _ _ Hc Hp) as He.
  destruct i as [|j]; cbn [emaLoop nth]; [exact He|].
  apply IH; [exact He | simpl in Hi; lia | exact Hrest].
Qed.
End StableBounds.

End Rounding.

(** ** BigMoveDetector: recorded moves and their ranking *)

Lemma bigMoveAt_recorded (points : list IntradayPoint) (i : nat) (m : Move.t) :
  BIG_MOVE_LOOKBACK <= i < length points ->
  In m (bigMoveAt points i) -> Move.index m = i /\ recordedMove points m.
Proof.
  intros Hi. unfold bigMoveAt.
  destruct (BIG_MOVE_THRESHOLD <=? _)%float eqn:Hthr; simpl; [|tauto].
  intros [<-|[]]. unfold recordedMove; simpl.
  repeat split; try reflexivity; try assumption; lia.
Qed.

Lemma candidateMoves_recorded (points : list IntradayPoint) :
  Forall (recordedMove points) (candidateMoves points).
Proof.
  apply Forall_forall. intros m Hm. unfold candidateMoves in Hm.
  apply in_flat_map in Hm. destruct Hm as [i [Hi Hm]].
  apply in_seq in Hi. apply bigMoveAt_recorded in Hm; [tauto|].
  unfold BIG_MOVE_LOOKBACK in *. lia.
Qed.

Lemma topMoves_candidates (points : list IntradayPoint) (m : Move.t) :
  In m (topMoves points) -> In m (candidateMoves points).
Proof.
  unfold topMoves. intros H. apply slice_incl in H. now apply sort_In in H.
Qed.

Lemma topMoves_recorded (points : list IntradayPoint) :
  Forall (recordedMove points) (topMoves points).
Proof.
  apply Forall_forall. intros m Hm. apply topMoves_candidates in Hm.
  revert m Hm. apply Forall_forall, candidateMoves_recorded.
Qed.

Lemma topMoves_length (points : list IntradayPoint) :
  length (topMoves points) <= 4.
Proof. apply slice_from_0_length. Qed.

Lemma clearsThreshold_positive (m : Move.t) :
  clearsThreshold m -> (0 <? magnitude m)%float = true.
Proof.
  intros H. apply Binary64.ltb_leb_trans with (b := BIG_MOVE_THRESHOLD);
    [reflexivity | exact H].
Qed.

Lemma clearsThreshold_defined (m : Move.t) :
  clearsThreshold m -> defined (magnitude m).
Proof. intros H. now apply Binary64.leb_defined in H. Qed.

(** The sort's comparator is positive exactly when [b] has the larger
    magnitude. *)
Lemma compareMoves_sign (a b : Move.t) :
  clearsThreshold a -> clearsThreshold b ->
  (0 <? compareMoves a b)%float = (magnitude a <? magnitude b)%float.
Proof.
  intros Ha Hb. unfold compareMoves.
  apply Binary64.sub_sign; now apply clearsThreshold_positive.
Qed.

Lemma rankedBefore_leb (a b : Move.t) :
  rankedBefore a b -> (magnitude b <=? magnitude a)%float = true.
Proof.
  intros [H|[H _]]; [now apply Binary64.ltb_leb|].
  now apply Binary64.eqb_leb, Binary64.eqb_sym.
Qed.

Lemma insert_ranked (x : Move.t) (s : list Move.t) :
  clearsThreshold x -> Forall clearsThreshold s ->
  Forall (fun y => Move.index x < Move.index y) s ->
  StronglySorted rankedBefore s ->
  StronglySorted rankedBefore (insert compareMoves x s).
Proof.
  intros Hx. induction s as [|y s IH]; intros Hthr Hidx Hs; simpl.
  - repeat constructor.
  - inversion Hthr as [|? ? Hy Hthr']; subst.
    inversion Hidx as [|? ? Hxy Hidx']; subst.
    inversion Hs as [|? ? Hs' Hys]; subst.
    rewrite compareMoves_sign by assumption.
    destruct (magnitude x <? magnitude y)%float eqn:Hlt.
    + constructor; [now apply IH|].
      eapply Permutation_Forall; [apply insert_perm|].
      constructor; [now left | exact Hys].
    + assert (Hyx : (magnitude y <=? magnitude x)%float = true).
      { apply Binary64.not_ltb_leb; auto using clearsThreshold_defined. }
      constructor; [exact Hs|].
      assert (Hall : Forall (fun z => (magnitude z <=? magnitude x)%float
                                      = true) (y :: s)).
      { constructor; [exact Hyx|]. eapply Forall_impl; [|exact Hys].
        intros z Hz. eapply Binary64.leb_trans; [|exact Hyx].
        now apply rankedBefore_leb. }
      apply Forall_forall. intros z Hz.
      assert (Hzx := proj1 (Forall_forall _ _) Hall z Hz).
      assert (Hxz := proj1 (Forall_forall _ _) Hidx z Hz).
      apply Binary64.leb_cases in Hzx. destruct Hzx as [Hzx|Hzx].
      * now left.
      * right. split; [now apply Binary64.eqb_sym | exact Hxz].
Qed.

Lemma sort_ranked (l : list Move.t) :
  Forall clearsThreshold l ->
  StronglySorted (fun a b => Move.index a < Move.index b) l ->
  StronglySorted rankedBefore (sort compareMoves l).
Proof.
  induction l as [|x l IH]; intros Hthr Hs; simpl; [constructor|].
  inversion Hthr; subst. inversion Hs; subst.
  apply insert_ranked; auto.
  - eapply Permutation_Forall; [apply sort_perm|]. assumption.
  - eapply Permutation_Forall; [apply sort_perm|]. assumption.
Qed.

Lemma bigMoveAt_one (points : list IntradayPoint) (i : nat) :
  length (bigMoveAt points i) <= 1.
Proof. unfold bigMoveAt. destruct (_ <=? _)%float; simpl; lia. Qed.

Lemma bigMoveAt_index (points : list IntradayPoint) (i : nat) (m : Move.t) :
  In m (bigMoveAt points i) -> Move.index m = i.
Proof.
  unfold bigMoveAt. destruct (_ <=? _)%float; simpl; [|tauto].
  now intros [<-|[]].
Qed.

Lemma candidateMoves_in_scan_order (points : list IntradayPoint) :
  StronglySorted (fun a b => Move.index a < Move.index b)
                 (candidateMoves points).
Proof.
  unfold candidateMoves.
  apply scan_sorted with (key := Move.index);
    [apply bigMoveAt_index | apply bigMoveAt_one].
Qed.

(** The ranking is asymmetric, so a list has at most one ranked
    arrangement: whichever stable sort the host runs, it returns the list
    that [sort compareMoves] computes. *)
Lemma rankedBefore_asym (a b : Move.t) :
  rankedBefore a b -> rankedBefore b a -> False.
Proof.
  intros [Hab|[Hab Hi]] [Hba|[Hba Hj]].
  - rewrite (Binary64.ltb_not_ltb Hab) in Hba. discriminate.
  - apply Binary64.eqb_sym, Binary64.eqb_leb in Hba.
    rewrite (Binary64.ltb_not_leb Hab) in Hba. discriminate.
  - apply Binary64.eqb_sym, Binary64.eqb_leb in Hab.
    rewrite (Binary64.ltb_not_leb Hba) in Hab. discriminate.
  - lia.
Qed.

Lemma ranking_unique (l1 : list Move.t) :
  forall l2, Permutation l1 l2 ->
             StronglySorted rankedBefore l1 ->
             StronglySorted rankedBefore l2 -> l1 = l2.
Proof.
  induction l1 as [|x l1 IH]; intros l2 Hperm H1 H2.
  - now apply Permutation_nil in Hperm.
  - destruct l2 as [|y l2];
      [now apply Permutation_sym, Permutation_nil in Hperm|].
    inversion H1 as [|? ? H1' Hx]; subst.
    inversion H2 as [|? ? H2' Hy]; subst.
    assert (Hxy : x = y).
    { assert (Hin : In x (y :: l2))
        by (eapply Permutation_in; [exact Hperm | now left]).
      assert (Hin' : In y (x :: l1))
        by (eapply Permutation_in;
            [apply Permutation_sym; exact Hperm | now left]).
      destruct Hin as [Heq|Hin]; [now symmetry|].
      destruct Hin' as [Heq|Hin']; [exact Heq|].
      exfalso. apply (@rankedBefore_asym x y).
      - now apply (proj1 (Forall_forall _ _) Hx).
      - now apply (proj1 (Forall_forall _ _) Hy). }
    subst y. f_equal. apply IH; auto.
    now apply Permutation_cons_inv with (a := x).
Qed.

Lemma sort_is_the_ranking (points : list IntradayPoint) (l : list Move.t) :
  Permutation (candidateMoves points) l ->
  StronglySorted rankedBefore l ->
  l = sort compareMoves (candidateMoves points).
Proof.
  intros Hperm Hl. apply ranking_unique; [|exact Hl|].
  - rewrite <- Hperm. apply sort_perm.
  - apply sort_ranked; [|apply candidateMoves_in_scan_order].
    eapply Forall_impl; [|apply candidateMoves_recorded].
    intros m Hm. apply Hm.
Qed.

Lemma topMoves_ranked (points : list IntradayPoint) :
  StronglySorted rankedBefore (topMoves points).
Proof.
  unfold topMoves. rewrite slice_from_0.
  apply StronglySorted_firstn, sort_ranked.
  - eapply Forall_impl; [|apply candidateMoves_recorded].
    intros m Hm. apply Hm.
  - apply candidateMoves_in_scan_order.
Qed.

(** ** TrendShiftDetector: what the scan pushes *)

Lemma trendShiftAt_one (points : list IntradayPoint)
      (ema9 ema21 : list number) (i : nat) :
  length (trendShiftAt points ema9 ema21 i) <= 1.
Proof.
  unfold trendShiftAt.
  destruct (_ && _); [simpl; lia|]. destruct (_ && _); simpl; lia.
Qed.

Lemma trendShiftAt_cases (points : list IntradayPoint)
      (ema9 ema21 : list number) (i : nat) (ins : PatternInsight) :
  In ins (trendShiftAt points ema9 ema21 i) ->
  ins = bullishCross points i \/ ins = bearishCross points i.
Proof.
  unfold trendShiftAt.
  destruct (_ && _); [simpl; intuition|].
  destruct (_ && _); simpl; intuition.
Qed.

Lemma trendTransitions_In (points : list IntradayPoint)
      (ema9 ema21 : list number) (ins : PatternInsight) :
  In ins (trendTransitions points ema9 ema21)
  <-> exists i, 1 <= i < length points
                /\ In ins (trendShiftAt points ema9 ema21 i).
Proof.
  unfold trendTransitions. rewrite in_flat_map.
  split; intros [i [Hi Hin]]; exists i; split; auto;
    [apply in_seq in Hi | apply in_seq]; lia.
Qed.

(** ** CompressionBreakoutDetector: the scan for the tightest window *)

Lemma compressionStep_keeps (points : list IntradayPoint) (k : nat)
      (st : number * nat) :
  tightestSoFar points k st ->
  tightestSoFar points (S k) (compressionStep points st (10 + k)).
Proof.
  intros [Hmin Hfirst]. unfold compressionStep.
  destruct (windowRange points (10 + k) <? fst st)%float eqn:Hlt.
  - split; cbn [fst snd].
    + intros i Hi. apply not_true_is_false. intros Hi'.
      assert (Hir : (windowRange points i <? fst st)%float = true)
        by (eapply Binary64.ltb_trans; eauto).
      destruct (Nat.eq_dec i (10 + k)) as [->|Hne].
      * pose proof (Binary64.ltb_not_ltb Hi') as Hc. congruence.
      * rewrite Hmin in Hir by lia. discriminate.
    + right. split; [lia|]. split; [reflexivity|].
      intros i Hi. apply not_true_is_false. intros Hi'.
      assert (Hir : (windowRange points i <? fst st)%float = true)
        by (eapply Binary64.leb_ltb_trans; eauto).
      rewrite Hmin in Hir by lia. discriminate.
  - split.
    + intros i Hi. destruct (Nat.eq_dec i (10 + k)) as [->|Hne];
        [exact Hlt | apply Hmin; lia].
    + destruct Hfirst as [H0|[Hj H]]; [now left | right].
      split; [lia | exact H].
Qed.

Lemma scan_tightestSoFar (points : list IntradayPoint) (k : nat) :
  tightestSoFar points k
    (fold_left (compressionStep points) (seq 10 k) (infinity, 0)).
Proof.
  induction k as [|k IH].
  - split; simpl; [intros i Hi; lia | now left].
  - rewrite seq_S, fold_left_app. simpl.
    now apply compressionStep_keeps.
Qed.

(** ** Orchestrator: the fields of the full run *)

Lemma analyze_signals (points : list IntradayPoint) :
  signals (analyzeIntradayData points)
  = map (bigMoveSignal points) (topMoves points).
Proof. destruct points; reflexivity. Qed.

Lemma analyze_insights (points : list IntradayPoint) :
  insights (analyzeIntradayData points)
  = slice 0 6 (fst (detectBigMoves points)
               ++ detectTrendShifts points (calculateEMA points 9%float)
                                    (calculateEMA points 21%float)
               ++ detectCompressionBreakout points).
Proof. destruct points; reflexivity. Qed.

(** ** Inputs with the same closes *)

Lemma bigMoveAt_closes (points points' : list IntradayPoint) (i : nat) :
  map close points = map close points' ->
  bigMoveAt points i = bigMoveAt points' i.
Proof. intros H. unfold bigMoveAt. now rewrite !close_at, H. Qed.

Lemma topMoves_closes (points points' : list IntradayPoint) :
  map close points = map close points' ->
  topMoves points = topMoves points'.
Proof.
  intros H. unfold topMoves, candidateMoves.
  rewrite <- (length_map close points), H, length_map.
  f_equal. f_equal. apply flat_map_ext. intros i.
  now apply bigMoveAt_closes.
Qed.

Lemma bigMoveInsight_is_big (points : list IntradayPoint) (i : nat)
      (m : Move.t) :
  isBigMoveInsight (bigMoveInsight points i m) = true.
Proof.
  unfold isBigMoveInsight. cbn.
  now destruct (showIndex (Move.index m)).
Qed.

Lemma filter_firstn_none {A} (f : A -> bool) (xs : list A) (n : nat) :
  Forall (fun x => f x = false) xs -> filter f (firstn n xs) = [].
Proof.
  intros H. revert n. induction H as [|x xs Hx _ IH]; intros [|n]; simpl;
    try reflexivity.
  rewrite Hx. apply IH.
Qed.

Lemma trend_not_big_move (points : list IntradayPoint)
      (ema9 ema21 : list number) :
  Forall (fun ins => isBigMoveInsight ins = false)
         (detectTrendShifts points ema9 ema21).
Proof.
  apply Forall_forall. intros ins Hin. unfold detectTrendShifts in Hin.
  apply In_skipn, trendTransitions_In in Hin. destruct Hin as [i [_ Hin]].
  apply trendShiftAt_cases in Hin. now destruct Hin as [-> | ->].
Qed.

Lemma compression_not_big_move (points : list IntradayPoint) :
  Forall (fun ins => isBigMoveInsight ins = false)
         (detectCompressionBreakout points).
Proof.
  unfold detectCompressionBreakout.
  destruct (length points <? 20); [constructor|].
  destruct (tightestWindow points) as [r j].
  destruct (abs _ <? 0.8)%float; repeat constructor.
Qed.

(** ** Constant closes *)

Lemma sub_self_zeroOrNaN (c : number) : zeroOrNaN (c - c)%float.
Proof. destruct (Binary64.sub_self c); [right|left]; eauto. Qed.

Lemma div_zeroOrNaN (x c : number) : zeroOrNaN x -> zeroOrNaN (x / c)%float.
Proof.
  intros H. unfold zeroOrNaN. rewrite div_spec. unfold SF64div, SFdiv.
  destruct H as [-> | [s ->]]; [now left|].
  destruct (Prim2SF c) as [sc|sc| |sc mc ec]; eauto.
Qed.

Lemma Prim2SF_100 : exists m e, Prim2SF 100%float = S754_finite false m e.
Proof. vm_compute. eauto. Qed.

Lemma mul100_zeroOrNaN (x : number) : zeroOrNaN x -> zeroOrNaN (x * 100)%float.
Proof.
  intros H. unfold zeroOrNaN. rewrite mul_spec. unfold SF64mul, SFmul.
  destruct Prim2SF_100 as [m [e ->]].
  destruct H as [-> | [s ->]]; eauto.
Qed.

Lemma pctChange_self (c : number) : zeroOrNaN (pctChange c c).
Proof.
  unfold pctChange.
  apply mul100_zeroOrNaN, div_zeroOrNaN, sub_self_zeroOrNaN.
Qed.

Ltac zeroOrNaN_compare H :=
  rewrite ?FloatAxioms.ltb_spec, ?FloatAxioms.leb_spec, ?abs_spec;
  destruct H as [-> | [[] ->]]; vm_compute; reflexivity.

Lemma zeroOrNaN_below_threshold (x : number) :
  zeroOrNaN x -> (BIG_MOVE_THRESHOLD <=? abs x)%float = false.
Proof. intros H. zeroOrNaN_compare H. Qed.

Lemma zeroOrNaN_balanced (x : number) :
  zeroOrNaN x -> biasOf x = BiasBalanced.
Proof.
  intros H. unfold biasOf.
  assert (H1 : (0.6 <? x)%float = false) by zeroOrNaN_compare H.
  assert (H2 : (x <? -0.6)%float = false) by zeroOrNaN_compare H.
  now rewrite H1, H2.
Qed.

Lemma zeroOrNaN_no_cross (x : number) :
  zeroOrNaN x -> (0 <? x)%float = false /\ (x <? 0)%float = false.
Proof. intros H. split; zeroOrNaN_compare H. Qed.

Lemma flat_map_nil {A B} (f : A -> list B) (xs : list A) :
  (forall x, In x xs -> f x = []) -> flat_map f xs = [].
Proof.
  induction xs as [|x xs IH]; intros H; simpl; [reflexivity|].
  rewrite (H x) by (simpl; auto). simpl. apply IH.
  intros y Hy. apply H. now right.
Qed.

Lemma constant_close_at (c : number) (points : list IntradayPoint) (i : nat) :
  Forall (fun p => close p = c) points -> i < length points ->
  close (at_ points i) = c.
Proof.
  intros H Hi. unfold at_.
  apply (proj1 (Forall_forall _ _) H). now apply nth_In.
Qed.

Lemma constant_closes (c : number) (points : list IntradayPoint) :
  Forall (fun p => close p = c) points ->
  map close points = repeat c (length points).
Proof.
  induction 1 as [|p points Hp _ IH]; simpl; [reflexivity|].
  now rewrite Hp, IH.
Qed.

Lemma num_at_repeat (c : number) (n i : nat) :
  i < n -> num_at (repeat c n) i = c.
Proof.
  intros Hi. unfold num_at. apply nth_error_nth.
  now rewrite nth_error_repeat.
Qed.

Lemma emaLoop_fixed {num} (A : Arith num) (k c : num) (n : nat) :
  emaStep A k c c = c -> emaLoop A k c (repeat c n) = repeat c n.
Proof.
  intros H. induction n as [|n IH]; simpl; [|rewrite H, IH]; reflexivity.
Qed.

Lemma calculateEMA_fixed (c n : number) (points : list IntradayPoint) :
  Forall (fun p => close p = c) points ->
  emaStep binary64 (smoothing binary64 n) c c = c ->
  calculateEMA points n = repeat c (length points).
Proof.
  intros Hc Hfix. unfold calculateEMA. rewrite (constant_closes Hc).
  destruct (length points) as [|m]; simpl; [reflexivity|].
  now rewrite emaLoop_fixed.
Qed.

(** ** Exact arithmetic: the recurrence is a convex combination *)

Lemma exact_smoothing_range (n : Q) :
  (1 <= n)%Q ->
  (0 <= smoothing exactQ n)%Q /\ (smoothing exactQ n <= 1)%Q.
Proof.
  intros H. unfold smoothing; simpl.
  assert (Hp : (0 < n + 1)%Q) by lra.
  split; [apply Qle_shift_div_l | apply Qle_shift_div_r]; lra.
Qed.

Lemma exact_step_bounds (k c prev lo hi : Q) :
  (0 <= k)%Q -> (k <= 1)%Q ->
  (lo <= c)%Q /\ (c <= hi)%Q -> (lo <= prev)%Q /\ (prev <= hi)%Q ->
  (lo <= emaStep exactQ k c prev)%Q /\ (emaStep exactQ k c prev <= hi)%Q.
Proof. unfold emaStep; simpl. intros ? ? [? ?] [? ?]. split; nra. Qed.

(** Without rounding a constant series is a fixed point of the step. *)
Lemma exact_loop_fixed (k c : Q) (n : nat) :
  forall prev, (prev == c)%Q ->
               Forall (fun e => (e == c)%Q)
                      (emaLoop exactQ k prev (repeat c n)).
Proof.
  induction n as [|n IH]; intros prev Hprev; simpl; constructor.
  - unfold emaStep; simpl. rewrite Hprev. ring.
  - apply IH. unfold emaStep; simpl. rewrite Hprev. ring.
Qed.

Lemma exact_series_fixed (span c : Q) (n : nat) :
  Forall (fun e => (e == c)%Q) (emaSeries exactQ (repeat c n) span).
Proof.
  destruct n as [|n]; simpl; constructor; [reflexivity|].
  now apply exact_loop_fixed.
Qed.

Lemma exact_loop_bounds (k lo hi : Q) :
  (0 <= k)%Q -> (k <= 1)%Q ->
  forall rest prev j,
    (lo <= prev)%Q /\ (prev <= hi)%Q ->
    Forall (fun c => (lo <= c)%Q /\ (c <= hi)%Q) (firstn (S j) rest) ->
    j < length rest ->
    (lo <= nth j (emaLoop exactQ k prev rest) 0%Q)%Q
    /\ (nth j (emaLoop exactQ k prev rest) 0%Q <= hi)%Q.
Proof.
  intros Hk0 Hk1. induction rest as [|c rest IH]; intros prev j Hp Hall Hj;
    simpl in Hj; [lia|].
  simpl in Hall. inversion Hall as [|? ? Hc Hrest]; subst.
  pose proof (exact_step_bounds Hk0 Hk1 Hc Hp) as Hstep.
  destruct j as [|j]; simpl; [exact Hstep|].
  apply IH; [exact Hstep | exact Hrest | lia].
Qed.

Lemma listMin_le (xs : list Q) :
  Forall (fun c => (listMin xs <= c)%Q) xs.
Proof.
  destruct xs as [|x rest]; [constructor|]. simpl.
  induction rest as [|y rest IH]; simpl.
  - repeat constructor. apply Qle_refl.
  - inversion IH as [|? ? Hx Hrest]; subst.
    constructor; [|constructor].
    + eapply Qle_trans; [apply Q.le_min_r | exact Hx].
    + apply Q.le_min_l.
    + eapply Forall_impl; [|exact Hrest]. intros c Hc.
      eapply Qle_trans; [apply Q.le_min_r | exact Hc].
Qed.

Lemma listMax_ge (xs : list Q) :
  Forall (fun c => (c <= listMax xs)%Q) xs.
Proof.
  destruct xs as [|x rest]; [constructor|]. simpl.
  induction rest as [|y rest IH]; simpl.
  - repeat constructor. apply Qle_refl.
  - inversion IH as [|? ? Hx Hrest]; subst.
    constructor; [|constructor].
    + eapply Qle_trans; [exact Hx | apply Q.le_max_r].
    + apply Q.le_max_l.
    + eapply Forall_impl; [|exact Hrest]. intros c Hc.
      eapply Qle_trans; [exact Hc | apply Q.le_max_r].
Qed.

(** * Results *)

(** C1, as stated, fails on the scenario: the output does not contain
    exactly one big-move insight.  The move from index 0 (100) to index 3
    (100.7) is +0.70%, which also clears the 0.6% threshold. *)
Lemma scenario_has_a_second_big_move :
  map close scenario = scenarioCloses
  /\ length (filter isBigMoveInsight
                    (insights (analyzeIntradayData scenario))) = 2
  /\ ~ (exists ins,
          filter isBigMoveInsight (insights (analyzeIntradayData scenario))
          = [ins]).
Proof.
  split; [reflexivity|]. split; [vm_compute; reflexivity|].
  intros [ins H]. vm_compute in H. discriminate H.
Qed.

(** C1, amended.  For every input whose closes are
    [100, 100.2, 100.4, 100.7, 100.5, 101.9], the output contains exactly
    two big-move insights, in rank order: bullish, medium confidence,
    [startIndex = 2], [endIndex = 5] (+1.494%); then bullish, low
    confidence, [startIndex = 0], [endIndex = 3] (+0.70%). *)
Theorem scenario_big_moves (points : list IntradayPoint) :
  map close points = scenarioCloses ->
  let big :=
    filter isBigMoveInsight (insights (analyzeIntradayData points)) in
  map insightCore big
  = [(Some Bullish, Medium, Some 2, Some 5);
     (Some Bullish, Low, Some 0, Some 3)]
  /\ map changePct big
     = [Some 1.4940239043824699%float; Some 0.70000000000000284%float].
Proof.
  intros Hcloses big.
  assert (Htop : topMoves points = topMoves scenario)
    by (apply topMoves_closes; now rewrite Hcloses).
  assert (Hbig : forall i m,
             isBigMoveInsight (bigMoveInsight points i m) = true)
    by (intros i m; apply bigMoveInsight_is_big).
  assert (Hrest :
            Forall (fun ins => isBigMoveInsight ins = false)
                   (detectTrendShifts points (calculateEMA points 9%float)
                                      (calculateEMA points 21%float)
                    ++ detectCompressionBreakout points)).
  { apply Forall_app. split;
      [apply trend_not_big_move | apply compression_not_big_move]. }
  unfold big. rewrite analyze_insights, slice_from_0.
  unfold detectBigMoves. cbn [fst]. rewrite Htop.
  set (top := topMoves scenario). vm_compute in top. subst top.
  cbn [mapi mapi_from app].
  match goal with
  | |- context [firstn 6 (?a :: ?b :: ?r)] =>
      change (firstn 6 (a :: b :: r)) with (a :: b :: firstn 4 r)
  end.
  cbn [filter]. rewrite !Hbig, filter_firstn_none by exact Hrest.
  split; reflexivity.
Qed.

(** The scenario's own bars meet the hypothesis of [scenario_big_moves]. *)
Lemma scenario_big_moves_witness :
  map close scenario = scenarioCloses
  /\ map insightCore
         (filter isBigMoveInsight (insights (analyzeIntradayData scenario)))
     = [(Some Bullish, Medium, Some 2, Some 5);
        (Some Bullish, Low, Some 0, Some 3)].
Proof.
  split; [reflexivity|].
  apply (@scenario_big_moves scenario). reflexivity.
Defined.

(** C2. For every sequence of points and every span [n], [calculateEMA]
    returns a series of the same length whose first element is the first
    close and whose element at [i >= 1] is
    [close[i] * k + ema[i-1] * (1 - k)] with [k = 2 / (n + 1)]; on the
    empty sequence it returns the empty series. *)
Theorem calculateEMA_contract (points : list IntradayPoint) (n : number) :
  let ema := calculateEMA points n in
  let k := (2 / (n + 1))%float in
  calculateEMA [] n = []
  /\ length ema = length points
  /\ (forall p rest, points = p :: rest -> nth_error ema 0 = Some (close p))
  /\ (forall i, 1 <= i < length points ->
        num_at ema i
        = (close (at_ points i) * k + num_at ema (i - 1) * (1 - k))%float).
Proof.
  intros ema k. split; [reflexivity|]. split; [apply calculateEMA_length|].
  split.
  - intros p rest ->. reflexivity.
  - intros i [H1 Hi]. destruct i as [|i]; [lia|].
    replace (S i - 1) with i by lia.
    assert (Hlen : length ema = length points) by apply calculateEMA_length.
    apply nth_error_num_at. unfold ema, calculateEMA.
    change (nth_error (emaSeries binary64 (map close points) n) (S i)
            = Some (emaStep binary64 (smoothing binary64 n)
                            (close (at_ points (S i))) (num_at ema i))).
    apply emaSeries_step.
    + apply num_at_nth_error. lia.
    + rewrite close_at. apply num_at_nth_error. rewrite length_map. lia.
Qed.

(** C3. The BigMoveDetector returns at most 4 insights and at most 4
    markers, one of each per selected move.  Every selected move ends at a
    position [i] of the input with [changePct] the percentage change from
    [close[i - 3]] to [close[i]], and [|changePct| >= 0.6].  The selected
    moves are in descending order of [|changePct|]; moves of equal
    magnitude keep the order in which the scan found them. *)
Theorem big_moves_capped_and_ranked (points : list IntradayPoint) :
  let top := topMoves points in
  length (fst (detectBigMoves points)) <= 4
  /\ length (snd (detectBigMoves points)) <= 4
  /\ Forall2 (fun m ins => endIndex ins = Some (Move.index m)
                           /\ changePct ins = Some (Move.changePct m))
             top (fst (detectBigMoves points))
  /\ snd (detectBigMoves points) = map (bigMoveSignal points) top
  /\ Forall
       (fun m =>
          let i := Move.index m in
          3 <= i < length points
          /\ Move.changePct m
             = (((close (at_ points i) - close (at_ points (i - 3)))
                 / close (at_ points (i - 3))) * 100)%float
          /\ (0.6 <=? abs (Move.changePct m))%float = true)
       top
  /\ StronglySorted
       (fun a b =>
          (abs (Move.changePct b) <? abs (Move.changePct a))%float = true
          \/ ((abs (Move.changePct a) =? abs (Move.changePct b))%float = true
              /\ Move.index a < Move.index b))
       top.
Proof.
  intros top. unfold detectBigMoves. simpl fst; simpl snd.
  rewrite mapi_length, length_map.
  pose proof (topMoves_length points) as Hlen.
  repeat split; try assumption.
  - apply mapi_from_Forall2. intros i m. simpl. auto.
  - eapply Forall_impl; [|apply topMoves_recorded].
    intros m [Hi [_ [Hcp [Hthr _]]]]. auto.
  - apply topMoves_ranked.
Qed.

(** C4. Over any two EMA series, the scan of the TrendShiftDetector
    pushes the bullish insight of position [i] exactly when
    [prevDiff <= 0] and [currDiff > 0], and the bearish insight of [i]
    exactly when [prevDiff >= 0] and [currDiff < 0], for [1 <= i < n]
    (a zero [prevDiff] passes both tests).  Every insight pushed has
    confidence medium and spans [i - 1, i]; they come in increasing
    position order, and the detector returns the last 3 of them, in that
    order. *)
Theorem trend_shifts_are_crossovers (points : list IntradayPoint)
        (ema9 ema21 : list number) :
  let prevDiff i := (num_at ema9 (i - 1) - num_at ema21 (i - 1))%float in
  let currDiff i := (num_at ema9 i - num_at ema21 i)%float in
  let found := trendTransitions points ema9 ema21 in
  (forall i,
      In (bullishCross points i) found
      <-> 1 <= i < length points
          /\ (prevDiff i <=? 0)%float = true
          /\ (0 <? currDiff i)%float = true)
  /\ (forall i,
        In (bearishCross points i) found
        <-> 1 <= i < length points
            /\ (0 <=? prevDiff i)%float = true
            /\ (currDiff i <? 0)%float = true)
  /\ Forall
       (fun ins =>
          exists i,
            1 <= i < length points
            /\ (ins = bullishCross points i /\ direction ins = Some Bullish
                \/ ins = bearishCross points i
                   /\ direction ins = Some Bearish)
            /\ confidence ins = Medium
            /\ startIndex ins = Some (i - 1) /\ endIndex ins = Some i)
       found
  /\ StronglySorted
       (fun a b => exists i j, endIndex a = Some i /\ endIndex b = Some j
                               /\ i < j)
       found
  /\ detectTrendShifts points ema9 ema21
     = skipn (length found - 3) found
  /\ length (detectTrendShifts points ema9 ema21) <= 3
  /\ StronglySorted
       (fun a b => exists i j, endIndex a = Some i /\ endIndex b = Some j
                               /\ i < j)
       (detectTrendShifts points ema9 ema21).
Proof.
  intros prevDiff currDiff found.
  assert (Hshape : forall ins,
             In ins found ->
             exists i, 1 <= i < length points
                       /\ In ins (trendShiftAt points ema9 ema21 i))
    by (intros ins; apply trendTransitions_In).
  assert (Hat : forall i,
             trendShiftAt points ema9 ema21 i
             = if (prevDiff i <=? 0)%float && (0 <? currDiff i)%float
               then [bullishCross points i]
               else if (0 <=? prevDiff i)%float && (currDiff i <? 0)%float
                    then [bearishCross points i] else [])
    by reflexivity.
  assert (Hsorted :
            StronglySorted
              (fun a b => exists i j, endIndex a = Some i
                                      /\ endIndex b = Some j /\ i < j)
              found).
  { apply StronglySorted_weaken
      with (R := fun a b => endOf a < endOf b)
           (P := fun ins => exists i, endIndex ins = Some i).
    - intros a b [i Ha] [j Hb] Hlt. unfold endOf in Hlt.
      rewrite Ha, Hb in Hlt. eauto.
    - apply Forall_forall. intros ins Hin.
      destruct (Hshape ins Hin) as [i [_ Hat']].
      apply trendShiftAt_cases in Hat'. destruct Hat' as [-> | ->]; simpl;
        eauto.
    - apply scan_sorted; [|apply trendShiftAt_one].
      intros i ins Hin. apply trendShiftAt_cases in Hin.
      now destruct Hin as [-> | ->]. }
  split; [|split; [|split; [|split; [|split; [|split]]]]].
  - intros i. unfold found. rewrite trendTransitions_In. split.
    + intros [j [Hj Hin]]. rewrite Hat in Hin.
      destruct ((prevDiff j <=? 0)%float && (0 <? currDiff j)%float)
        eqn:Hbull.
      * destruct Hin as [Heq|[]]. apply (f_equal endIndex) in Heq.
        simpl in Heq. injection Heq as <-.
        apply andb_true_iff in Hbull. tauto.
      * destruct ((0 <=? prevDiff j)%float && (currDiff j <? 0)%float);
          simpl in Hin; [|contradiction].
        destruct Hin as [Heq|[]].
        apply (f_equal direction) in Heq. discriminate Heq.
    + intros [Hi [H1 H2]]. exists i. split; [exact Hi|].
      rewrite Hat, H1, H2. simpl. now left.
  - intros i. unfold found. rewrite trendTransitions_In. split.
    + intros [j [Hj Hin]]. rewrite Hat in Hin.
      destruct ((prevDiff j <=? 0)%float && (0 <? currDiff j)%float)
        eqn:Hbull.
      * destruct Hin as [Heq|[]].
        apply (f_equal direction) in Heq. discriminate Heq.
      * destruct ((0 <=? prevDiff j)%float && (currDiff j <? 0)%float)
          eqn:Hbear; simpl in Hin; [|contradiction].
        destruct Hin as [Heq|[]].
        apply (f_equal endIndex) in Heq. simpl in Heq.
        injection Heq as <-. apply andb_true_iff in Hbear. tauto.
    + intros [Hi [H1 H2]]. exists i. split; [exact Hi|].
      rewrite Hat, H1, H2, (Binary64.ltb_not_ltb H2), andb_false_r.
      simpl. now left.
  - apply Forall_forall. intros ins Hin.
    destruct (Hshape ins Hin) as [i [Hi Hat']]. exists i.
    apply trendShiftAt_cases in Hat'.
    destruct Hat' as [-> | ->]; simpl; auto 10.
  - exact Hsorted.
  - reflexivity.
  - apply slice_last_length.
  - unfold detectTrendShifts, slice_last.
    now apply StronglySorted_skipn.
Qed.


(** C6. The orchestrator's insight list has at most 6 entries and is the
    first 6 (or all, if fewer) of big-move insights, then trend-shift
    insights, then the compression insight, in that order. *)
Theorem insights_capped_in_priority_order (points : list IntradayPoint) :
  let big := fst (detectBigMoves points) in
  let trend :=
    detectTrendShifts points (calculateEMA points 9%float)
                      (calculateEMA points 21%float) in
  let compression := detectCompressionBreakout points in
  length (insights (analyzeIntradayData points)) <= 6
  /\ insights (analyzeIntradayData points)
     = firstn 6 (big ++ trend ++ compression).
Proof.
  intros big trend compression. rewrite analyze_insights, slice_from_0.
  split; [apply firstn_le_length | reflexivity].
Qed.

(** C7. On the empty sequence the orchestrator returns the fixed no-data
    narrative, five zero statistics and empty insights, signals and EMA
    series; and no other input takes that exit: a sequence [p :: rest]
    gets the Smoother's and the detectors' outputs, with as many EMA values
    as points, so its summary is not the no-data one. *)
Theorem empty_input_is_the_sole_short_circuit :
  analyzeIntradayData []
  = {| narrative :=
         [Lit "No intraday prints were returned from the data source."];
       stats := {| rangePct := 0%float; avgVolume := 0%float;
                   sessionChangePct := 0%float; sessionHigh := 0%float;
                   sessionLow := 0%float |};
       insights := []; signals := []; ema9 := []; ema21 := [] |}
  /\ forall p rest,
      let points := p :: rest in
      let out := analyzeIntradayData points in
      ema9 out = calculateEMA points 9%float
      /\ ema21 out = calculateEMA points 21%float
      /\ signals out = snd (detectBigMoves points)
      /\ insights out
         = firstn 6 (fst (detectBigMoves points)
                     ++ detectTrendShifts points (ema9 out) (ema21 out)
                     ++ detectCompressionBreakout points)
      /\ narrative out = buildNarrative points
      /\ length (ema9 out) = length points
      /\ out <> analyzeIntradayData [].
Proof.
  split; [reflexivity|]. intros p rest points out.
  assert (H9 : ema9 out = calculateEMA points 9%float) by reflexivity.
  assert (H21 : ema21 out = calculateEMA points 21%float) by reflexivity.
  split; [exact H9|]. split; [exact H21|]. split; [reflexivity|].
  split; [|split; [reflexivity|split]].
  - rewrite H9, H21. unfold out. rewrite analyze_insights.
    apply slice_from_0.
  - rewrite H9. apply calculateEMA_length.
  - intros Heq. apply (f_equal ema9) in Heq. discriminate Heq.
Qed.

(** C8, as stated, fails for the constant close 3: in binary64,
    [3 * 0.2 + 3 * (1 - 0.2)] is [3.0000000000000004], so the span-9 series
    leaves the constant and the detector reports a bullish crossover. *)
Lemma constant_series_drifts :
  let points := [flatBar 0 3; flatBar 60 3]%float in
  Forall (fun p => close p = 3%float) points
  /\ calculateEMA points 9%float = [3; 3.0000000000000004]%float
  /\ calculateEMA points 21%float = [3; 3]%float
  /\ detectTrendShifts points (calculateEMA points 9%float)
                       (calculateEMA points 21%float)
     = [bullishCross points 1].
Proof.
  intros points. split; [repeat constructor|].
  repeat split; vm_compute; reflexivity.
Qed.

(** C8, amended.  For every non-empty input whose closes all equal [c]:
    the BigMoveDetector returns nothing; with two points or more the
    narrative opens with the balanced-bias sentence (a single point gets
    the insufficient-data message); both EMA series start at [c]; and when
    [c * k + c * (1 - k)] evaluates to [c] for [k = 2 / 10] and
    [k = 2 / 22], both series are constantly [c] and the
    TrendShiftDetector returns nothing.  In exact rational arithmetic that
    condition never fails: the recurrence keeps a constant series
    constant, for every span. *)
Theorem constant_series (c : number) (points : list IntradayPoint) :
  points <> [] ->
  Forall (fun p => close p = c) points ->
  let fast := calculateEMA points 9%float in
  let slow := calculateEMA points 21%float in
  detectBigMoves points = ([], [])
  /\ (2 <= length points ->
      exists rest,
        buildNarrative points
        = Lit "Auction remained rotational with neither side in clear control."
          :: rest)
  /\ (length points = 1 ->
      buildNarrative points
      = [Lit "Insufficient data to build a narrative."])
  /\ nth_error fast 0 = Some c
  /\ nth_error slow 0 = Some c
  /\ (emaStep binary64 (smoothing binary64 9%float) c c = c ->
      emaStep binary64 (smoothing binary64 21%float) c c = c ->
      fast = repeat c (length points)
      /\ slow = repeat c (length points)
      /\ detectTrendShifts points fast slow = [])
  /\ (forall (span q : Q) (n : nat),
        Forall (fun e => (e == q)%Q) (emaSeries exactQ (repeat q n) span)).
Proof.
  intros Hne Hc fast slow.
  assert (Hat : forall i, i < length points -> close (at_ points i) = c)
    by (intros i; now apply constant_close_at).
  split; [|split; [|split; [|split; [|split; [|split]]]]];
    [| | | | | |apply exact_series_fixed].
  - assert (Hnone : candidateMoves points = []).
    { apply flat_map_nil. intros i Hi. apply in_seq in Hi.
      unfold bigMoveAt, BIG_MOVE_LOOKBACK in *.
      rewrite !Hat by lia.
      now rewrite (zeroOrNaN_below_threshold (pctChange_self c)). }
    unfold detectBigMoves, topMoves. now rewrite Hnone.
  - intros Hlen. unfold buildNarrative.
    destruct (length points <? 2) eqn:Hlt; [apply Nat.ltb_lt in Hlt; lia|].
    rewrite !Hat by lia.
    rewrite (zeroOrNaN_balanced (pctChange_self c)). eauto.
  - intros Hlen. unfold buildNarrative. now rewrite Hlen.
  - destruct points as [|p rest]; [congruence|].
    inversion Hc; subst. reflexivity.
  - destruct points as [|p rest]; [congruence|].
    inversion Hc; subst. reflexivity.
  - intros H9 H21.
    assert (Hfast : fast = repeat c (length points))
      by now apply calculateEMA_fixed.
    assert (Hslow : slow = repeat c (length points))
      by now apply calculateEMA_fixed.
    split; [exact Hfast|]. split; [exact Hslow|].
    rewrite Hfast, Hslow. unfold detectTrendShifts.
    replace (trendTransitions _ _ _) with (@nil PatternInsight);
      [reflexivity|].
    symmetry. apply flat_map_nil. intros i Hi. apply in_seq in Hi.
    unfold trendShiftAt. rewrite !num_at_repeat by lia.
    destruct (zeroOrNaN_no_cross (sub_self_zeroOrNaN c)) as [H1 H2].
    now rewrite H1, H2, !andb_false_r.
Qed.

(** Two bars closing at 100: the hypotheses of [constant_series] hold, and
    so does the fixed-point condition for both spans. *)
Lemma constant_series_witness :
  let points := [flatBar 0 100; flatBar 60 100]%float in
  detectBigMoves points = ([], [])
  /\ calculateEMA points 9%float = [100; 100]%float
  /\ detectTrendShifts points (calculateEMA points 9%float)
                       (calculateEMA points 21%float) = [].
Proof.
  intros points.
  destruct (@constant_series 100%float points)
    as (Hb & _ & _ & _ & _ & He & _).
  - discriminate.
  - repeat constructor.
  - destruct He as (H9 & _ & Ht); [reflexivity | reflexivity |].
    split; [exact Hb|]. split; [exact H9 | exact Ht].
Defined.

(** C9. Every signal marker is anchored to an input point.  Markers and
    big-move insights come pairwise from the selected moves: the marker's
    timestamp and price are those of the point at the insight's end index,
    which is a position of the input.  In particular each marker's
    timestamp is the timestamp of some point. *)
Theorem signals_anchored_to_points (points : list IntradayPoint) :
  Forall2
    (fun ins marker =>
       exists i p,
         endIndex ins = Some i /\ nth_error points i = Some p
         /\ SignalMarker.timestamp marker = timestamp p
         /\ SignalMarker.price marker = close p)
    (fst (detectBigMoves points)) (signals (analyzeIntradayData points))
  /\ Forall
       (fun marker =>
          exists i p, nth_error points i = Some p
                      /\ SignalMarker.timestamp marker = timestamp p)
       (signals (analyzeIntradayData points)).
Proof.
  rewrite analyze_signals. unfold detectBigMoves, mapi; simpl.
  pose proof (topMoves_recorded points) as Hrec.
  assert (Hat : forall m, recordedMove points m ->
                 nth_error points (Move.index m)
                 = Some (at_ points (Move.index m))).
  { intros m [[_ Hlt] _]. unfold at_. now apply nth_error_nth'. }
  split.
  - generalize 0. induction Hrec as [|m top Hm Htop IH]; intros k; simpl;
      constructor; [|apply IH].
    exists (Move.index m), (at_ points (Move.index m)). simpl. auto.
  - apply Forall_map. eapply Forall_impl; [|exact Hrec].
    intros m Hm. exists (Move.index m), (at_ points (Move.index m)).
    simpl. auto.
Qed.

(** C10, as stated, fails in binary64: for two closes of 3 and span 9,
    [ema[1] = 3.0000000000000004] exceeds the greatest close, 3. *)
Lemma ema_exceeds_greatest_close :
  let points := [flatBar 0 3; flatBar 60 3]%float in
  let ema := calculateEMA points 9%float in
  Math_max (map close points) = 3%float
  /\ num_at ema 1 = 3.0000000000000004%float
  /\ (Math_max (map close points) <? num_at ema 1)%float = true.
Proof. repeat split; vm_compute; reflexivity. Qed.

(** Without rounding the recurrence is a convex combination: in exact
    rational arithmetic, for every span [n >= 1], it stays between the least
    and the greatest close seen so far. *)
Lemma exact_ema_within_closes (closes : list Q) (n : Q) (i : nat) :
  (1 <= n)%Q -> i < length closes ->
  let ema := emaSeries exactQ closes n in
  (listMin (firstn (S i) closes) <= nth i ema 0%Q)%Q
  /\ (nth i ema 0%Q <= listMax (firstn (S i) closes))%Q.
Proof.
  intros Hn Hi ema.
  pose proof (exact_smoothing_range Hn) as [Hk0 Hk1].
  set (seen := firstn (S i) closes).
  assert (Hall : Forall (fun c => (listMin seen <= c)%Q
                                  /\ (c <= listMax seen)%Q) seen).
  { apply Forall_forall. intros c Hin. split.
    - now apply (proj1 (Forall_forall _ _) (listMin_le seen)).
    - now apply (proj1 (Forall_forall _ _) (listMax_ge seen)). }
  unfold ema, seen in *. clear ema seen.
  destruct closes as [|c0 rest]; [simpl in Hi; lia|].
  cbn [firstn] in Hall. inversion Hall as [|? ? H0 Hrest]; subst.
  destruct i as [|j]; [exact H0|].
  cbn [emaSeries nth]. apply exact_loop_bounds; auto.
  simpl in Hi. lia.
Qed.

(** C10, amended.  In binary64, for every span [n >= 1] and all finite
    [lo <= hi], with [k = 2 / (n + 1)] as computed, these are equivalent:
    the smoothing step pushes neither bound outwards,
    [lo <= lo * k + lo * (1 - k)] and [hi * k + hi * (1 - k) <= hi]; and
    for every input and every position [i] whose closes [close[0..i]] lie
    between [lo] and [hi], the element [ema[i]] of the Smoother's series
    lies between [lo] and [hi].  With the least and the greatest close seen
    so far for [lo] and [hi] this is the bound
    [min(close[0..i]) <= ema[i] <= max(close[0..i])]: it holds whenever the
    step leaves those two closes inside, and for no other pair of
    bounds. *)
Theorem ema_within_stable_bounds (n lo hi : number) :
  let k := smoothing binary64 n in
  (1 <=? n)%float = true ->
  is_finite lo = true -> is_finite hi = true -> (lo <=? hi)%float = true ->
  ((lo <=? emaStep binary64 k lo lo)%float = true
   /\ (emaStep binary64 k hi hi <=? hi)%float = true)
  <->
  (forall (points : list IntradayPoint) (i : nat),
      i < length points ->
      Forall (fun p => within lo hi (close p) = true)
             (firstn (S i) points) ->
      within lo hi (num_at (calculateEMA points n) i) = true).
Proof.
  intros k Hn Flo Fhi Hle.
  destruct (@Rounding.smoothing_unit n Hn) as [Hk Hk']. fold k in Hk, Hk'.
  apply Rounding.is_finite_spec in Flo. apply Rounding.is_finite_spec in Fhi.
  split.
  - intros [Hlo Hhi] points i Hi Hall.
    destruct points as [|p rest]; [simpl in Hi; lia|].
    cbn [firstn] in Hall. inversion Hall as [|? ? Hp Hrest]; subst.
    unfold calculateEMA, num_at. cbn [map emaSeries]. fold k.
    destruct i as [|j]; cbn [nth]; [exact Hp|].
    apply Rounding.emaLoop_within; auto.
    + rewrite length_map. simpl in Hi. lia.
    + rewrite firstn_map. now apply Forall_map.
  - intros Hall.
    assert (Hin : forall x, within lo hi x = true ->
                            within lo hi (emaStep binary64 k x x) = true).
    { intros x Hx.
      apply (Hall [flatBar 0%float x; flatBar 0%float x] 1);
        [simpl; lia|].
      repeat constructor; exact Hx. }
    pose proof (@Rounding.leb_true_fval _ _ Hle) as [Dlo [Dhi Hfv]].
    assert (Wlo : within lo hi lo = true).
    { apply Rounding.within_fval; auto. split; [exact Flo|lia]. }
    assert (Whi : within lo hi hi = true).
    { apply Rounding.within_fval; auto. split; [exact Fhi|lia]. }
    apply Hin in Wlo. apply Hin in Whi.
    unfold within in Wlo, Whi.
    apply andb_true_iff in Wlo. apply andb_true_iff in Whi. tauto.
Qed.

(** The scenario with span 9: its least close, 100, and its greatest,
    101.9, are both left in place by the step, and the last element of the
    series lies between them. *)
Lemma ema_within_stable_bounds_witness :
  within 100%float 101.9%float
         (num_at (calculateEMA scenario 9%float) 5) = true.
Proof.
  pose proof (@ema_within_stable_bounds 9%float 100%float 101.9%float)
    as H.
  cbv zeta in H.
  apply (proj1 (H eq_refl eq_refl eq_refl eq_refl)
               (conj eq_refl eq_refl) scenario 5).
  - simpl. lia.
  - repeat constructor.
Defined.

(** * Further properties of the engine *)

(** ** Appending bars *)

Lemma emaLoop_prefix {num} (A : Arith num) (k : num) (xs ys : list num) :
  forall prev,
    firstn (length xs) (emaLoop A k prev (xs ++ ys)) = emaLoop A k prev xs.
Proof.
  induction xs as [|x xs IH]; intros prev; simpl; [reflexivity|].
  now rewrite IH.
Qed.

Lemma emaSeries_prefix {num} (A : Arith num) (xs ys : list num) (n : num) :
  firstn (length xs) (emaSeries A (xs ++ ys) n) = emaSeries A xs n.
Proof.
  destruct xs as [|x xs]; simpl; [reflexivity|].
  now rewrite emaLoop_prefix.
Qed.

Lemma num_at_firstn (xs : list number) (n i : nat) :
  i < n -> num_at (firstn n xs) i = num_at xs i.
Proof.
  unfold num_at. revert n i. induction xs as [|x xs IH]; intros n i Hi.
  - now rewrite firstn_nil.
  - destruct n as [|n]; [lia|]. destruct i as [|i]; simpl; [reflexivity|].
    apply IH. lia.
Qed.

Lemma at_app_l (points more : list IntradayPoint) (i : nat) :
  i < length points -> at_ (points ++ more) i = at_ points i.
Proof. intros Hi. unfold at_. now apply app_nth1. Qed.

Lemma calculateEMA_prefix (points more : list IntradayPoint) (n : number) :
  firstn (length points) (calculateEMA (points ++ more) n)
  = calculateEMA points n.
Proof.
  unfold calculateEMA. rewrite map_app, <- (length_map close points).
  apply emaSeries_prefix.
Qed.

(** X1. Appending bars never changes an EMA value already computed: the
    series of the longer input starts with the series of the shorter, so
    position by position the two agree. *)
Theorem ema_is_causal (points more : list IntradayPoint) (n : number) :
  firstn (length points) (calculateEMA (points ++ more) n)
  = calculateEMA points n
  /\ forall i, i < length points ->
               num_at (calculateEMA (points ++ more) n) i
               = num_at (calculateEMA points n) i.
Proof.
  split; [apply calculateEMA_prefix|].
  intros i Hi. rewrite <- (calculateEMA_prefix points more n).
  symmetry. now apply num_at_firstn.
Qed.

Lemma flat_map_agree {A B} (f g : A -> list B) (xs : list A) :
  (forall x, In x xs -> f x = g x) -> flat_map f xs = flat_map g xs.
Proof.
  induction xs as [|x xs IH]; intros H; simpl; [reflexivity|].
  rewrite (H x) by (simpl; auto). f_equal. apply IH.
  intros y Hy. apply H. now right.
Qed.

Lemma trendShiftAt_prefix (points more : list IntradayPoint)
      (fast slow : list number) (i : nat) :
  1 <= i < length points ->
  trendShiftAt (points ++ more) fast slow i
  = trendShiftAt points (firstn (length points) fast)
                 (firstn (length points) slow) i.
Proof.
  intros Hi. unfold trendShiftAt, bullishCross, bearishCross.
  rewrite !num_at_firstn by lia. now rewrite at_app_l by lia.
Qed.

(** X2. Appending bars keeps every trend transition found so far: over the
    longer input, with its own EMA series, the scan finds the transitions
    of the shorter input, in order, followed by transitions that end at
    the appended bars. *)
Theorem trend_transitions_are_causal (points more : list IntradayPoint) :
  let all := points ++ more in
  exists later,
    trendTransitions all (calculateEMA all 9%float)
                     (calculateEMA all 21%float)
    = trendTransitions points (calculateEMA points 9%float)
                       (calculateEMA points 21%float)
      ++ later
    /\ Forall (fun ins => exists i, endIndex ins = Some i
                                    /\ length points <= i < length all)
              later.
Proof.
  intros all. unfold trendTransitions.
  set (n := length points). set (N := length all).
  assert (HN : N = n + length more) by (unfold N, all; apply length_app).
  replace (N - 1) with ((n - 1) + (N - 1 - (n - 1))) by lia.
  rewrite seq_app, flat_map_app.
  exists (flat_map (trendShiftAt all (calculateEMA all 9%float)
                                 (calculateEMA all 21%float))
                   (seq (1 + (n - 1)) (N - 1 - (n - 1)))).
  split.
  - f_equal. apply flat_map_agree. intros i Hi. apply in_seq in Hi.
    unfold all. rewrite trendShiftAt_prefix by (fold n; lia).
    now rewrite !calculateEMA_prefix.
  - apply Forall_forall. intros ins Hin. apply in_flat_map in Hin.
    destruct Hin as [i [Hi Hin]]. apply in_seq in Hi.
    apply trendShiftAt_cases in Hin. exists i.
    destruct Hin as [-> | ->]; simpl; split; try reflexivity; lia.
Qed.

(** ** binary64: sign and magnitude *)

Module Binary64Sign.

Lemma is_nan_spec (x : number) :
  is_nan x = true <-> Prim2SF x = S754_nan.
Proof.
  unfold is_nan. rewrite negb_true_iff, FloatAxioms.eqb_spec. unfold SFeqb.
  split.
  - intros H. destruct (Prim2SF x) as [s|s| |s m e] eqn:E; try reflexivity;
      rewrite Binary64.SFcompare_refl in H by discriminate; discriminate.
  - now intros ->.
Qed.

Lemma abs_opp (x : number) : abs (- x)%float = abs x.
Proof.
  apply Prim2SF_inj. rewrite !abs_spec, opp_spec.
  now destruct (Prim2SF x).
Qed.

(** At or above zero, a threshold on the magnitude is one on the value. *)
Lemma leb_abs_nonneg (t x : number) :
  (0 <=? x)%float = true -> (t <=? abs x)%float = (t <=? x)%float.
Proof.
  rewrite !FloatAxioms.leb_spec, abs_spec, Binary64.Prim2SF_zero.
  destruct (Prim2SF x) as [[]|[]| |[] m e]; simpl; try discriminate;
    intros _; reflexivity.
Qed.

(** Otherwise it is one on the value from below. *)
Lemma leb_abs_neg (t x : number) :
  (0 <=? x)%float = false -> (t <=? abs x)%float = (x <=? - t)%float.
Proof.
  rewrite !FloatAxioms.leb_spec, abs_spec, opp_spec,
    Binary64.Prim2SF_zero.
  unfold SFleb.
  destruct (Prim2SF x) as [[]|[]| |[] m e], (Prim2SF t) as [[]|[]| |[] mt et];
    simpl; try discriminate; intros _; try reflexivity.
  change (Pos.compare_cont Eq) with Pos.compare.
  rewrite (Z.compare_antisym et e), (Pos.compare_antisym mt m).
  destruct (et ?= e)%Z; simpl; try reflexivity.
  now destruct (mt ?= m)%positive.
Qed.

End Binary64Sign.

(** ** Confidence *)

(** X3. The confidence rule looks at the magnitude only and never ranks a
    larger change below a smaller one: [toConfidence (- a)] is
    [toConfidence a], and [|a| <= |b|] gives [toConfidence a] at most
    [toConfidence b]. *)
Theorem toConfidence_monotone (a b : number) :
  toConfidence (- a)%float = toConfidence a
  /\ ((abs a <=? abs b)%float = true ->
      confidenceRank (toConfidence a) <= confidenceRank (toConfidence b)).
Proof.
  split.
  - unfold toConfidence. now rewrite Binary64Sign.abs_opp.
  - intros Hab. unfold toConfidence.
    destruct (1.5 <=? abs a)%float eqn:Ha15.
    + now rewrite (Binary64.leb_trans Ha15 Hab).
    + destruct (1.0 <=? abs a)%float eqn:Ha10; [|simpl; lia].
      rewrite (Binary64.leb_trans Ha10 Hab).
      destruct (1.5 <=? abs b)%float; simpl; lia.
Qed.

(** A change of 0.7% against one of -1.2%. *)
Lemma toConfidence_monotone_witness :
  confidenceRank (toConfidence 0.7%float)
  <= confidenceRank (toConfidence (-1.2)%float)
  /\ toConfidence (- 0.7)%float = toConfidence 0.7%float.
Proof.
  destruct (@toConfidence_monotone 0.7%float (-1.2)%float) as [Hsym Hmono].
  split; [apply Hmono; reflexivity | exact Hsym].
Defined.

(** ** Big moves *)

(** X4. A selected move is bullish exactly when its change is at least
    +0.6%, and bearish exactly when it is at most -0.6%. *)
Theorem big_move_direction_is_the_sign (points : list IntradayPoint) :
  Forall
    (fun m =>
       (Move.direction m = Bullish
        <-> (0.6 <=? Move.changePct m)%float = true)
       /\ (Move.direction m = Bearish
           <-> (Move.changePct m <=? -0.6)%float = true))
    (topMoves points).
Proof.
  eapply Forall_impl; [|apply topMoves_recorded].
  intros m (_ & _ & _ & Hthr & Hdir). rewrite Hdir. unfold directionOf.
  unfold BIG_MOVE_THRESHOLD in Hthr.
  destruct (0 <=? Move.changePct m)%float eqn:Hsign.
  - rewrite (Binary64Sign.leb_abs_nonneg _ Hsign) in Hthr.
    split; [tauto|]. split; [discriminate|]. intros Hneg. exfalso.
    pose proof (Binary64.leb_trans Hsign Hneg) as H. discriminate H.
  - rewrite (Binary64Sign.leb_abs_neg _ Hsign) in Hthr.
    split; [|tauto]. split; [discriminate|]. intros Hpos. exfalso.
    assert (H : (0 <=? Move.changePct m)%float = true)
      by (apply Binary64.leb_trans with (b := 0.6%float);
          [reflexivity | exact Hpos]).
    congruence.
Qed.

(** X5. Insights and markers of the BigMoveDetector agree pairwise: the
    same confidence and direction, and the marker is labelled
    "Momentum Upswing" when bullish and "Momentum Flush" when bearish. *)
Theorem big_move_insights_match_markers (points : list IntradayPoint) :
  Forall2
    (fun ins marker =>
       confidence ins = SignalMarker.confidence marker
       /\ direction ins = Some (SignalMarker.direction marker)
       /\ SignalMarker.label marker
          = match SignalMarker.direction marker with
            | Bullish => "Momentum Upswing"%string
            | Bearish => "Momentum Flush"%string
            end)
    (fst (detectBigMoves points)) (snd (detectBigMoves points)).
Proof.
  unfold detectBigMoves, mapi. cbn [fst snd]. generalize 0.
  induction (topMoves points) as [|m top IH]; intros k; simpl;
    constructor; auto.
Qed.

Lemma sorted_head_before_tail {A} (R : A -> A -> Prop) (l : list A) :
  StronglySorted R l ->
  forall n a b, In a (firstn n l) -> In b (skipn n l) -> R a b.
Proof.
  induction 1 as [|x l Hs IH Hx]; intros n a b Ha Hb.
  - now rewrite firstn_nil in Ha.
  - destruct n as [|n]; simpl in Ha, Hb; [contradiction|].
    destruct Ha as [<-|Ha].
    + apply In_skipn in Hb.
      now apply (proj1 (Forall_forall _ _) Hx).
    + now apply (IH n).
Qed.

(** X6. The selection keeps the strongest moves: a recorded move that is
    not selected is ranked after every selected one (a smaller magnitude,
    or the same magnitude and found later), and then 4 moves were
    selected. *)
Theorem unselected_moves_rank_last (points : list IntradayPoint) :
  Forall
    (fun m =>
       In m (topMoves points)
       \/ (length (topMoves points) = 4
           /\ Forall
                (fun t =>
                   (abs (Move.changePct m) <? abs (Move.changePct t))%float
                   = true
                   \/ ((abs (Move.changePct t) =? abs (Move.changePct m))%float
                       = true
                       /\ Move.index t < Move.index m))
                (topMoves points)))
    (candidateMoves points).
Proof.
  apply Forall_forall. intros m Hm.
  set (ranked := sort compareMoves (candidateMoves points)).
  assert (Hsorted : StronglySorted rankedBefore ranked).
  { apply sort_ranked; [|apply candidateMoves_in_scan_order].
    eapply Forall_impl; [|apply candidateMoves_recorded].
    intros x Hx. apply Hx. }
  assert (Htop : topMoves points = firstn 4 ranked)
    by (unfold topMoves; apply slice_from_0).
  apply (sort_In compareMoves) in Hm. fold ranked in Hm.
  rewrite <- (firstn_skipn 4 ranked) in Hm. apply in_app_or in Hm.
  rewrite Htop. destruct Hm as [Hm|Hm]; [now left | right]. split.
  - apply firstn_length_le.
    destruct (Nat.le_gt_cases 4 (length ranked)) as [H|H]; [exact H|].
    rewrite skipn_all2 in Hm by lia. contradiction.
  - apply Forall_forall. intros t Ht.
    apply (sorted_head_before_tail Hsorted 4 t m Ht Hm).
Qed.

(** ** The output as a whole *)

Lemma mapi_from_In {A B} (f : nat -> A -> B) (xs : list A) (y : B) :
  forall i, In y (mapi_from f i xs) -> exists k x, In x xs /\ y = f k x.
Proof.
  induction xs as [|x xs IH]; intros i H; simpl in H; [contradiction|].
  destruct H as [<-|H]; [exists i, x; simpl; auto|].
  destruct (IH _ H) as [k [x' [Hx' ->]]]. exists k, x'. simpl. auto.
Qed.

(** What the CompressionBreakoutDetector returns: nothing, or the one
    insight of the tightest window. *)
Lemma compression_cases (points : list IntradayPoint) :
  let minIndex := snd (tightestWindow points) in
  let breakoutIndex := Nat.min (length points - 1) (minIndex + 3) in
  let change :=
    pctChange (close (at_ points minIndex))
              (close (at_ points breakoutIndex)) in
  detectCompressionBreakout points = []
  \/ (20 <= length points
      /\ (abs change <? 0.8)%float = false
      /\ minIndex < length points
      /\ exists ins,
          detectCompressionBreakout points = [ins]
          /\ id ins = ("compression-" ++ showIndex breakoutIndex)%string
          /\ startIndex ins = Some minIndex
          /\ endIndex ins = Some breakoutIndex
          /\ changePct ins = Some change
          /\ confidence ins = toConfidence change
          /\ direction ins = Some (directionOf change)).
Proof.
  intros minIndex breakoutIndex change.
  unfold detectCompressionBreakout.
  destruct (length points <? 20) eqn:Hn; [now left|].
  apply Nat.ltb_ge in Hn.
  pose proof (scan_tightestSoFar points (length points - 10)) as Hscan.
  change (tightestSoFar points (length points - 10)
                        (tightestWindow points)) in Hscan.
  destruct Hscan as [_ Hfirst]. fold minIndex in Hfirst.
  assert (Hlt : minIndex < length points)
    by (destruct Hfirst as [[-> _]|[Hj _]]; lia).
  destruct (tightestWindow points) as [r j]. cbn [snd] in minIndex.
  fold minIndex. fold breakoutIndex. fold change.
  destruct (abs change <? 0.8)%float; [now left|].
  right. repeat split; auto. eexists. repeat split.
Qed.

Lemma compression_at_most_one (points : list IntradayPoint) :
  length (detectCompressionBreakout points) <= 1.
Proof.
  destruct (compression_cases points) as [->|(_ & _ & _ & ins & -> & _)];
    simpl; lia.
Qed.

Lemma short_input_no_big_moves (points : list IntradayPoint) :
  length points <= 3 -> detectBigMoves points = ([], []).
Proof.
  intros H. unfold detectBigMoves, topMoves, candidateMoves.
  unfold BIG_MOVE_LOOKBACK.
  now replace (length points - 3) with 0 by lia.
Qed.

(** X7. With at most 3 points there is no big move and no marker, and the
    insights are exactly the trend shifts; with a single point there is no
    insight at all. *)
Theorem short_inputs (points : list IntradayPoint) :
  length points <= 3 ->
  let out := analyzeIntradayData points in
  signals out = []
  /\ insights out
     = detectTrendShifts points (calculateEMA points 9%float)
                         (calculateEMA points 21%float)
  /\ (length points <= 1 -> insights out = []).
Proof.
  intros Hlen out.
  assert (Hbig : detectBigMoves points = ([], []))
    by now apply short_input_no_big_moves.
  assert (Hcomp : detectCompressionBreakout points = []).
  { unfold detectCompressionBreakout.
    destruct (length points <? 20) eqn:H; [reflexivity|].
    apply Nat.ltb_ge in H. lia. }
  assert (Hins : insights out
                 = detectTrendShifts points (calculateEMA points 9%float)
                                     (calculateEMA points 21%float)).
  { unfold out. rewrite analyze_insights, slice_from_0, Hbig, Hcomp.
    cbn [fst app]. rewrite app_nil_r. apply firstn_all2.
    pose proof (slice_last_length 3
                  (trendTransitions points (calculateEMA points 9%float)
                                    (calculateEMA points 21%float))) as H.
    unfold detectTrendShifts. lia. }
  split; [|split].
  - unfold out. rewrite analyze_signals.
    unfold detectBigMoves in Hbig. now injection Hbig as _ ->.
  - exact Hins.
  - intros H1. rewrite Hins. unfold detectTrendShifts, trendTransitions.
    now replace (length points - 1) with 0 by lia.
Qed.

(** Three bars. *)
Lemma short_inputs_witness :
  signals (analyzeIntradayData
             [flatBar 0 100; flatBar 60 101; flatBar 120 102]%float) = [].
Proof.
  apply (@short_inputs [flatBar 0 100; flatBar 60 101; flatBar 120 102]%float).
  simpl. lia.
Defined.

(** X8. The cap of 6 never drops a big-move insight: the output is the
    big-move insights followed by the first [6 - |big|] of the trend
    shifts and the compression insight.  Nothing is dropped while big
    moves and trend shifts number fewer than 6; from 6 on, the compression
    insight is dropped, and of the trend shifts the latest ones. *)
Theorem cap_keeps_big_moves (points : list IntradayPoint) :
  let big := fst (detectBigMoves points) in
  let trend :=
    detectTrendShifts points (calculateEMA points 9%float)
                      (calculateEMA points 21%float) in
  let compression := detectCompressionBreakout points in
  let out := insights (analyzeIntradayData points) in
  out = big ++ firstn (6 - length big) (trend ++ compression)
  /\ (length big + length trend < 6 -> out = big ++ trend ++ compression)
  /\ (6 <= length big + length trend ->
      out = big ++ firstn (6 - length big) trend).
Proof.
  intros big trend compression out.
  assert (Hbig : length big <= 4).
  { unfold big, detectBigMoves. cbn [fst]. rewrite mapi_length.
    apply topMoves_length. }
  assert (Hcomp : length compression <= 1)
    by apply compression_at_most_one.
  assert (Hout : out = big ++ firstn (6 - length big) (trend ++ compression)).
  { unfold out. rewrite analyze_insights, slice_from_0, firstn_app.
    fold big. fold trend. fold compression. f_equal.
    apply firstn_all2. lia. }
  split; [exact Hout|]. split; intros H; rewrite Hout; f_equal.
  - apply firstn_all2. rewrite length_app. lia.
  - rewrite firstn_app.
    replace (6 - length big - length trend) with 0 by lia.
    cbn [firstn]. apply app_nil_r.
Qed.

(** X9. Every insight of the output spans positions of the input:
    [startIndex] and [endIndex] are present and
    [startIndex <= endIndex < n]. *)
Theorem insight_spans_are_in_range (points : list IntradayPoint) :
  Forall
    (fun ins =>
       exists s e, startIndex ins = Some s /\ endIndex ins = Some e
                   /\ s <= e < length points)
    (insights (analyzeIntradayData points)).
Proof.
  apply Forall_forall. intros ins Hin.
  rewrite analyze_insights, slice_from_0 in Hin. apply In_firstn in Hin.
  apply in_app_or in Hin. destruct Hin as [Hin|Hin].
  - unfold detectBigMoves, mapi in Hin. cbn [fst] in Hin.
    apply mapi_from_In in Hin. destruct Hin as [k [m [Hm ->]]].
    pose proof (proj1 (Forall_forall _ _) (topMoves_recorded points) m Hm)
      as (Hi & Hs & _).
    exists (Move.spanStart m), (Move.index m). simpl.
    unfold BIG_MOVE_LOOKBACK in *. repeat split; lia.
  - apply in_app_or in Hin. destruct Hin as [Hin|Hin].
    + unfold detectTrendShifts in Hin.
      apply In_skipn, trendTransitions_In in Hin.
      destruct Hin as [i [Hi Hin]]. apply trendShiftAt_cases in Hin.
      exists (i - 1), i. destruct Hin as [-> | ->]; simpl;
        repeat split; lia.
    + destruct (compression_cases points)
        as [Hnil|(Hn & _ & Hlt & c & Hc & _ & Hs & He & _)].
      * rewrite Hnil in Hin. contradiction.
      * rewrite Hc in Hin. destruct Hin as [<-|[]].
        eexists _, _. split; [exact Hs|]. split; [exact He|]. lia.
Qed.

(** X10. A compression insight reports a change of magnitude at least
    0.8%, or a NaN change: the detector only tests [|changePct| < 0.8],
    which NaN fails, and such an insight has confidence low and direction
    bearish. *)
Theorem compression_magnitude (points : list IntradayPoint) :
  Forall
    (fun ins =>
       exists change,
         changePct ins = Some change
         /\ ((0.8 <=? abs change)%float = true
             \/ (is_nan change = true
                 /\ confidence ins = Low
                 /\ direction ins = Some Bearish)))
    (detectCompressionBreakout points).
Proof.
  destruct (compression_cases points)
    as [->|(_ & Hbig & _ & c & -> & _ & _ & _ & Hcp & Hconf & Hdir)];
    constructor; [|constructor].
  eexists. split; [exact Hcp|].
  set (change := pctChange _ _) in *.
  destruct (is_nan change) eqn:Hnan.
  - right. split; [reflexivity|].
    apply Binary64Sign.is_nan_spec in Hnan.
    rewrite Hconf, Hdir. unfold toConfidence, directionOf.
    rewrite !FloatAxioms.leb_spec, abs_spec, Hnan. split; reflexivity.
  - left. apply Binary64.not_ltb_leb; [| |exact Hbig].
    + unfold defined. rewrite abs_spec. intros E.
      assert (Hn : Prim2SF change = S754_nan)
        by (destruct (Prim2SF change); try discriminate; reflexivity).
      apply Binary64Sign.is_nan_spec in Hn. congruence.
    + unfold defined. vm_compute. discriminate.
Qed.

(** ** Insight ids *)

Lemma showIndex_inj (a b : nat) : showIndex a = showIndex b -> a = b.
Proof.
  unfold showIndex. intros H. apply DecimalNat.Unsigned.to_uint_inj.
  apply (f_equal NilEmpty.uint_of_string) in H.
  rewrite !NilEmpty.usu in H. now injection H.
Qed.

Lemma NoDup_firstn {A} (n : nat) (xs : list A) :
  NoDup xs -> NoDup (firstn n xs).
Proof.
  intros H. rewrite <- (firstn_skipn n xs) in H.
  now apply NoDup_app_remove_r in H.
Qed.

Lemma NoDup_skipn {A} (n : nat) (xs : list A) :
  NoDup xs -> NoDup (skipn n xs).
Proof.
  intros H. rewrite <- (firstn_skipn n xs) in H.
  now apply NoDup_app_remove_l in H.
Qed.

Lemma sorted_NoDup_map {A B} (R : A -> A -> Prop) (f : A -> B)
      (xs : list A) :
  (forall a b, R a b -> f a <> f b) ->
  StronglySorted R xs -> NoDup (map f xs).
Proof.
  intros HR. induction 1 as [|x xs Hs IH Hx]; simpl; constructor; auto.
  intros Hin. apply in_map_iff in Hin. destruct Hin as [y [Hy Hin]].
  apply (HR x y); [|now symmetry].
  now apply (proj1 (Forall_forall _ _) Hx).
Qed.

Lemma topMoves_distinct_indices (points : list IntradayPoint) :
  NoDup (map Move.index (topMoves points)).
Proof.
  unfold topMoves. rewrite slice_from_0, <- firstn_map. apply NoDup_firstn.
  eapply Permutation_NoDup.
  - apply Permutation_map, sort_perm.
  - apply sorted_NoDup_map with (R := fun a b => Move.index a < Move.index b);
      [intros a b H; lia | apply candidateMoves_in_scan_order].
Qed.

Lemma big_move_ids (points : list IntradayPoint) :
  map id (fst (detectBigMoves points))
  = map (fun i => ("big-move-" ++ showIndex i)%string)
        (map Move.index (topMoves points)).
Proof.
  unfold detectBigMoves, mapi. cbn [fst]. generalize 0.
  induction (topMoves points) as [|m top IH]; intros k; simpl;
    [reflexivity|].
  now rewrite IH.
Qed.

Lemma NoDup_map_injective {A B} (f : A -> B) (xs : list A) :
  (forall a b, f a = f b -> a = b) -> NoDup xs -> NoDup (map f xs).
Proof.
  intros Hf. induction 1 as [|x xs Hx _ IH]; simpl; constructor; auto.
  intros Hin. apply in_map_iff in Hin. destruct Hin as [y [Hy Hin]].
  apply Hf in Hy. now subst y.
Qed.

Lemma trend_ids_distinct (points : list IntradayPoint)
      (fast slow : list number) :
  NoDup (map id (detectTrendShifts points fast slow)).
Proof.
  unfold detectTrendShifts, slice_last. rewrite <- skipn_map.
  apply NoDup_skipn. unfold trendTransitions.
  assert (Hkey : forall ins,
             In ins (flat_map (trendShiftAt points fast slow)
                              (seq 1 (length points - 1))) ->
             ins = bullishCross points (endOf ins)
             \/ ins = bearishCross points (endOf ins)).
  { intros ins Hin. apply in_flat_map in Hin. destruct Hin as [i [_ Hin]].
    apply trendShiftAt_cases in Hin. destruct Hin as [-> | ->]; auto. }
  assert (Hsorted :
            StronglySorted (fun a b => endOf a < endOf b)
              (flat_map (trendShiftAt points fast slow)
                        (seq 1 (length points - 1)))).
  { apply scan_sorted; [|apply trendShiftAt_one].
    intros i ins Hin. apply trendShiftAt_cases in Hin.
    now destruct Hin as [-> | ->]. }
  revert Hkey Hsorted.
  generalize (flat_map (trendShiftAt points fast slow)
                       (seq 1 (length points - 1))).
  intros l Hkey Hsorted.
  induction Hsorted as [|x l Hs IH Hx]; simpl; constructor.
  - intros Hin. apply in_map_iff in Hin. destruct Hin as [y [Hy Hin]].
    assert (Hlt : endOf x < endOf y)
      by now apply (proj1 (Forall_forall _ _) Hx).
    destruct (Hkey x (or_introl eq_refl)) as [Ex|Ex];
      destruct (Hkey y (or_intror Hin)) as [Ey|Ey];
      rewrite Ex, Ey in Hy; simpl in Hy; try discriminate Hy;
      injection Hy as Hy; apply showIndex_inj in Hy; lia.
  - apply IH. intros ins Hin. apply Hkey. now right.
Qed.

(** X11. The ids of the insights in the output are pairwise distinct. *)
Theorem insight_ids_are_distinct (points : list IntradayPoint) :
  NoDup (map id (insights (analyzeIntradayData points))).
Proof.
  rewrite analyze_insights, slice_from_0, <- firstn_map.
  apply NoDup_firstn. rewrite !map_app.
  set (fast := calculateEMA points 9%float).
  set (slow := calculateEMA points 21%float).
  assert (Hbig : forall s, In s (map id (fst (detectBigMoves points))) ->
                           exists t, s = ("big-move-" ++ t)%string).
  { intros s Hs. rewrite big_move_ids in Hs. apply in_map_iff in Hs.
    destruct Hs as [i [<- _]]. eauto. }
  assert (Htrend : forall s,
             In s (map id (detectTrendShifts points fast slow)) ->
             exists t, s = ("bullish-cross-" ++ t)%string
                       \/ s = ("bearish-cross-" ++ t)%string).
  { intros s Hs. apply in_map_iff in Hs. destruct Hs as [ins [<- Hin]].
    unfold detectTrendShifts in Hin.
    apply In_skipn, trendTransitions_In in Hin.
    destruct Hin as [i [_ Hin]]. apply trendShiftAt_cases in Hin.
    destruct Hin as [-> | ->]; simpl; eauto. }
  assert (Hcomp : forall s,
             In s (map id (detectCompressionBreakout points)) ->
             exists t, s = ("compression-" ++ t)%string).
  { intros s Hs.
    destruct (compression_cases points)
      as [Hnil|(_ & _ & _ & c & Hc & Hid & _)].
    - rewrite Hnil in Hs. contradiction.
    - rewrite Hc in Hs. destruct Hs as [<-|[]]. rewrite Hid. eauto. }
  apply NoDup_app; [|apply NoDup_app|].
  - rewrite big_move_ids. apply NoDup_map_injective.
    + intros a b H. injection H as H. now apply showIndex_inj.
    + apply topMoves_distinct_indices.
  - apply trend_ids_distinct.
  - pose proof (compression_at_most_one points) as H.
    destruct (detectCompressionBreakout points) as [|c [|? ?]]; simpl in *;
      [constructor | repeat constructor; auto | lia].
  - intros s Hs Hc. destruct (Htrend s Hs) as [t [-> | ->]];
      destruct (Hcomp _ Hc) as [t' H]; discriminate H.
  - intros s Hs Hrest. destruct (Hbig s Hs) as [t ->].
    apply in_app_or in Hrest. destruct Hrest as [H|H].
    + destruct (Htrend _ H) as [t' [E|E]]; discriminate E.
    + destruct (Hcomp _ H) as [t' E]. discriminate E.
Qed.

(** ** Session extremes *)

Lemma isPosZero_spec (x : number) :
  isPosZero x = true -> Prim2SF x = S754_zero false.
Proof.
  unfold isPosZero. rewrite classify_spec. unfold SF64classify, SFclassify.
  destruct (Prim2SF x) as [[]|[]| |[] m e]; try discriminate; auto;
    destruct (_ =? _)%Z; discriminate.
Qed.

Lemma isNegZero_spec (x : number) :
  isNegZero x = true -> Prim2SF x = S754_zero true.
Proof.
  unfold isNegZero. rewrite classify_spec. unfold SF64classify, SFclassify.
  destruct (Prim2SF x) as [[]|[]| |[] m e]; try discriminate; auto;
    destruct (_ =? _)%Z; discriminate.
Qed.

Lemma no_nan_defined (xs : list number) :
  existsb is_nan xs = false -> Forall defined xs.
Proof.
  induction xs as [|x xs IH]; simpl; intros H; constructor;
    apply orb_false_iff in H; destruct H as [Hx Hxs]; auto.
  intros E. apply Binary64Sign.is_nan_spec in E. congruence.
Qed.

Lemma max_step_choice (acc x : number) :
  max_step acc x = acc \/ max_step acc x = x.
Proof.
  unfold max_step. destruct (_ && _); auto. destruct (_ <? _)%float; auto.
Qed.

Lemma max_step_ge (acc x : number) :
  defined acc -> defined x ->
  (acc <=? max_step acc x)%float = true
  /\ (x <=? max_step acc x)%float = true.
Proof.
  intros Da Dx. unfold max_step.
  destruct (isPosZero x && isNegZero acc) eqn:Hz.
  - apply andb_true_iff in Hz. destruct Hz as [Hx Ha].
    apply isPosZero_spec in Hx. apply isNegZero_spec in Ha.
    split; [|now apply Binary64.leb_refl].
    rewrite FloatAxioms.leb_spec, Hx, Ha. reflexivity.
  - destruct (acc <? x)%float eqn:Hlt.
    + split; [now apply Binary64.ltb_leb | now apply Binary64.leb_refl].
    + split; [now apply Binary64.leb_refl|].
      now apply Binary64.not_ltb_leb.
Qed.

Lemma min_step_choice (acc x : number) :
  min_step acc x = acc \/ min_step acc x = x.
Proof.
  unfold min_step. destruct (_ && _); auto. destruct (_ <? _)%float; auto.
Qed.

Lemma min_step_le (acc x : number) :
  defined acc -> defined x ->
  (min_step acc x <=? acc)%float = true
  /\ (min_step acc x <=? x)%float = true.
Proof.
  intros Da Dx. unfold min_step.
  destruct (isNegZero x && isPosZero acc) eqn:Hz.
  - apply andb_true_iff in Hz. destruct Hz as [Hx Ha].
    apply isNegZero_spec in Hx. apply isPosZero_spec in Ha.
    split; [|now apply Binary64.leb_refl].
    rewrite FloatAxioms.leb_spec, Hx, Ha. reflexivity.
  - destruct (x <? acc)%float eqn:Hlt.
    + split; [now apply Binary64.ltb_leb | now apply Binary64.leb_refl].
    + split; [now apply Binary64.leb_refl|].
      now apply Binary64.not_ltb_leb.
Qed.

(** Folding from a defined start: the result is the start or an element,
    and bounds both. *)
Lemma fold_max_step (xs : list number) :
  forall acc,
    defined acc -> Forall defined xs ->
    let r := fold_left max_step xs acc in
    (r = acc \/ In r xs)
    /\ (acc <=? r)%float = true
    /\ Forall (fun x => (x <=? r)%float = true) xs.
Proof.
  induction xs as [|x xs IH]; intros acc Da Dxs; simpl.
  - split; [now left|]. split; [now apply Binary64.leb_refl | constructor].
  - inversion Dxs as [|? ? Dx Dxs']; subst.
    destruct (max_step_ge Da Dx) as [Hacc Hx].
    assert (Dm : defined (max_step acc x))
      by (destruct (max_step_choice acc x) as [-> | ->]; assumption).
    destruct (IH (max_step acc x) Dm Dxs') as (Hin & Hle & Hall).
    split; [|split].
    + destruct Hin as [Hin|Hin]; [|now right; right].
      rewrite Hin. destruct (max_step_choice acc x) as [-> | ->]; auto.
    + eapply Binary64.leb_trans; eauto.
    + constructor; [eapply Binary64.leb_trans; eauto | exact Hall].
Qed.

Lemma fold_min_step (xs : list number) :
  forall acc,
    defined acc -> Forall defined xs ->
    let r := fold_left min_step xs acc in
    (r = acc \/ In r xs)
    /\ (r <=? acc)%float = true
    /\ Forall (fun x => (r <=? x)%float = true) xs.
Proof.
  induction xs as [|x xs IH]; intros acc Da Dxs; simpl.
  - split; [now left|]. split; [now apply Binary64.leb_refl | constructor].
  - inversion Dxs as [|? ? Dx Dxs']; subst.
    destruct (min_step_le Da Dx) as [Hacc Hx].
    assert (Dm : defined (min_step acc x))
      by (destruct (min_step_choice acc x) as [-> | ->]; assumption).
    destruct (IH (min_step acc x) Dm Dxs') as (Hin & Hle & Hall).
    split; [|split].
    + destruct Hin as [Hin|Hin]; [|now right; right].
      rewrite Hin. destruct (min_step_choice acc x) as [-> | ->]; auto.
    + eapply Binary64.leb_trans; eauto.
    + constructor; [eapply Binary64.leb_trans; eauto | exact Hall].
Qed.

(** The first step replaces the neutral infinity. *)
Lemma max_step_first (x : number) :
  defined x -> max_step neg_infinity x = x.
Proof.
  intros Dx. unfold max_step.
  replace (isNegZero neg_infinity) with false by reflexivity.
  rewrite andb_false_r. destruct (neg_infinity <? x)%float eqn:H;
    [reflexivity|].
  apply Prim2SF_inj. rewrite FloatAxioms.ltb_spec in H. unfold defined in Dx.
  change (Prim2SF neg_infinity) with (S754_infinity true) in *.
  destruct (Prim2SF x) as [[]|[]| |[] m e]; try discriminate; try reflexivity.
  congruence.
Qed.

Lemma min_step_first (x : number) :
  defined x -> min_step infinity x = x.
Proof.
  intros Dx. unfold min_step.
  replace (isPosZero infinity) with false by reflexivity.
  rewrite andb_false_r. destruct (x <? infinity)%float eqn:H;
    [reflexivity|].
  apply Prim2SF_inj. rewrite FloatAxioms.ltb_spec in H. unfold defined in Dx.
  change (Prim2SF infinity) with (S754_infinity false) in *.
  destruct (Prim2SF x) as [[]|[]| |[] m e]; try discriminate; try reflexivity.
  congruence.
Qed.

Lemma Math_max_greatest (xs : list number) :
  xs <> [] -> existsb is_nan xs = false ->
  In (Math_max xs) xs
  /\ Forall (fun x => (x <=? Math_max xs)%float = true) xs.
Proof.
  intros Hne Hnan. unfold Math_max. rewrite Hnan.
  apply no_nan_defined in Hnan.
  destruct xs as [|x xs]; [congruence|].
  inversion Hnan as [|? ? Dx Dxs]; subst. simpl.
  rewrite (max_step_first Dx).
  destruct (fold_max_step Dx Dxs) as (Hin & Hle & Hall).
  split; [destruct Hin as [->|Hin]; auto | now constructor].
Qed.

Lemma Math_min_least (xs : list number) :
  xs <> [] -> existsb is_nan xs = false ->
  In (Math_min xs) xs
  /\ Forall (fun x => (Math_min xs <=? x)%float = true) xs.
Proof.
  intros Hne Hnan. unfold Math_min. rewrite Hnan.
  apply no_nan_defined in Hnan.
  destruct xs as [|x xs]; [congruence|].
  inversion Hnan as [|? ? Dx Dxs]; subst. simpl.
  rewrite (min_step_first Dx).
  destruct (fold_min_step Dx Dxs) as (Hin & Hle & Hall).
  split; [destruct Hin as [->|Hin]; auto | now constructor].
Qed.

Lemma analyze_extremes (points : list IntradayPoint) :
  points <> [] ->
  sessionHigh (stats (analyzeIntradayData points))
  = Math_max (map high points)
  /\ sessionLow (stats (analyzeIntradayData points))
     = Math_min (map low points).
Proof. destruct points; [congruence | now split]. Qed.

(** X12. For a non-empty session whose highs and lows hold no NaN,
    [sessionHigh] is one of the highs and no high exceeds it, and
    [sessionLow] is one of the lows and no low is below it. *)
Theorem session_extremes (points : list IntradayPoint) :
  points <> [] ->
  existsb is_nan (map high points) = false ->
  existsb is_nan (map low points) = false ->
  let st := stats (analyzeIntradayData points) in
  In (sessionHigh st) (map high points)
  /\ Forall (fun p => (high p <=? sessionHigh st)%float = true) points
  /\ In (sessionLow st) (map low points)
  /\ Forall (fun p => (sessionLow st <=? low p)%float = true) points.
Proof.
  intros Hne Hh Hl st.
  destruct (analyze_extremes Hne) as [EH EL]. fold st in EH, EL.
  rewrite EH, EL.
  assert (Hne' : forall f : IntradayPoint -> number, map f points <> [])
    by (intros f E; apply map_eq_nil in E; congruence).
  destruct (Math_max_greatest (Hne' high) Hh) as [Hin Hall].
  destruct (Math_min_least (Hne' low) Hl) as [Hin' Hall'].
  repeat split; auto.
  - now apply Forall_map in Hall.
  - now apply Forall_map in Hall'.
Qed.

(** The scenario's bars hold no NaN. *)
Lemma session_extremes_witness :
  In (sessionHigh (stats (analyzeIntradayData scenario)))
     (map high scenario).
Proof.
  apply (@session_extremes scenario); [discriminate | reflexivity..].
Defined.

(** X13. When every bar of a non-empty session has [low <= high], the
    session has [sessionLow <= sessionHigh]. *)
Theorem session_low_below_high (points : list IntradayPoint) :
  points <> [] ->
  Forall (fun p => (low p <=? high p)%float = true) points ->
  let st := stats (analyzeIntradayData points) in
  (sessionLow st <=? sessionHigh st)%float = true.
Proof.
  intros Hne Hbars st.
  assert (Hnan : existsb is_nan (map high points) = false
                 /\ existsb is_nan (map low points) = false).
  { clear Hne st. induction Hbars as [|p ps Hp _ [IH1 IH2]]; [now split|].
    apply Binary64.leb_defined in Hp. destruct Hp as [Dl Dh]. simpl.
    rewrite IH1, IH2, !orb_false_r.
    split; apply not_true_is_false; intros E;
      apply Binary64Sign.is_nan_spec in E; contradiction. }
  destruct Hnan as [Hh Hl].
  destruct (analyze_extremes Hne) as [EH EL]. fold st in EH, EL.
  rewrite EH, EL.
  assert (Hne' : forall f : IntradayPoint -> number, map f points <> [])
    by (intros f E; apply map_eq_nil in E; congruence).
  destruct (Math_max_greatest (Hne' high) Hh) as [_ Hhigh].
  destruct (Math_min_least (Hne' low) Hl) as [_ Hlow].
  apply Forall_map in Hhigh. apply Forall_map in Hlow.
  destruct points as [|p ps]; [congruence|].
  inversion Hbars; inversion Hhigh; inversion Hlow; subst.
  eapply Binary64.leb_trans; [eassumption|].
  eapply Binary64.leb_trans; eassumption.
Qed.

(** The scenario's bars have [low = high]. *)
Lemma session_low_below_high_witness :
  (sessionLow (stats (analyzeIntradayData scenario))
   <=? sessionHigh (stats (analyzeIntradayData scenario)))%float = true.
Proof.
  apply (@session_low_below_high scenario);
    [discriminate | repeat constructor].
Defined.

(** ** Narrative and statistics *)

(** X14. From two points on, the narrative cites the statistics of the
    summary: its bias sentence is chosen from [sessionChangePct], and the
    four numbers it formats are [sessionChangePct], [rangePct],
    [sessionHigh] and [sessionLow]. *)
Theorem narrative_cites_the_stats (points : list IntradayPoint) :
  2 <= length points ->
  let out := analyzeIntradayData points in
  let st := stats out in
  narrative out
  = [Lit (biasText (biasOf (sessionChangePct st)));
     Lit " Spot rallied "; ToFixed2 (sessionChangePct st);
     Lit "% across the session while rotating through a ";
     ToFixed2 (rangePct st);
     Lit "% range. Monitor how price behaves near ";
     ToFixed2 (sessionHigh st); Lit " (swing high) and ";
     ToFixed2 (sessionLow st);
     Lit " (swing low) for confirmation of continuation or rejection."].
Proof.
  intros Hlen out st.
  destruct points as [|p [|q rest]]; simpl in Hlen; try lia.
  reflexivity.
Qed.

(** The scenario has six points. *)
Lemma narrative_cites_the_stats_witness :
  exists rest,
    narrative (analyzeIntradayData scenario)
    = Lit "Flow shows a constructive bias with buyers pressing the tape."
      :: rest.
Proof.
  rewrite (@narrative_cites_the_stats scenario) by (simpl; lia).
  eexists. reflexivity.
Defined.

(** * Further properties of the chart data *)

Lemma truthy_spec (v : number) :
  truthy v = true -> is_nan v = false /\ (v =? 0)%float = false.
Proof.
  unfold truthy. rewrite negb_true_iff. apply orb_false_iff.
Qed.

Lemma sameValueZero_refl (a : number) : sameValueZero a a = true.
Proof.
  unfold sameValueZero, is_nan. now destruct (a =? a)%float.
Qed.

Lemma sameValueZero_sym (a b : number) :
  sameValueZero a b = sameValueZero b a.
Proof.
  unfold sameValueZero. rewrite (andb_comm (is_nan a)). f_equal.
  destruct (a =? b)%float eqn:Hab, (b =? a)%float eqn:Hba; try reflexivity.
  - apply Binary64.eqb_sym in Hab. congruence.
  - apply Binary64.eqb_sym in Hba. congruence.
Qed.

Lemma eqb_not_nan (a b : number) :
  (a =? b)%float = true -> is_nan a = false /\ is_nan b = false.
Proof.
  intros H. apply Binary64.eqb_leb, Binary64.leb_defined in H.
  destruct H as [Da Db].
  split; apply not_true_is_false; intros E;
    apply Binary64Sign.is_nan_spec in E; contradiction.
Qed.

Lemma eqb_trans (a b c : number) :
  (a =? b)%float = true -> (b =? c)%float = true -> (a =? c)%float = true.
Proof.
  rewrite !Binary64.eqb_compare. unfold fcompare. intros H1 H2.
  now rewrite (Binary64.SFcompare_trans _ _ _ H1 H2) by discriminate.
Qed.

Lemma sameValueZero_trans (a b c : number) :
  sameValueZero a b = true -> sameValueZero b c = true ->
  sameValueZero a c = true.
Proof.
  unfold sameValueZero. intros H1 H2.
  apply orb_true_iff in H1. apply orb_true_iff in H2.
  apply orb_true_iff.
  destruct H1 as [H1|H1], H2 as [H2|H2].
  - left. eapply eqb_trans; eauto.
  - apply eqb_not_nan in H1. apply andb_true_iff in H2.
    destruct H1, H2. congruence.
  - apply eqb_not_nan in H2. apply andb_true_iff in H1.
    destruct H1, H2. congruence.
  - right. apply andb_true_iff in H1. apply andb_true_iff in H2.
    apply andb_true_iff. tauto.
Qed.

Section JsMapFacts.
Context {V : Type}.

Lemma mapGet_set_same (k k' : number) (v : V) (m : list (number * V)) :
  sameValueZero k k' = true -> mapGet k' (mapSet k v m) = Some v.
Proof.
  intros Hk. unfold mapGet.
  induction m as [|[k0 v0] m IH]; simpl.
  - now rewrite Hk.
  - destruct (sameValueZero k0 k) eqn:H0; simpl.
    + now rewrite (sameValueZero_trans _ _ _ H0 Hk).
    + destruct (sameValueZero k0 k') eqn:H0'; [|exact IH].
      rewrite sameValueZero_sym in Hk.
      rewrite (sameValueZero_trans _ _ _ H0' Hk) in H0. discriminate.
Qed.

Lemma mapGet_set_other (k k' : number) (v : V) (m : list (number * V)) :
  sameValueZero k k' = false -> mapGet k' (mapSet k v m) = mapGet k' m.
Proof.
  intros Hk. unfold mapGet.
  induction m as [|[k0 v0] m IH]; simpl.
  - now rewrite Hk.
  - destruct (sameValueZero k0 k) eqn:H0; simpl.
    + destruct (sameValueZero k0 k') eqn:H0'; [|reflexivity].
      rewrite sameValueZero_sym in H0.
      rewrite (sameValueZero_trans _ _ _ H0 H0') in Hk. discriminate.
    + destruct (sameValueZero k0 k'); [reflexivity | exact IH].
Qed.
End JsMapFacts.

Lemma find_last (A : Type) (f : A -> bool) (l : list A) (a : A) :
  find f (l ++ [a])
  = match find f l with
    | Some b => Some b
    | None => if f a then Some a else None
    end.
Proof.
  induction l as [|b l IH]; simpl; [reflexivity|].
  now destruct (f b).
Qed.

(** After the [forEach], a key holds the last marker written under it. *)
Lemma signalMap_last_wins (signals : list SignalMarker.t) (k : number) :
  forall m0,
    mapGet k (fold_left
                (fun m signal =>
                   mapSet (SignalMarker.timestamp signal) signal m)
                signals m0)
    = match find (fun s => sameValueZero (SignalMarker.timestamp s) k)
                 (rev signals) with
      | Some s => Some s
      | None => mapGet k m0
      end.
Proof.
  induction signals as [|s signals IH]; intros m0; simpl; [reflexivity|].
  rewrite IH, find_last.
  destruct (find _ (rev signals)); [reflexivity|].
  destruct (sameValueZero (SignalMarker.timestamp s) k) eqn:Hk.
  - now apply mapGet_set_same.
  - now apply mapGet_set_other.
Qed.

Lemma mapi_from_nth_error {A B} (f : nat -> A -> B) (xs : list A) :
  forall i k,
    nth_error (mapi_from f i xs) k = option_map (f (i + k)) (nth_error xs k).
Proof.
  induction xs as [|x xs IH]; intros i [|k]; simpl; try reflexivity.
  - now rewrite Nat.add_0_r.
  - rewrite IH. now rewrite Nat.add_succ_r.
Qed.

Lemma mapi_nth_error {A B} (f : nat -> A -> B) (xs : list A) (k : nat) :
  nth_error (mapi f xs) k = option_map (f k) (nth_error xs k).
Proof. unfold mapi. now rewrite mapi_from_nth_error. Qed.

Lemma analyze_ema9 (points : list IntradayPoint) :
  ema9 (analyzeIntradayData points) = calculateEMA points 9%float.
Proof. destruct points; reflexivity. Qed.

Lemma analyze_ema21 (points : list IntradayPoint) :
  ema21 (analyzeIntradayData points) = calculateEMA points 21%float.
Proof. destruct points; reflexivity. Qed.

Lemma emaChartSeries_axis (points : list IntradayPoint) (ema : list number) :
  length ema = length points ->
  Forall (fun p => truthy (timestamp p) = true) points ->
  map Datum.x (emaChartSeries points ema)
  = map (fun p => (timestamp p * 1000)%float) points.
Proof.
  intros Hlen Ht. apply nth_error_ext. intros k.
  rewrite !nth_error_map. unfold emaChartSeries. rewrite mapi_nth_error.
  destruct (nth_error points k) as [p|] eqn:Hp.
  - destruct (nth_error ema k) as [v|] eqn:Hv.
    + simpl. rewrite Forall_forall in Ht.
      now rewrite (Ht p (nth_error_In _ _ Hp)).
    + apply nth_error_None in Hv.
      assert (k < length points) by (apply nth_error_Some; congruence).
      lia.
  - apply nth_error_None in Hp.
    assert (Hv : nth_error ema k = None) by (apply nth_error_None; lia).
    now rewrite Hv.
Qed.

Lemma emaChartSeries_values (points : list IntradayPoint)
      (ema : list number) :
  map Datum.y (emaChartSeries points ema) = ema.
Proof.
  apply nth_error_ext. intros k.
  rewrite nth_error_map. unfold emaChartSeries. rewrite mapi_nth_error.
  now destruct (nth_error ema k).
Qed.

Lemma signalSeries_axis (points : list IntradayPoint)
      (sigs : list SignalMarker.t) :
  map Datum.x (signalSeries points sigs)
  = map (fun p => (timestamp p * 1000)%float) points.
Proof.
  unfold signalSeries. rewrite map_map. apply map_ext. intros p.
  now destruct (mapGet _ _).
Qed.

(** X15. The page hands the chart the engine's averages and markers.  When
    every bar has a time other than 0 and NaN, the four plotted series lie
    on one time axis, the bars' times in milliseconds, and the two average
    lines carry the engine's averages unchanged. *)
Theorem chart_series_share_the_time_axis (points : list IntradayPoint)
        (Htimes : Forall (fun p => truthy (timestamp p) = true) points) :
  let a := analyzeIntradayData points in
  let axis := map (fun p => (timestamp p * 1000)%float) points in
  map Datum.x (closeSeries points) = axis
  /\ map Datum.x (emaChartSeries points (ema9 a)) = axis
  /\ map Datum.x (emaChartSeries points (ema21 a)) = axis
  /\ map Datum.x (signalSeries points (signals a)) = axis
  /\ map Datum.y (closeSeries points) = map close points
  /\ map Datum.y (emaChartSeries points (ema9 a))
     = calculateEMA points 9%float
  /\ map Datum.y (emaChartSeries points (ema21 a))
     = calculateEMA points 21%float.
Proof.
  intros a axis. subst a axis.
  rewrite analyze_ema9, analyze_ema21.
  repeat split.
  - unfold closeSeries. now rewrite map_map.
  - apply emaChartSeries_axis; [apply calculateEMA_length | exact Htimes].
  - apply emaChartSeries_axis; [apply calculateEMA_length | exact Htimes].
  - apply signalSeries_axis.
  - unfold closeSeries. now rewrite map_map.
  - apply emaChartSeries_values.
  - apply emaChartSeries_values.
Qed.

(** The scenario's six bars. *)
Lemma chart_series_share_the_time_axis_witness :
  map Datum.x (emaChartSeries scenario (ema9 (analyzeIntradayData scenario)))
  = map (fun p => (timestamp p * 1000)%float) scenario.
Proof.
  apply (@chart_series_share_the_time_axis scenario).
  repeat constructor.
Defined.

(** X16. A bar whose time is 0 or NaN is plotted at its position in the
    array on the average lines, while the close line and the signal series
    keep its time, in milliseconds. *)
Theorem falsy_time_is_plotted_at_its_index (points : list IntradayPoint)
        (ema : list number) (sigs : list SignalMarker.t) (i : nat)
        (p : IntradayPoint)
        (Hp : nth_error points i = Some p)
        (Hfalsy : truthy (timestamp p) = false)
        (Hi : i < length ema) :
  option_map Datum.x (nth_error (emaChartSeries points ema) i)
  = Some (ofLength i)
  /\ option_map Datum.x (nth_error (closeSeries points) i)
     = Some (timestamp p * 1000)%float
  /\ option_map Datum.x (nth_error (signalSeries points sigs) i)
     = Some (timestamp p * 1000)%float.
Proof.
  split; [|split].
  - unfold emaChartSeries. rewrite mapi_nth_error.
    destruct (nth_error ema i) as [v|] eqn:Hv.
    + simpl. now rewrite Hp, Hfalsy.
    + apply nth_error_None in Hv. lia.
  - unfold closeSeries. rewrite nth_error_map, Hp. reflexivity.
  - unfold signalSeries. rewrite nth_error_map, Hp. simpl.
    now destruct (mapGet _ _).
Qed.

(** The second of three bars has time 0. *)
Lemma falsy_time_is_plotted_at_its_index_witness :
  let points := [flatBar 60 100; flatBar 0 101; flatBar 180 102]%float in
  option_map Datum.x
    (nth_error (emaChartSeries points (calculateEMA points 9%float)) 1)
  = Some 1%float
  /\ option_map Datum.x (nth_error (closeSeries points) 1) = Some 0%float.
Proof.
  intros points.
  destruct (@falsy_time_is_plotted_at_its_index
              points (calculateEMA points 9%float) [] 1
              (flatBar 0 101)%float eq_refl eq_refl) as [H1 [H2 _]].
  - rewrite calculateEMA_length. simpl. lia.
  - split; [exact H1 | exact H2].
Defined.

Lemma distinctTimes_spec (points : list IntradayPoint) :
  distinctTimes points = true ->
  forall i j p q,
    nth_error points i = Some p -> nth_error points j = Some q ->
    sameValueZero (timestamp p) (timestamp q) = true -> i = j.
Proof.
  induction points as [|p0 rest IH]; intros Hd i j p q Hi Hj Hsame.
  - destruct i; discriminate.
  - simpl in Hd. apply andb_true_iff in Hd. destruct Hd as [Hhead Hrest].
    rewrite forallb_forall in Hhead.
    destruct i as [|i], j as [|j]; simpl in Hi, Hj.
    + reflexivity.
    + injection Hi as <-. apply nth_error_In in Hj.
      apply Hhead in Hj. rewrite Hsame in Hj. discriminate.
    + injection Hj as <-. apply nth_error_In in Hi.
      apply Hhead in Hi. rewrite sameValueZero_sym, Hsame in Hi.
      discriminate.
    + f_equal. eapply IH; eauto.
Qed.

Lemma find_unique {A} (f : A -> bool) (l : list A) (a : A) :
  In a l -> f a = true ->
  (forall b, In b l -> f b = true -> b = a) ->
  find f l = Some a.
Proof.
  induction l as [|b l IH]; intros Hin Ha Huniq; [contradiction|].
  simpl. destruct (f b) eqn:Hb.
  - f_equal. apply Huniq; [now left | exact Hb].
  - destruct Hin as [->|Hin]; [congruence|].
    apply IH; [exact Hin | exact Ha |].
    intros c Hc. apply Huniq. now right.
Qed.

Lemma find_absent {A} (f : A -> bool) (l : list A) :
  (forall b, In b l -> f b = false) -> find f l = None.
Proof.
  induction l as [|b l IH]; intros Hnone; [reflexivity|].
  simpl. rewrite (Hnone b) by now left.
  apply IH. intros c Hc. apply Hnone. now right.
Qed.

Lemma find_over_app {A} (f : A -> bool) (l1 l2 : list A) :
  find f (l1 ++ l2)
  = match find f l1 with Some a => Some a | None => find f l2 end.
Proof.
  induction l1 as [|a l1 IH]; simpl; [reflexivity|].
  now destruct (f a).
Qed.

Lemma NoDup_map_same {A B} (f : A -> B) (l : list A) (a b : A) :
  NoDup (map f l) -> In a l -> In b l -> f a = f b -> a = b.
Proof.
  induction l as [|c l IH]; intros Hnd Ha Hb Hf; [contradiction|].
  simpl in Hnd. inversion Hnd as [|? ? Hc Hnd']; subst.
  destruct Ha as [->|Ha], Hb as [->|Hb].
  - reflexivity.
  - exfalso. apply Hc. rewrite Hf. now apply in_map.
  - exfalso. apply Hc. rewrite <- Hf. now apply in_map.
  - now apply IH.
Qed.

Lemma signalSeries_nth (points : list IntradayPoint)
      (sigs : list SignalMarker.t) (i : nat) (p : IntradayPoint) :
  nth_error points i = Some p ->
  nth_error (signalSeries points sigs) i
  = Some
      match find (fun s => sameValueZero (SignalMarker.timestamp s)
                                         (timestamp p))
                 (rev sigs) with
      | Some s =>
          {| Datum.x := (timestamp p * 1000)%float;
             Datum.y := SignalMarker.price s; Datum.marker := Some s |}
      | None =>
          {| Datum.x := (timestamp p * 1000)%float; Datum.y := nan;
             Datum.marker := None |}
      end.
Proof.
  intros Hp. unfold signalSeries, signalMapOf.
  rewrite nth_error_map, Hp. simpl. rewrite signalMap_last_wins.
  now destruct (find _ (rev sigs)).
Qed.

Lemma marker_at_move_bar (points : list IntradayPoint) (m : Move.t) :
  distinctTimes points = true -> In m (topMoves points) ->
  nth_error (signalSeries points (map (bigMoveSignal points)
                                      (topMoves points)))
            (Move.index m)
  = Some {| Datum.x := (timestamp (at_ points (Move.index m)) * 1000)%float;
            Datum.y := close (at_ points (Move.index m));
            Datum.marker := Some (bigMoveSignal points m) |}.
Proof.
  intros Hdistinct Hm.
  pose proof (topMoves_recorded points) as Hrec.
  rewrite Forall_forall in Hrec.
  destruct (Hrec m Hm) as [[_ Hlt] _].
  assert (Hp : nth_error points (Move.index m)
               = Some (at_ points (Move.index m)))
    by (unfold at_; now apply nth_error_nth').
  erewrite signalSeries_nth by exact Hp.
  rewrite (@find_unique _ _ _ (bigMoveSignal points m)).
  - reflexivity.
  - apply in_rev. rewrite rev_involutive. now apply in_map.
  - simpl. apply sameValueZero_refl.
  - intros s Hs Hsame. apply in_rev in Hs.
    apply in_map_iff in Hs.
    destruct Hs as [m' [<- Hm']]. f_equal.
    destruct (Hrec m' Hm') as [[_ Hlt'] _].
    assert (Hp' : nth_error points (Move.index m')
                  = Some (at_ points (Move.index m')))
      by (unfold at_; now apply nth_error_nth').
    simpl in Hsame.
    assert (Hidx : Move.index m' = Move.index m)
      by (eapply distinctTimes_spec; eauto).
    eapply NoDup_map_same;
      [apply topMoves_distinct_indices | exact Hm' | exact Hm | exact Hidx].
Qed.

Lemma no_marker_elsewhere (points : list IntradayPoint) (i : nat)
      (p : IntradayPoint) :
  distinctTimes points = true -> nth_error points i = Some p ->
  ~ In i (map Move.index (topMoves points)) ->
  nth_error (signalSeries points (map (bigMoveSignal points)
                                      (topMoves points))) i
  = Some {| Datum.x := (timestamp p * 1000)%float; Datum.y := nan;
            Datum.marker := None |}.
Proof.
  intros Hdistinct Hp Hnot.
  erewrite signalSeries_nth by exact Hp.
  rewrite find_absent; [reflexivity|].
  intros s Hs. apply in_rev in Hs.
  apply in_map_iff in Hs. destruct Hs as [m [<- Hm]].
  apply not_true_is_false. intros Hsame. apply Hnot.
  pose proof (topMoves_recorded points) as Hrec.
  rewrite Forall_forall in Hrec.
  destruct (Hrec m Hm) as [[_ Hlt] _].
  assert (Hp' : nth_error points (Move.index m)
                = Some (at_ points (Move.index m)))
    by (unfold at_; now apply nth_error_nth').
  simpl in Hsame.
  assert (Hidx : Move.index m = i)
    by (eapply distinctTimes_spec; eauto).
  rewrite <- Hidx. now apply in_map.
Qed.

(** X17. When no two bars carry the same time, the chart plots every
    marker of the engine at the bar of its move, at that bar's close, and
    leaves every other bar without a marker and with NaN as its value. *)
Theorem chart_plots_each_marker_at_its_bar (points : list IntradayPoint)
        (Hdistinct : distinctTimes points = true) :
  let series := signalSeries points (signals (analyzeIntradayData points)) in
  length series = length points
  /\ (forall m, In m (topMoves points) ->
        nth_error series (Move.index m)
        = Some {| Datum.x :=
                    (timestamp (at_ points (Move.index m)) * 1000)%float;
                  Datum.y := close (at_ points (Move.index m));
                  Datum.marker := Some (bigMoveSignal points m) |})
  /\ (forall i p, nth_error points i = Some p ->
        ~ In i (map Move.index (topMoves points)) ->
        nth_error series i
        = Some {| Datum.x := (timestamp p * 1000)%float; Datum.y := nan;
                  Datum.marker := None |}).
Proof.
  intros series. subst series. rewrite analyze_signals.
  split; [|split].
  - unfold signalSeries. now rewrite length_map.
  - intros m Hm. now apply marker_at_move_bar.
  - intros i p Hp Hnot. now apply no_marker_elsewhere.
Qed.

(** The scenario's six bars, one minute apart. *)
Lemma chart_plots_each_marker_at_its_bar_witness :
  length (signalSeries scenario (signals (analyzeIntradayData scenario)))
  = length scenario.
Proof.
  apply (@chart_plots_each_marker_at_its_bar scenario).
  reflexivity.
Defined.

(** X18. Markers are keyed by their time, and a later marker replaces an
    earlier one of the same time: a bar shows the last marker of the list
    that carries the bar's time, at that marker's price. *)
Theorem repeated_time_shows_last_marker (points : list IntradayPoint)
        (before after : list SignalMarker.t) (s : SignalMarker.t)
        (i : nat) (p : IntradayPoint)
        (Hp : nth_error points i = Some p)
        (Hs : sameValueZero (SignalMarker.timestamp s) (timestamp p) = true)
        (Hafter : forallb
                    (fun s' => negb (sameValueZero (SignalMarker.timestamp s')
                                                   (timestamp p)))
                    after = true) :
  nth_error (signalSeries points (before ++ s :: after)) i
  = Some {| Datum.x := (timestamp p * 1000)%float;
            Datum.y := SignalMarker.price s; Datum.marker := Some s |}.
Proof.
  erewrite signalSeries_nth by exact Hp.
  rewrite rev_app_distr. simpl. rewrite <- app_assoc, find_over_app.
  rewrite find_absent.
  - simpl. now rewrite Hs.
  - intros s' Hs'. apply in_rev in Hs'.
    rewrite forallb_forall in Hafter. apply Hafter in Hs'.
    now apply negb_true_iff.
Qed.

(** Two markers of the time of the second bar: the later one is shown. *)
Lemma repeated_time_shows_last_marker_witness :
  let first :=
    SignalMarker.mk 120%float 101%float "Momentum Upswing" High Bullish in
  let last :=
    SignalMarker.mk 120%float 99%float "Momentum Flush" Low Bearish in
  nth_error (signalSeries [flatBar 60 100; flatBar 120 101]%float
                          [first; last]) 1
  = Some {| Datum.x := 120000%float; Datum.y := 99%float;
            Datum.marker := Some last |}.
Proof.
  intros first last.
  apply (@repeated_time_shows_last_marker
           [flatBar 60 100; flatBar 120 101]%float [first] [] last 1
           (flatBar 120 101)%float);
    reflexivity.
Defined.

(** X19. The page shows the placeholder exactly for an empty series.
    Otherwise, when no two bars carry the same time, the signal points are
    coloured by the engine's moves: green at the bar of a bullish move,
    red at the bar of a bearish one, grey at every other bar. *)
Theorem chart_colours_follow_the_moves (points : list IntradayPoint) :
  let a := analyzeIntradayData points in
  match IntradayChart points (ema9 a) (ema21 a) (signals a) with
  | Awaiting => points = []
  | LineChart closes ema9s ema21s signalData signalColors =>
      points <> []
      /\ length signalColors = length points
      /\ (distinctTimes points = true ->
          (forall m, In m (topMoves points) ->
             nth_error signalColors (Move.index m)
             = Some match Move.direction m with
                    | Bullish => "rgba(16, 185, 129, 0.9)"%string
                    | Bearish => "rgba(248, 113, 113, 0.9)"%string
                    end)
          /\ (forall i, i < length points ->
                ~ In i (map Move.index (topMoves points)) ->
                nth_error signalColors i
                = Some "rgba(148, 163, 184, 0.6)"%string))
  end.
Proof.
  intros a. subst a. rewrite analyze_signals.
  unfold IntradayChart. destruct points as [|p0 rest]; [reflexivity|].
  set (points := p0 :: rest) in *.
  split; [discriminate|]. split; [|intros Hdistinct; split].
  - unfold signalSeries. now rewrite !length_map.
  - intros m Hm. rewrite nth_error_map.
    now rewrite marker_at_move_bar.
  - intros i Hi Hnot. rewrite nth_error_map.
    destruct (nth_error points i) as [p|] eqn:Hp.
    + now erewrite no_marker_elsewhere by eassumption.
    + apply nth_error_None in Hp. lia.
Qed.

(** The scenario's six bars. *)
Lemma chart_colours_follow_the_moves_witness :
  nth_error
    (map signalColor
         (signalSeries scenario (signals (analyzeIntradayData scenario))))
    0
  = Some "rgba(148, 163, 184, 0.6)"%string.
Proof.
  pose proof (@chart_colours_follow_the_moves scenario) as H.
  lazy beta iota zeta delta [IntradayChart scenario] in H.
  destruct H as [_ [_ H]]. destruct (H eq_refl) as [_ Hgrey].
  apply (Hgrey 0).
  - simpl. lia.
  - vm_compute. intros [E|[E|[]]]; discriminate.
Defined.

(** * Further properties of the price feed *)

Lemma filterBoolean_all_some {A} (xs : list A) :
  Feed.filterBoolean (map Some xs) = xs.
Proof. induction xs as [|x xs IH]; simpl; congruence. Qed.

Lemma filterBoolean_In {A} (os : list (option A)) (x : A) :
  In x (Feed.filterBoolean os) <-> In (Some x) os.
Proof.
  induction os as [|[y|] os IH]; simpl.
  - tauto.
  - rewrite IH. split; intros [H|H]; auto; left; congruence.
  - rewrite IH. split; [auto | intros [H|H]; [discriminate | exact H]].
Qed.

Lemma filterBoolean_length {A} (os : list (option A)) :
  length (Feed.filterBoolean os) <= length os.
Proof. induction os as [|[y|] os IH]; simpl; lia. Qed.

Lemma mapi_from_ext {A B} (f g : nat -> A -> B) (xs : list A) :
  forall i,
    (forall k x, nth_error xs k = Some x -> f (i + k) x = g (i + k) x) ->
    mapi_from f i xs = mapi_from g i xs.
Proof.
  induction xs as [|x xs IH]; intros i H; simpl; [reflexivity|].
  f_equal.
  - specialize (H 0 x eq_refl). now rewrite Nat.add_0_r in H.
  - apply IH. intros k y Hk. specialize (H (S k) y Hk).
    now rewrite Nat.add_succ_r in H.
Qed.

Lemma mapi_from_as_map {A B} (f : nat -> A -> B) (xs : list A) :
  forall i, mapi_from (fun k x => Some (f k x)) i xs
            = map Some (mapi_from f i xs).
Proof. induction xs as [|x xs IH]; intros i; simpl; now rewrite ?IH. Qed.

(** X20. The feed drops a sample only for a close or a volume that is
    [null]: every point it returns has neither of them [null], it is the
    sample of some position of the time array with the quote's values of
    that position, and every position whose close and volume are not
    [null] is returned.  Open, high and low are not looked at. *)
Theorem feed_drops_only_null_samples (timestamps : list Feed.value)
        (quote : Feed.Quote) :
  let out := Feed.extractPoints timestamps quote in
  length out <= length timestamps
  /\ Forall (fun p => Feed.p_close p <> Feed.Null
                      /\ Feed.p_volume p <> Feed.Null) out
  /\ (forall p,
        In p out <->
        exists idx t,
          nth_error timestamps idx = Some t
          /\ Feed.read (Feed.close quote) idx <> Feed.Null
          /\ Feed.read (Feed.volume quote) idx <> Feed.Null
          /\ p = {| Feed.p_timestamp := t;
                    Feed.p_open := Feed.read (Feed.open quote) idx;
                    Feed.p_high := Feed.read (Feed.high quote) idx;
                    Feed.p_low := Feed.read (Feed.low quote) idx;
                    Feed.p_close := Feed.read (Feed.close quote) idx;
                    Feed.p_volume := Feed.read (Feed.volume quote) idx |}).
Proof.
  intros out. subst out. unfold Feed.extractPoints.
  assert (Hin : forall p,
             In p (Feed.filterBoolean (mapi (Feed.sampleAt quote) timestamps))
             <-> exists idx t,
                 nth_error timestamps idx = Some t
                 /\ Feed.sampleAt quote idx t = Some p).
  { intros p. rewrite filterBoolean_In. split.
    - intros H. apply In_nth_error in H. destruct H as [idx H].
      rewrite mapi_nth_error in H.
      destruct (nth_error timestamps idx) as [t|] eqn:Ht; [|discriminate].
      exists idx, t. split; [exact Ht|]. now injection H.
    - intros [idx [t [Ht Hs]]]. apply nth_error_In with (n := idx).
      now rewrite mapi_nth_error, Ht, <- Hs. }
  assert (Hsample : forall idx t p,
             Feed.sampleAt quote idx t = Some p <->
             Feed.read (Feed.close quote) idx <> Feed.Null
             /\ Feed.read (Feed.volume quote) idx <> Feed.Null
             /\ p = {| Feed.p_timestamp := t;
                       Feed.p_open := Feed.read (Feed.open quote) idx;
                       Feed.p_high := Feed.read (Feed.high quote) idx;
                       Feed.p_low := Feed.read (Feed.low quote) idx;
                       Feed.p_close := Feed.read (Feed.close quote) idx;
                       Feed.p_volume :=
                         Feed.read (Feed.volume quote) idx |}).
  { intros idx t p. unfold Feed.sampleAt.
    destruct (Feed.read (Feed.close quote) idx) eqn:Hc,
             (Feed.read (Feed.volume quote) idx) eqn:Hv; simpl;
      split;
      try discriminate;
      try (intros [H1 [H2 _]]; congruence);
      try (intros H; injection H as <-;
           repeat split; discriminate || reflexivity);
      try (intros [_ [_ ->]]; reflexivity). }
  split; [|split].
  - etransitivity; [apply filterBoolean_length|].
    now rewrite mapi_length.
  - apply Forall_forall. intros p Hp. apply Hin in Hp.
    destruct Hp as [idx [t [_ Hs]]]. apply Hsample in Hs.
    destruct Hs as [Hc [Hv ->]]. simpl. now split.
  - intros p. rewrite Hin. split.
    + intros [idx [t [Ht Hs]]]. exists idx, t. split; [exact Ht|].
      now apply Hsample.
    + intros [idx [t [Ht Hs]]]. exists idx, t. split; [exact Ht|].
      now apply Hsample.
Qed.

(** X21. When no close and no volume read at a position of the time array
    is [null], every time yields a point, in order.  Reads past the end of
    a quote array are [undefined], not [null]: a quote whose arrays are
    shorter than the time array loses no sample. *)
Theorem feed_keeps_samples_without_null (timestamps : list Feed.value)
        (quote : Feed.Quote)
        (Hclose : forall idx, idx < length timestamps ->
                              Feed.read (Feed.close quote) idx <> Feed.Null)
        (Hvolume : forall idx, idx < length timestamps ->
                               Feed.read (Feed.volume quote) idx
                               <> Feed.Null) :
  Feed.extractPoints timestamps quote
  = mapi (fun idx t =>
            {| Feed.p_timestamp := t;
               Feed.p_open := Feed.read (Feed.open quote) idx;
               Feed.p_high := Feed.read (Feed.high quote) idx;
               Feed.p_low := Feed.read (Feed.low quote) idx;
               Feed.p_close := Feed.read (Feed.close quote) idx;
               Feed.p_volume := Feed.read (Feed.volume quote) idx |})
         timestamps
  /\ map Feed.p_timestamp (Feed.extractPoints timestamps quote) = timestamps.
Proof.
  assert (Hall : Feed.extractPoints timestamps quote
                 = mapi (fun idx t =>
            {| Feed.p_timestamp := t;
               Feed.p_open := Feed.read (Feed.open quote) idx;
               Feed.p_high := Feed.read (Feed.high quote) idx;
               Feed.p_low := Feed.read (Feed.low quote) idx;
               Feed.p_close := Feed.read (Feed.close quote) idx;
               Feed.p_volume := Feed.read (Feed.volume quote) idx |})
         timestamps).
  { unfold Feed.extractPoints, mapi.
    rewrite <- filterBoolean_all_some. f_equal.
    rewrite <- mapi_from_as_map.
    apply mapi_from_ext. intros k t Hk. simpl.
    assert (Hlt : k < length timestamps)
      by (apply nth_error_Some; congruence).
    unfold Feed.sampleAt.
    specialize (Hclose k Hlt). specialize (Hvolume k Hlt).
    destruct (Feed.read (Feed.close quote) k),
             (Feed.read (Feed.volume quote) k);
      simpl; congruence. }
  split; [exact Hall|].
  rewrite Hall. apply nth_error_ext. intros k.
  rewrite nth_error_map, mapi_nth_error.
  now destruct (nth_error timestamps k).
Qed.

(** Three times, a quote with one close and no volume at all. *)
Lemma feed_keeps_samples_without_null_witness :
  let ts := [Feed.Num 60; Feed.Num 120; Feed.Num 180]%float in
  let quote := Feed.mkQuote [] [Feed.Num 100%float] [] [] [] in
  map Feed.p_timestamp (Feed.extractPoints ts quote) = ts.
Proof.
  intros ts quote.
  apply (@feed_keeps_samples_without_null ts quote).
  - intros [|[|[|idx]]] H; simpl in *; try discriminate; lia.
  - intros [|[|[|idx]]] H; simpl in *; try discriminate; lia.
Defined.
